(** * CSet: an array-based set of signed 32-bit integers (samt5.c)

    Shallow embedding of the C functions of [samt5.c] and the properties
    its documentation states about them.

    Conventions of the embedding:
    - [uint32_t] and [int32_t] quantities are integers in [Z]; every
      arithmetic operation the C code performs on them is followed by the
      wrap-around of its type ([u32], [i32]).
    - A [CSet] object is a record of its three fields.  The [Data] pointer
      is a [buffer]: [NULL], or a heap block holding a list of cells.
    - Reading or writing through [NULL] or outside a block is undefined
      behaviour in C; here [load] and [store] return [None], and every
      function that dereferences memory lives in the [option] monad.
    - [malloc] either fails ([NULL]) or returns a fresh block, as decided
      by the boolean the caller passes for that allocation.  [free] has no
      effect on the values computed and is not represented.
    - C loops are recursive functions on a fuel argument; the functions
      that call them supply a bound on the number of iterations. *)

From stdpp Require Import base option list sorting gmap.
From Stdlib Require Import ZArith Lia.

Local Open Scope Z_scope.

(** ** Machine integers *)

Definition INT32_MIN : Z := -2147483648.
Definition INT32_MAX : Z := 2147483647.
Definition UINT32_MAX : Z := 4294967295.

(** Value of an arithmetic result stored in a [uint32_t]. *)
Definition u32 (x : Z) : Z := x mod 4294967296.

(** Value of an arithmetic result stored in an [int32_t] (two's complement). *)
Definition i32 (x : Z) : Z := (x + 2147483648) mod 4294967296 - 2147483648.

(** ** Memory *)

Inductive buffer : Type :=
  | NULL
  | Block (cells : list Z).

Record CSet : Type := mkCSet {
  Capacity : Z;   (* uint32_t *)
  Usage : Z;      (* uint32_t *)
  Data : buffer   (* int32_t*  *)
}.

#[global] Instance buffer_eq_dec : EqDecision buffer.
Proof. solve_decision. Defined.

#[global] Instance CSet_eq_dec : EqDecision CSet.
Proof. solve_decision. Defined.

(** [p[i]] as an rvalue. *)
Definition load (p : buffer) (i : Z) : option Z :=
  match p with
  | NULL => None
  | Block d => if decide (0 ≤ i) then d !! Z.to_nat i else None
  end.

(** [p[i] = v]. *)
Definition store (p : buffer) (i v : Z) : option buffer :=
  match p with
  | NULL => None
  | Block d =>
      if decide (0 ≤ i < Z.of_nat (length d))
      then Some (Block (<[Z.to_nat i := v]> d))
      else None
  end.

Arguments load : simpl never.
Arguments store : simpl never.

(** [malloc(n * sizeof(int32_t))]: the block's initial contents are
    indeterminate in C; the functions below overwrite every cell of a new
    block before they publish it. *)
Definition malloc (ok : bool) (n : Z) : buffer :=
  if ok then Block (replicate (Z.to_nat n) 0) else NULL.

(** ** CSet_Init *)

(** [while (Sz > 0 && i < Sz) { pSet->Data[i] = INT32_MIN; i++; }] *)
Fixpoint Init_loop (fuel : nat) (data : buffer) (Sz i : Z) : option buffer :=
  match fuel with
  | O => None
  | S fuel' =>
      if decide (0 < Sz ∧ i < Sz) then
        data' ← store data i INT32_MIN;
        Init_loop fuel' data' Sz (u32 (i + 1))
      else Some data
  end.

(** [pSet] is [None] for a null pointer, otherwise the (raw or proper)
    object it points to; the result carries the object after the call. *)
Definition CSet_Init (ok : bool) (pSet : option CSet) (Sz : Z)
  : option (bool * option CSet) :=
  match pSet with
  | None => Some (false, None)
  | Some _ =>
      if decide (Sz > 0) then
        match malloc ok Sz with
        | NULL => Some (false, Some (mkCSet 0 0 NULL))
        | data =>
            data' ← Init_loop (S (Z.to_nat Sz)) data Sz 0;
            Some (true, Some (mkCSet Sz 0 data'))
        end
      else
        data' ← Init_loop (S (Z.to_nat Sz)) NULL Sz 0;
        Some (true, Some (mkCSet Sz 0 data'))
  end.

(** ** CSet_Insert *)

(** Outcome of the search loop of the in-place path: the early
    [return false], or the index at which the loop stopped. *)
Inductive scan_result : Type :=
  | Duplicate
  | Position (i : Z).

Fixpoint Insert_scan (fuel : nat) (data : buffer) (usage Value i : Z)
  : option scan_result :=
  match fuel with
  | O => None
  | S fuel' =>
      if decide (i < usage) then
        x ← load data i;
        if decide (x = Value) then Some Duplicate
        else if decide (x < Value) then Insert_scan fuel' data usage Value (u32 (i + 1))
        else Some (Position i)
      else Some (Position i)
  end.

(** [while (i < j) { Data[j] = Data[j - 1]; j--; }] *)
Fixpoint Insert_shift (fuel : nat) (data : buffer) (i j : Z) : option buffer :=
  match fuel with
  | O => None
  | S fuel' =>
      if decide (i < j) then
        x ← load data (u32 (j - 1));
        data' ← store data j x;
        Insert_shift fuel' data' i (u32 (j - 1))
      else Some data
  end.

(** The copy loop of the growth path; [limit] is [pSet->Usage + 1]. *)
Fixpoint Insert_merge (fuel : nat) (old : buffer) (usage Value : Z)
    (NewData : buffer) (limit i j : Z) : option (buffer * Z) :=
  match fuel with
  | O => None
  | S fuel' =>
      if decide (i < limit) then
        take_old ← (if decide (j < usage)
                    then x ← load old j; Some (bool_decide (x < Value))
                    else Some false);
        if take_old : bool then
          x ← load old j;
          NewData' ← store NewData i x;
          Insert_merge fuel' old usage Value NewData' limit (u32 (i + 1)) (u32 (j + 1))
        else
          NewData' ← store NewData i Value;
          Insert_merge fuel' old usage Value NewData' limit (u32 (i + 1)) j
      else Some (NewData, i)
  end.

(** [while (i < limit) { data[i] = INT32_MIN; i++; }], the loop that pads a
    new block in [CSet_Insert], [CSet_Intersection] and
    [CSet_SymDifference]. *)
Fixpoint fill_loop (fuel : nat) (data : buffer) (i limit : Z) : option buffer :=
  match fuel with
  | O => None
  | S fuel' =>
      if decide (i < limit) then
        data' ← store data i INT32_MIN;
        fill_loop fuel' data' (u32 (i + 1)) limit
      else Some data
  end.

Definition CSet_Insert (ok : bool) (pSet : CSet) (Value : Z) : option (bool * CSet) :=
  match Data pSet with
  | NULL => Some (false, pSet)
  | _ =>
      if decide (u32 (Usage pSet + 1) < Capacity pSet) then
        r ← Insert_scan (S (Z.to_nat (Usage pSet))) (Data pSet) (Usage pSet) Value 0;
        match r with
        | Duplicate => Some (false, pSet)
        | Position i =>
            data1 ← Insert_shift (S (Z.to_nat (Usage pSet) + 1)) (Data pSet) i
                      (u32 (Usage pSet + 1));
            data2 ← store data1 i Value;
            Some (true, mkCSet (Capacity pSet) (u32 (Usage pSet + 1)) data2)
        end
      else
        let capacity := if decide (Capacity pSet ≤ 0) then 1 else Capacity pSet in
        match malloc ok (u32 (capacity * 2)) with
        | NULL => Some (false, pSet)
        | NewData =>
            let Capacity' := u32 (capacity * 2) in
            '(NewData1, i) ← Insert_merge (S (Z.to_nat (Usage pSet) + 1)) (Data pSet)
                               (Usage pSet) Value NewData (u32 (Usage pSet + 1)) 0 0;
            NewData2 ← fill_loop (S (Z.to_nat Capacity')) NewData1 i Capacity';
            Some (true, mkCSet Capacity' (u32 (Usage pSet + 1)) NewData2)
        end
  end.

(** ** CSet_Remove *)

(** The search loop; the result is [found] and the final [i]. *)
Fixpoint Remove_scan (fuel : nat) (data : buffer) (usage Value i : Z)
  : option (bool * Z) :=
  match fuel with
  | O => None
  | S fuel' =>
      if decide (i < usage) then
        x ← load data i;
        if decide (x = Value) then Some (true, i)
        else Remove_scan fuel' data usage Value (u32 (i + 1))
      else Some (false, i)
  end.

(** [while (i <= pSet->Usage - 2) { Data[i] = Data[i + 1]; i++; }] *)
Fixpoint Remove_shift (fuel : nat) (data : buffer) (usage i : Z) : option buffer :=
  match fuel with
  | O => None
  | S fuel' =>
      if decide (i ≤ u32 (usage - 2)) then
        x ← load data (u32 (i + 1));
        data' ← store data i x;
        Remove_shift fuel' data' usage (u32 (i + 1))
      else Some data
  end.

(** [depth] bounds the nesting of the calls of [CSet_Remove] to itself:
    with [depth = 1] the outermost call may not recurse, with [depth = 2]
    it may recurse once, and so on. *)
Fixpoint CSet_Remove_rec (depth : nat) (pSet : CSet) (Value : Z)
  : option (bool * CSet) :=
  match depth with
  | O => None
  | S depth' =>
      '(found, i) ← Remove_scan (S (Z.to_nat (Usage pSet))) (Data pSet)
                      (Usage pSet) Value 0;
      if found && bool_decide (i = u32 (Usage pSet - 1)) then
        data' ← store (Data pSet) i INT32_MIN;
        Some (found, mkCSet (Capacity pSet) (u32 (Usage pSet - 1)) data')
      else if found then
        data1 ← Remove_shift (S (Z.to_nat (Usage pSet))) (Data pSet) (Usage pSet) i;
        let pSet1 := mkCSet (Capacity pSet) (u32 (Usage pSet - 1)) data1 in
        '(_, pSet2) ← CSet_Remove_rec depth' pSet1 Value;
        data2 ← store (Data pSet2) (Usage pSet2) INT32_MIN;
        Some (found, mkCSet (Capacity pSet2) (Usage pSet2) data2)
      else Some (found, pSet)
  end.

(** Every nested call runs on a set whose [Usage] is one less, so
    [Usage + 1] levels are enough for any set. *)
Definition CSet_Remove (pSet : CSet) (Value : Z) : option (bool * CSet) :=
  CSet_Remove_rec (S (Z.to_nat (Usage pSet))) pSet Value.

(** ** CSet_Contains *)

(** [min], [max] and [mid] are [int32_t]: [pSet->Usage - 1] is computed in
    [uint32_t] and converted, and the sums and differences are computed in
    [int32_t].  Where C leaves the result of a signed overflow undefined,
    the two's-complement value is taken; a negative [mid] then makes the
    read of [Data[mid]] fall outside the block. *)
Fixpoint Contains_loop (fuel : nat) (data : buffer) (Value min max mid : Z)
  : option bool :=
  match fuel with
  | O => None
  | S fuel' =>
      if decide (min ≤ max) then
        x ← load data mid;
        if decide (x = Value) then Some true
        else
          let max' := if decide (x > Value) then i32 (mid - 1) else max in
          let min' := if decide (x > Value) then min
                      else if decide (x < Value) then i32 (mid + 1) else min in
          Contains_loop fuel' data Value min' max' (Z.quot (i32 (min' + max')) 2)
      else Some false
  end.

Definition CSet_Contains (pSet : CSet) (Value : Z) : option bool :=
  if decide (Usage pSet = 0) then Some false
  else
    let max := i32 (u32 (Usage pSet - 1)) in
    let min := 0 in
    let mid := Z.quot (i32 (min + max)) 2 in
    Contains_loop (S (Z.to_nat (Usage pSet))) (Data pSet) Value min max mid.

(** ** CSet_Equals *)

Fixpoint Equals_loop (fuel : nat) (pA pB : CSet) (i : Z) : option bool :=
  match fuel with
  | O => None
  | S fuel' =>
      if decide (i < Usage pA) then
        x ← load (Data pA) i;
        y ← load (Data pB) i;
        if decide (x ≠ y) then Some false
        else Equals_loop fuel' pA pB (u32 (i + 1))
      else Some true
  end.

Definition CSet_Equals (pA pB : CSet) : option bool :=
  if decide (Usage pA ≠ Usage pB) then Some false
  else Equals_loop (S (Z.to_nat (Usage pA))) pA pB 0.

(** ** CSet_isSubsetOf *)

Fixpoint isSubsetOf_loop (fuel : nat) (pA pB : CSet) (a b : Z) : option bool :=
  match fuel with
  | O => None
  | S fuel' =>
      if decide (a < Usage pA ∧ b < Usage pB) then
        x ← load (Data pA) a;
        y ← load (Data pB) b;
        if decide (x > y) then
          if decide (b = u32 (Usage pB - 1)) then Some false
          else isSubsetOf_loop fuel' pA pB (u32 (a + 1)) b
        else if decide (x = y) then
          isSubsetOf_loop fuel' pA pB (u32 (a + 1)) (u32 (b + 1))
        else Some false
      else Some (negb (bool_decide (a < Usage pA)))
  end.

Definition CSet_isSubsetOf (pA pB : CSet) : option bool :=
  if decide (Usage pA > Usage pB) then Some false
  else isSubsetOf_loop (S (Z.to_nat (Usage pA))) pA pB 0 0.

(** ** Introspection *)

Definition CSet_Capacity (pSet : CSet) : Z := Capacity pSet.
Definition CSet_Usage (pSet : CSet) : Z := Usage pSet.
Definition CSet_isEmpty (pSet : CSet) : bool := bool_decide (Usage pSet = 0).

(** ** Operations with an output object

    [CSet_Intersection], [CSet_SymDifference] and [CSet_Copy] receive
    several pointers, which may be equal.  They run on a store that maps
    the address of each live [CSet] object to its contents; dereferencing
    an address that holds no object is undefined.  A field assignment
    [p->f = v] is an [alter] at [p]. *)

Abbreviation store_of_sets := (gmap nat CSet).

Definition set_Usage (h : store_of_sets) (p : nat) (v : Z) : store_of_sets :=
  alter (λ s, mkCSet (Capacity s) v (Data s)) p h.
Definition set_Capacity (h : store_of_sets) (p : nat) (v : Z) : store_of_sets :=
  alter (λ s, mkCSet v (Usage s) (Data s)) p h.
Definition set_Data (h : store_of_sets) (p : nat) (v : buffer) : store_of_sets :=
  alter (λ s, mkCSet (Capacity s) (Usage s) v) p h.

(** The merge loop of [CSet_Intersection].  It writes to the new block
    only, so the objects behind [pA] and [pB] are the same at every
    iteration. *)
Fixpoint Intersection_loop (fuel : nat) (A B : CSet) (data : buffer) (i a b : Z)
  : option (buffer * Z) :=
  match fuel with
  | O => None
  | S fuel' =>
      if decide (a < Usage A ∧ b < Usage B) then
        x ← load (Data A) a;
        y ← load (Data B) b;
        if decide (x < y) then Intersection_loop fuel' A B data i (u32 (a + 1)) b
        else if decide (x > y) then Intersection_loop fuel' A B data i a (u32 (b + 1))
        else
          data' ← store data i x;
          Intersection_loop fuel' A B data' (u32 (i + 1)) (u32 (a + 1)) b
      else Some (data, i)
  end.

Definition CSet_Intersection (ok : bool) (h : store_of_sets)
    (pIntersection pA pB : nat) : option (bool * store_of_sets) :=
  A ← h !! pA;
  B ← h !! pB;
  let capacity := if decide (Capacity A > Capacity B) then Capacity B else Capacity A in
  match malloc ok capacity with
  | NULL => Some (false, h)
  | data =>
      '(data1, i) ← Intersection_loop (S (Z.to_nat (Usage A) + Z.to_nat (Usage B)))
                      A B data 0 0 0;
      _ ← h !! pIntersection;
      let h1 := set_Usage h pIntersection i in
      data2 ← fill_loop (S (Z.to_nat capacity)) data1 i capacity;
      let h2 := set_Data h1 pIntersection data2 in
      let h3 := set_Capacity h2 pIntersection capacity in
      Some (true, h3)
  end.

(** The merge loop of [CSet_SymDifference]. *)
Fixpoint SymDifference_loop (fuel : nat) (A B : CSet) (data : buffer) (i a b : Z)
  : option (buffer * Z) :=
  match fuel with
  | O => None
  | S fuel' =>
      if decide (a < Usage A ∨ b < Usage B) then
        if decide (a < Usage A ∧ b < Usage B) then
          x ← load (Data A) a;
          y ← load (Data B) b;
          if decide (x = y) then
            SymDifference_loop fuel' A B data i (u32 (a + 1)) (u32 (b + 1))
          else if decide (x < y) then
            data' ← store data i x;
            SymDifference_loop fuel' A B data' (u32 (i + 1)) (u32 (a + 1)) b
          else
            data' ← store data i y;
            SymDifference_loop fuel' A B data' (u32 (i + 1)) a (u32 (b + 1))
        else if decide (a < Usage A) then
          x ← load (Data A) a;
          data' ← store data i x;
          SymDifference_loop fuel' A B data' (u32 (i + 1)) (u32 (a + 1)) b
        else
          y ← load (Data B) b;
          data' ← store data i y;
          SymDifference_loop fuel' A B data' (u32 (i + 1)) a (u32 (b + 1))
      else Some (data, i)
  end.

Definition CSet_SymDifference (ok : bool) (h : store_of_sets)
    (pSym pA pB : nat) : option (bool * store_of_sets) :=
  A ← h !! pA;
  B ← h !! pB;
  let capacity := u32 (Capacity A + Capacity B) in
  match malloc ok capacity with
  | NULL => Some (false, h)
  | data =>
      '(data1, i) ← SymDifference_loop (S (Z.to_nat (Usage A) + Z.to_nat (Usage B)))
                      A B data 0 0 0;
      _ ← h !! pSym;
      let h1 := set_Usage h pSym i in
      data2 ← fill_loop (S (Z.to_nat capacity)) data1 i capacity;
      let h2 := set_Data h1 pSym data2 in
      let h3 := set_Capacity h2 pSym capacity in
      Some (true, h3)
  end.

(** [for (i = 0; i < pSource->Capacity; i++) pTarget->Data[i] = pSource->Data[i];] *)
Fixpoint Copy_loop (fuel : nat) (source : CSet) (data : buffer) (i : Z) : option buffer :=
  match fuel with
  | O => None
  | S fuel' =>
      if decide (i < Capacity source) then
        x ← load (Data source) i;
        data' ← store data i x;
        Copy_loop fuel' source data' (u32 (i + 1))
      else Some data
  end.

Definition CSet_Copy (ok : bool) (h : store_of_sets) (pTarget pSource : nat)
  : option (bool * store_of_sets) :=
  if decide (pTarget = pSource) then Some (true, h)
  else
    Target ← h !! pTarget;
    Source ← h !! pSource;
    let initialData := match Data Target with NULL => NULL | d => d end in
    let h1 := set_Data h pTarget (malloc ok (Capacity Source)) in
    Target1 ← h1 !! pTarget;
    match Data Target1 with
    | NULL => Some (false, set_Data h1 pTarget initialData)
    | data =>
        data' ← Copy_loop (S (Z.to_nat (Capacity Source))) Source data 0;
        let h2 := set_Data h1 pTarget data' in
        let h3 := set_Usage h2 pTarget (Usage Source) in
        let h4 := set_Capacity h3 pTarget (Capacity Source) in
        Some (true, h4)
    end.

(** * Specification vocabulary *)

Definition cells (p : buffer) : list Z :=
  match p with
  | NULL => []
  | Block d => d
  end.

(** [Data[0 : Usage-1]], the values stored in the set. *)
Definition members (s : CSet) : list Z :=
  take (Z.to_nat (Usage s)) (cells (Data s)).

(** [Data[Usage : Capacity-1]], the logically empty cells. *)
Definition filler (s : CSet) : list Z :=
  drop (Z.to_nat (Usage s)) (cells (Data s)).

(** The four conditions of the header comment of [samt5.c], with the order
    that [CSet_Contains] and [CSet_Equals] rely on (ascending, hence without
    duplicates) and the ranges of the field types.  The stored values are
    arbitrary integers, so what is proved of proper sets holds in
    particular of those whose values fit in [int32_t]. *)
Definition proper (s : CSet) : Prop :=
  (0 ≤ Usage s ≤ Capacity s ∧ Capacity s ≤ UINT32_MAX) ∧
  (Capacity s = 0 ↔ Data s = NULL) ∧
  Z.of_nat (length (cells (Data s))) = Capacity s ∧
  StronglySorted Z.lt (members s) ∧
  Forall (λ x, x = INT32_MIN) (filler s).

#[global] Instance proper_dec s : Decision (proper s).
Proof. unfold proper. apply _. Defined.

(** Strict ascent, read through indices. *)
Definition ascending (l : list Z) : Prop :=
  ∀ (i j : nat) x y, l !! i = Some x → l !! j = Some y → (i < j)%nat → x < y.

(** ** Sequences of calls *)

Inductive call : Type :=
  | call_Insert (Value : Z)
  | call_Remove (Value : Z).

(** One call on a set, every allocation succeeding. *)
Definition run_call (s : CSet) (c : call) : option (bool * CSet) :=
  match c with
  | call_Insert v => CSet_Insert true s v
  | call_Remove v => CSet_Remove s v
  end.

(** The calls [cs] in order, with the value each one returned. *)
Fixpoint run_calls (cs : list call) (s : CSet) : option (list bool * CSet) :=
  match cs with
  | [] => Some ([], s)
  | c :: cs' =>
      '(b, s') ← run_call s c;
      '(bs, s'') ← run_calls cs' s';
      Some (b :: bs, s'')
  end.

(** A raw object after a successful [CSet_Init(&set, Sz)]. *)
Definition initialized (Sz : Z) : option CSet :=
  '(_, p) ← CSet_Init true (Some (mkCSet 0 0 NULL)) Sz; p.

(** ** States that the operations produce *)

(** [CSet_Remove]: contents of the block after the left shift, the stored
    values without the one at index [k], then the cells from the old last
    value on. *)
Definition shifted (k : nat) (s : CSet) : list Z :=
  delete k (members s) ++ drop (Z.to_nat (Usage s) - 1) (cells (Data s)).

(** [CSet_Remove]: the set without the value at index [k]. *)
Definition removed (k : nat) (s : CSet) : CSet :=
  mkCSet (Capacity s) (Usage s - 1)
         (Block (delete k (members s) ++ INT32_MIN :: filler s)).

(** [CSet_Insert], growth path: the set with [v] after the stored values, in
    a block of twice the capacity. *)
Definition appended (s : CSet) (v : Z) : CSet :=
  mkCSet (2 * Capacity s) (Usage s + 1)
         (Block (members s ++ v ::
                 replicate (Z.to_nat (2 * Capacity s - Usage s - 1)) INT32_MIN)).

(** [CSet_Insert], in-place path: the set with [v] written at index [i] and
    the cells from [i] on moved one place to the right. *)
Definition inserted (i : nat) (s : CSet) (v : Z) : CSet :=
  mkCSet (Capacity s) (Usage s + 1)
         (Block (take i (cells (Data s)) ++
                 v :: drop i (take (S (Z.to_nat (Usage s))) (cells (Data s))) ++
                 drop (S (S (Z.to_nat (Usage s)))) (cells (Data s)))).

(** [CSet_Intersection]: the values of [a] that [b] stores too, in the order
    of [a], and the output object for the operands [a] and [b]. *)
Definition common (a b : CSet) : list Z :=
  filter (λ x, x ∈ members b) (members a).

Definition intersection_of (a b : CSet) : CSet :=
  mkCSet (Z.min (Capacity a) (Capacity b))
         (Z.of_nat (length (common a b)))
         (Block (common a b ++
                 replicate (Z.to_nat (Z.min (Capacity a) (Capacity b)) - length (common a b))
                           INT32_MIN)).

(** [CSet_SymDifference]: the values of [l] that [k] lacks, in the order of
    [l]; the invariant of the merge, where [out] is what has been written
    once [a] values of [la] and [b] values of [lb] are consumed; and the
    output object when the merge wrote [out]. *)
Definition only_in (l k : list Z) : list Z := filter (λ x, x ∉ k) l.

Definition merge_inv (la lb : list Z) (a b : nat) (out : list Z) : Prop :=
  length out = (length (only_in (take a la) lb) + length (only_in (take b lb) la))%nat ∧
  ascending out ∧
  (∀ x, x ∈ out ↔ (x ∈ take a la ∧ x ∉ lb) ∨ (x ∈ take b lb ∧ x ∉ la)) ∧
  (∀ (ka kb : nat) xa xb,
     (a ≤ ka)%nat → (kb < b)%nat → la !! ka = Some xa → lb !! kb = Some xb → xb < xa) ∧
  (∀ (ka kb : nat) xa xb,
     (ka < a)%nat → (b ≤ kb)%nat → la !! ka = Some xa → lb !! kb = Some xb → xa < xb).

Definition difference_with (a b : CSet) (out : list Z) : CSet :=
  mkCSet (Capacity a + Capacity b) (Z.of_nat (length out))
         (Block (out ++ replicate (Z.to_nat (Capacity a + Capacity b) - length out)
                                  INT32_MIN)).

(** ** Particular sets *)

(** The set holding [first, first+1, ..., first+count-1] in a block of
    [capacity] cells. *)
Definition range_set (first count capacity : Z) : CSet :=
  mkCSet capacity count
         (Block (seqZ first count ++ replicate (Z.to_nat (capacity - count)) INT32_MIN)).

(** 2^31 + 1 values: -2147483647, ..., 0, 1. *)
Definition large_set : CSet := range_set (-2147483647) 2147483649 3221225472.

(** 2^31 values: 0, 1, ..., INT32_MAX. *)
Definition full_range_set : CSet := range_set 0 2147483648 3221225472.

Definition empty_set : CSet := mkCSet 0 0 NULL.
Definition set_3 : CSet := mkCSet 2 1 (Block [3; INT32_MIN]).
Definition set_1_2 : CSet := mkCSet 3 2 (Block [1; 2; INT32_MIN]).
Definition set_5 : CSet := mkCSet 2 1 (Block [5; INT32_MIN]).
Definition set_5_5 : CSet := mkCSet 4 2 (Block [5; 5; INT32_MIN; INT32_MIN]).
Definition set_1_3_5 : CSet := mkCSet 4 3 (Block [1; 3; 5; INT32_MIN]).
Definition set_1_3_4_4 : CSet :=
  mkCSet 8 4 (Block [1; 3; 4; 4; INT32_MIN; INT32_MIN; INT32_MIN; INT32_MIN]).

(** A capacity of zero with a non-null [Data]: what a successful
    [malloc(0)] leaves in an output object. *)
Definition zero_block_set : CSet := mkCSet 0 0 (Block []).

(** Three objects at the addresses 0, 1 and 2. *)
Definition three_sets (s0 s1 s2 : CSet) : gmap nat CSet :=
  <[0%nat := s0]> (<[1%nat := s1]> (<[2%nat := s2]> ∅)).

(** ** Further states, reference semantics and particular sets *)

(** [CSet_Init]: the object that a successful call leaves behind [pSet]. *)
Definition fresh (Sz : Z) : CSet :=
  mkCSet Sz 0 (if decide (Sz = 0) then NULL else Block (replicate (Z.to_nat Sz) INT32_MIN)).

(** [CSet_Insert], growth path: the copy loop keeps the stored values
    smaller than [v] and writes [v] into every cell that follows, up to
    index [Usage]. *)
Definition grown (s : CSet) (v : Z) : CSet :=
  let below := filter (λ x, x < v) (members s) in
  mkCSet (2 * Capacity s) (Usage s + 1)
         (Block (below ++ replicate (S (length (members s)) - length below) v ++
                 replicate (Z.to_nat (2 * Capacity s - Usage s - 1)) INT32_MIN)).

(** Reference semantics.

    What a call does to the mathematical set of the stored values, and the
    value it returns: [CSet_Insert] answers whether the value was new,
    [CSet_Remove] whether it was present. *)
Definition abstract_call (m : gset Z) (c : call) : bool * gset Z :=
  match c with
  | call_Insert v => (bool_decide (v ∉ m), {[v]} ∪ m)
  | call_Remove v => (bool_decide (v ∈ m), m ∖ {[v]})
  end.

Fixpoint abstract_calls (cs : list call) (m : gset Z) : list bool * gset Z :=
  match cs with
  | [] => ([], m)
  | c :: cs' =>
      let '(b, m') := abstract_call m c in
      let '(bs, m'') := abstract_calls cs' m' in
      (b :: bs, m'')
  end.

(** The mathematical set of the values a [CSet] stores. *)
Definition contents (s : CSet) : gset Z := list_to_set (members s).

Definition set_1_5 : CSet := mkCSet 4 2 (Block [1; 5; INT32_MIN; INT32_MIN]).

(** 2^31 - 1 values in a block of 2^31 cells: a set on which
    [CSet_Insert] has to grow a capacity of 2^31. *)
Definition half_range_set : CSet := range_set 0 2147483647 2147483648.

(** * Auxiliary facts *)

Lemma u32_id x : 0 ≤ x ≤ UINT32_MAX → u32 x = x.
Proof. unfold u32, UINT32_MAX. intros. apply Z.mod_small. lia. Qed.

Lemma i32_id x : INT32_MIN ≤ x ≤ INT32_MAX → i32 x = x.
Proof.
  unfold i32, INT32_MIN, INT32_MAX. intros.
  rewrite Z.mod_small; lia.
Qed.

Lemma load_Block d i x :
  load (Block d) i = Some x ↔ 0 ≤ i ∧ d !! Z.to_nat i = Some x.
Proof.
  unfold load. destruct (decide (0 ≤ i)) as [Hi|Hi]; split.
  - by intros ->.
  - by intros [_ ->].
  - done.
  - by intros [? _].
Qed.

Lemma load_nat d (k : nat) : load (Block d) (Z.of_nat k) = d !! k.
Proof. unfold load. rewrite decide_True by lia. by rewrite Nat2Z.id. Qed.

Lemma store_nat d (k : nat) v :
  (k < length d)%nat →
  store (Block d) (Z.of_nat k) v = Some (Block (<[k := v]> d)).
Proof. intros. unfold store. rewrite decide_True by lia. by rewrite Nat2Z.id. Qed.

Lemma StronglySorted_ascending l : StronglySorted Z.lt l ↔ ascending l.
Proof.
  split.
  - induction 1 as [|x l Hs IH Hx]; intros i j a b Hi Hj Hij.
    + by rewrite lookup_nil in Hi.
    + destruct j as [|j]; [lia|]. simpl in Hj.
      destruct i as [|i]; simpl in Hi.
      * simplify_eq. rewrite Forall_forall in Hx. apply Hx.
        by eapply list_elem_of_lookup_2.
      * eapply IH; eauto. lia.
  - induction l as [|x l IH]; intros Ha; constructor.
    + apply IH. intros i j a b Hi Hj Hij. apply (Ha (S i) (S j)); auto. lia.
    + apply Forall_forall. intros y [k Hk]%list_elem_of_lookup_1.
      apply (Ha 0%nat (S k)); auto. lia.
Qed.

Lemma ascending_inj l i j x :
  ascending l → l !! i = Some x → l !! j = Some x → i = j.
Proof.
  intros Ha Hi Hj. destruct (Nat.lt_trichotomy i j) as [H|[H|H]]; [|done|].
  - pose proof (Ha _ _ _ _ Hi Hj H). lia.
  - pose proof (Ha _ _ _ _ Hj Hi H). lia.
Qed.

Lemma proper_ascending s : proper s → ascending (members s).
Proof. intros (_ & _ & _ & Hs & _). by apply StronglySorted_ascending. Qed.

Lemma proper_Block s :
  proper s → 0 < Capacity s → ∃ d, Data s = Block d ∧ Z.of_nat (length d) = Capacity s.
Proof.
  intros (Hb & Hn & Hl & _) Hc. destruct (Data s) as [|d] eqn:E.
  - assert (Capacity s = 0) by (by apply Hn). lia.
  - exists d. by split.
Qed.


(** * CSet_Contains *)

Lemma half_bounds lo hi :
  0 ≤ lo → lo ≤ hi → hi < 1073741824 →
  Z.quot (i32 (lo + hi)) 2 = (lo + hi) / 2 ∧ lo ≤ (lo + hi) / 2 ≤ hi.
Proof.
  intros. rewrite i32_id by (unfold INT32_MIN, INT32_MAX; lia).
  rewrite Z.quot_div_nonneg by lia. split; [done|].
  split; [apply Z.div_le_lower_bound | apply Z.div_le_upper_bound]; lia.
Qed.

Lemma Contains_loop_correct d v (n : Z) :
  ascending (take (Z.to_nat n) d) →
  n ≤ Z.of_nat (length d) → n ≤ 1073741824 →
  ∀ fuel lo hi,
    0 ≤ lo → hi < n → lo ≤ hi + 1 →
    hi - lo + 1 < Z.of_nat fuel →
    (∀ k : nat, d !! k = Some v → Z.of_nat k < n → lo ≤ Z.of_nat k ≤ hi) →
    Contains_loop fuel (Block d) v lo hi (Z.quot (i32 (lo + hi)) 2)
    = Some (bool_decide (v ∈ take (Z.to_nat n) d)).
Proof.
  intros Hasc Hlen Hn. induction fuel as [|fuel IH]; intros lo hi Hlo Hhi Hle Hfuel Hwin.
  { lia. }
  simpl. destruct (decide (lo ≤ hi)) as [Hc|Hc].
  - destruct (half_bounds lo hi) as [-> Hmid]; [lia..|].
    set (mid := (lo + hi) / 2) in *.
    assert (is_Some (d !! Z.to_nat mid)) as [x Hx] by (apply lookup_lt_is_Some; lia).
    assert (load (Block d) mid = Some x) as -> by (apply load_Block; split; [lia|done]).
    simpl.
    assert (Hxe : take (Z.to_nat n) d !! Z.to_nat mid = Some x)
      by (rewrite lookup_take_lt by lia; done).
    destruct (decide (x = v)) as [Hv|Hv].
    + subst x. f_equal. symmetry. apply bool_decide_eq_true.
      by eapply list_elem_of_lookup_2.
    + assert (Hmono : ∀ k : nat, d !! k = Some v → Z.of_nat k < n →
                (x > v → Z.of_nat k < mid) ∧ (x < v → mid < Z.of_nat k)).
      { intros k Hk Hkn.
        assert (Hke : take (Z.to_nat n) d !! k = Some v)
          by (rewrite lookup_take_lt by lia; done).
        destruct (Z.lt_trichotomy (Z.of_nat k) mid) as [?|[?|?]].
        - split; [done|]. intros.
          pose proof (Hasc k (Z.to_nat mid) v x Hke Hxe). lia.
        - replace (Z.to_nat mid) with k in Hx by lia. congruence.
        - split; [|done]. intros.
          pose proof (Hasc (Z.to_nat mid) k x v Hxe Hke). lia. }
      destruct (decide (x > v)) as [Hgt|Hgt].
      * rewrite (i32_id (mid - 1)) by (unfold INT32_MIN, INT32_MAX; lia).
        apply IH; [lia..|].
        intros k Hk Hkn. specialize (Hwin k Hk Hkn).
        destruct (Hmono k Hk Hkn) as [? _]. lia.
      * rewrite decide_True by lia.
        rewrite (i32_id (mid + 1)) by (unfold INT32_MIN, INT32_MAX; lia).
        apply IH; [lia..|].
        intros k Hk Hkn. specialize (Hwin k Hk Hkn).
        destruct (Hmono k Hk Hkn) as [_ ?]. lia.
  - f_equal. symmetry. apply bool_decide_eq_false.
    intros (k & Hk & Hkn)%elem_of_take. specialize (Hwin k Hk). lia.
Qed.

Lemma CSet_Contains_spec s v :
  proper s → Usage s ≤ 1073741824 →
  CSet_Contains s v = Some (bool_decide (v ∈ members s)).
Proof.
  intros Hp Hn. pose proof (proper_ascending s Hp) as Hasc.
  pose proof Hp as ((Hu & Hc) & Hnull & Hlen & _ & _).
  unfold CSet_Contains. case_decide as Hz.
  - f_equal. symmetry. apply bool_decide_eq_false.
    unfold members. rewrite Hz. simpl. apply not_elem_of_nil.
  - destruct (proper_Block s Hp) as (d & Hd & Hdl); [lia|].
    unfold members in *. rewrite Hd in *. cbn [cells] in *.
    rewrite (u32_id (Usage s - 1)) by (unfold UINT32_MAX in *; lia).
    rewrite (i32_id (Usage s - 1)) by (unfold INT32_MIN, INT32_MAX; lia).
    apply (Contains_loop_correct d v (Usage s)); auto; try lia.
Qed.

(** * CSet_Remove *)

Lemma u32_succ (i : nat) : Z.of_nat i < UINT32_MAX → u32 (Z.of_nat i + 1) = Z.of_nat (S i).
Proof. intros. rewrite u32_id by lia. lia. Qed.

Lemma Remove_scan_found d usage v (k : nat) :
  d !! k = Some v → Z.of_nat k < usage → usage ≤ UINT32_MAX →
  (∀ j : nat, (j < k)%nat → d !! j ≠ Some v) →
  ∀ fuel (i : nat), (i ≤ k)%nat → (k - i < fuel)%nat →
    Remove_scan fuel (Block d) usage v (Z.of_nat i) = Some (true, Z.of_nat k).
Proof.
  intros Hk Hku Hu Hfirst. induction fuel as [|fuel IH]; intros i Hik Hfuel; [lia|].
  cbn [Remove_scan]. rewrite decide_True by lia. rewrite load_nat.
  destruct (decide (i = k)) as [->|Hne].
  - rewrite Hk. simpl. by rewrite decide_True.
  - assert (is_Some (d !! i)) as [x Hx].
    { apply lookup_lt_is_Some. apply lookup_lt_Some in Hk. lia. }
    rewrite Hx. simpl. rewrite decide_False.
    + rewrite u32_succ by lia. apply IH; lia.
    + intros ->. apply (Hfirst i); [lia|done].
Qed.

Lemma Remove_scan_absent p usage v :
  (∀ j : nat, Z.of_nat j < usage → ∃ x, load p (Z.of_nat j) = Some x ∧ x ≠ v) →
  usage ≤ UINT32_MAX →
  ∀ fuel (i : nat), Z.of_nat i ≤ usage → usage - Z.of_nat i < Z.of_nat fuel →
    Remove_scan fuel p usage v (Z.of_nat i) = Some (false, usage).
Proof.
  intros Habs Hu. induction fuel as [|fuel IH]; intros i Hi Hfuel; [lia|].
  cbn [Remove_scan]. destruct (decide (Z.of_nat i < usage)) as [Hlt|Hge].
  - destruct (Habs i Hlt) as (x & -> & Hx). simpl.
    rewrite decide_False by done. rewrite u32_succ by lia. apply IH; lia.
  - do 2 f_equal. lia.
Qed.

Lemma Remove_shift_spec d (n : nat) :
  (2 ≤ n)%nat → (n ≤ length d)%nat → Z.of_nat n ≤ UINT32_MAX →
  ∀ fuel (i : nat) d0, length d0 = length d → (i < n)%nat → (n - i ≤ fuel)%nat →
    drop i d0 = drop i d →
    Remove_shift fuel (Block d0) (Z.of_nat n) (Z.of_nat i)
    = Some (Block (take i d0 ++ drop (S i) (take n d) ++ drop (n - 1) d)).
Proof.
  intros Hn Hlen Hu.
  assert (Hn2 : u32 (Z.of_nat n - 2) = Z.of_nat (n - 2)).
  { rewrite u32_id; lia. }
  induction fuel as [|fuel IH]; intros i d0 Hl0 Hi Hfuel Hdrop; [lia|].
  cbn [Remove_shift]. rewrite Hn2.
  assert (HdropS : drop (S i) d0 = drop (S i) d).
  { replace (S i) with (i + 1)%nat by lia. rewrite <- !drop_drop. by rewrite Hdrop. }
  destruct (decide (Z.of_nat i ≤ Z.of_nat (n - 2)%nat)) as [Hlt|Hge].
  - rewrite u32_succ by lia. rewrite load_nat.
    assert (is_Some (d !! S i)) as [x Hx] by (apply lookup_lt_is_Some; lia).
    assert (Hx0 : d0 !! S i = Some x).
    { rewrite <- (Nat.add_0_r (S i)), <- lookup_drop, HdropS, lookup_drop.
      by rewrite Nat.add_0_r. }
    rewrite Hx0. cbn [mbind option_bind]. rewrite store_nat by lia.
    cbn [mbind option_bind].
    rewrite IH; [|by rewrite length_insert|lia|lia|].
    + do 2 f_equal.
      rewrite (take_S_r _ i x) by (apply list_lookup_insert_eq; lia).
      rewrite take_insert_ge by lia. rewrite <- app_assoc. f_equal.
      rewrite (drop_S (take n d) x (S i)); [done|].
      by rewrite lookup_take_lt by lia.
    + rewrite drop_insert_lt by lia. done.
  - assert (i = (n - 1)%nat) as -> by lia.
    do 2 f_equal. rewrite (drop_ge (take n d)) by (rewrite length_take; lia).
    simpl. rewrite <- Hdrop. by rewrite take_drop.
Qed.

Lemma ascending_delete l k : ascending l → ascending (delete k l).
Proof.
  intros Ha i j x y. rewrite !list_lookup_delete. intros Hi Hj Hij.
  eapply Ha; eauto. repeat case_decide; lia.
Qed.

Lemma ascending_not_elem_delete l k v :
  ascending l → l !! k = Some v → v ∉ delete k l.
Proof.
  intros Ha Hk [j Hj]%list_elem_of_lookup_1. rewrite list_lookup_delete in Hj.
  pose proof (ascending_inj _ _ _ _ Ha Hk Hj). case_decide; lia.
Qed.

Lemma Remove_scan_absent_all s v :
  0 ≤ Usage s ≤ UINT32_MAX →
  (Z.to_nat (Usage s) ≤ length (cells (Data s)))%nat →
  v ∉ members s →
  Remove_scan (S (Z.to_nat (Usage s))) (Data s) (Usage s) v 0 = Some (false, Usage s).
Proof.
  intros Hu Hlen Hv.
  apply (Remove_scan_absent (Data s) (Usage s) v) with (i := 0%nat); [|lia..].
  intros j Hj.
  assert (is_Some (cells (Data s) !! j)) as [x Hx] by (apply lookup_lt_is_Some; lia).
  exists x. split.
  - destruct (Data s); [done|]. by rewrite load_nat.
  - intros ->. apply Hv. apply elem_of_take. exists j. split; [done|lia].
Qed.

Lemma CSet_Remove_rec_absent s v depth :
  0 ≤ Usage s ≤ UINT32_MAX →
  (Z.to_nat (Usage s) ≤ length (cells (Data s)))%nat →
  v ∉ members s →
  CSet_Remove_rec (S depth) s v = Some (false, s).
Proof.
  intros Hu Hlen Hv. cbn [CSet_Remove_rec].
  by rewrite Remove_scan_absent_all.
Qed.

Lemma removed_delete_last d (n : nat) :
  (0 < n ≤ length d)%nat →
  delete (n - 1)%nat (take n d) ++ INT32_MIN :: drop n d = <[(n - 1)%nat := INT32_MIN]> d.
Proof.
  intros Hn. rewrite delete_take_drop, take_take.
  rewrite (drop_ge (take n d)) by (rewrite length_take; lia).
  rewrite app_nil_r. rewrite insert_take_drop by lia.
  rewrite Nat.min_l by lia.
  by replace (S (n - 1)) with n by lia.
Qed.

Section Remove_proper.
Context (s : CSet) (v : Z) (k : nat).
Hypothesis Hp : proper s.
Hypothesis Hk : members s !! k = Some v.

Let n := Z.to_nat (Usage s).

Lemma found_index_bounds :
  (k < n)%nat ∧ (n ≤ length (cells (Data s)))%nat ∧ Usage s = Z.of_nat n ∧
  Z.of_nat n ≤ UINT32_MAX ∧ ∃ d, Data s = Block d.
Proof using Hp Hk.
  pose proof Hp as ((Hu & Hc) & Hnull & Hlen & _ & _).
  pose proof (lookup_lt_Some _ _ _ Hk) as Hkn.
  unfold members in Hkn. rewrite length_take in Hkn.
  destruct (proper_Block s Hp) as (d & Hd & Hdl); [lia|].
  subst n. repeat split; try lia. by exists d.
Qed.

Lemma Remove_scan_proper :
  Remove_scan (S n) (Data s) (Usage s) v 0 = Some (true, Z.of_nat k).
Proof using Hp Hk.
  destruct found_index_bounds as (Hkn & Hlen & Hun & Hmax & d & Hd).
  pose proof (proper_ascending s Hp) as Hasc.
  unfold members in *. rewrite Hd in *. cbn [cells] in *. fold n in Hk, Hasc.
  apply (Remove_scan_found d (Usage s) v k) with (i := 0%nat); [|lia|lia| |lia|lia].
  - by rewrite lookup_take_lt in Hk by lia.
  - intros j Hj Hdj.
    assert (take n d !! j = Some v) as Hj' by (rewrite lookup_take_lt by lia; done).
    pose proof (ascending_inj _ _ _ _ Hasc Hk Hj'). lia.
Qed.

Lemma Remove_shift_proper :
  k ≠ (n - 1)%nat →
  Remove_shift (S n) (Data s) (Usage s) (Z.of_nat k) = Some (Block (shifted k s)).
Proof using Hp Hk.
  intros Hne. destruct found_index_bounds as (Hkn & Hlen & Hun & Hmax & d & Hd).
  unfold shifted, members. rewrite Hd in *. cbn [cells] in *. fold n. rewrite Hun.
  rewrite (Remove_shift_spec d n); [|lia..|done].
  rewrite delete_take_drop, take_take, Nat.min_l by lia.
  by rewrite <- app_assoc.
Qed.

Lemma shifted_length : k ≠ (n - 1)%nat → length (shifted k s) = length (cells (Data s)).
Proof using Hp Hk.
  intros Hne. destruct found_index_bounds as (Hkn & Hlen & Hun & Hmax & d & Hd).
  unfold shifted. rewrite length_app, length_delete, length_drop by eauto.
  unfold members. rewrite length_take. fold n. lia.
Qed.

Lemma shifted_take : take (n - 1) (shifted k s) = delete k (members s).
Proof using Hp Hk.
  destruct found_index_bounds as (Hkn & Hlen & Hun & Hmax & d & Hd).
  unfold shifted. rewrite take_app_length'; [done|].
  rewrite length_delete by eauto. unfold members. rewrite length_take. fold n. lia.
Qed.

(** The call that [CSet_Remove] makes to itself after the shift. *)
Lemma nested_call_absent depth :
  k ≠ (n - 1)%nat →
  CSet_Remove_rec (S depth) (mkCSet (Capacity s) (Usage s - 1) (Block (shifted k s))) v
  = Some (false, mkCSet (Capacity s) (Usage s - 1) (Block (shifted k s))).
Proof using Hp Hk.
  intros Hne. destruct found_index_bounds as (Hkn & Hlen & Hun & Hmax & d & Hd).
  apply CSet_Remove_rec_absent; cbn [Usage Data Capacity cells].
  - lia.
  - rewrite shifted_length by done. lia.
  - unfold members at 1. cbn [Usage Data cells].
    replace (Z.to_nat (Usage s - 1)) with (n - 1)%nat by lia.
    rewrite shifted_take. apply ascending_not_elem_delete; [|done].
    by apply proper_ascending.
Qed.

Lemma shifted_insert :
  k ≠ (n - 1)%nat →
  <[(n - 1)%nat := INT32_MIN]> (shifted k s)
  = delete k (members s) ++ INT32_MIN :: filler s.
Proof using Hp Hk.
  intros Hne. destruct found_index_bounds as (Hkn & Hlen & Hun & Hmax & d & Hd).
  unfold shifted, filler. fold n.
  assert (Hl : length (delete k (members s)) = (n - 1)%nat).
  { rewrite length_delete by eauto. unfold members. rewrite length_take. fold n. lia. }
  rewrite insert_app_r_alt by lia. rewrite Hl, Nat.sub_diag. f_equal.
  assert (is_Some (cells (Data s) !! (n - 1)%nat)) as [y Hy]
    by (apply lookup_lt_is_Some; lia).
  rewrite (drop_S _ y (n - 1)) by done. simpl.
  by replace (S (n - 1)) with n by lia.
Qed.

Lemma CSet_Remove_rec_found depth :
  CSet_Remove_rec (S (S depth)) s v = Some (true, removed k s).
Proof using Hp Hk.
  destruct found_index_bounds as (Hkn & Hlen & Hun & Hmax & d & Hd).
  remember (S depth) as depth1 eqn:Hdepth. cbn [CSet_Remove_rec]. fold n.
  rewrite Remove_scan_proper. cbn [mbind option_bind andb].
  rewrite (u32_id (Usage s - 1)) by lia.
  destruct (decide (k = (n - 1)%nat)) as [Hlast|Hne].
  - rewrite bool_decide_eq_true_2 by lia. rewrite Hd.
    rewrite store_nat by (rewrite Hd in Hlen; simpl in Hlen; lia).
    cbn [mbind option_bind]. unfold removed, members, filler. rewrite Hd.
    cbn [cells]. fold n. subst k.
    rewrite removed_delete_last; [done|]. rewrite Hd in Hlen. simpl in Hlen. lia.
  - rewrite bool_decide_eq_false_2 by lia.
    rewrite Remove_shift_proper by done. cbn [mbind option_bind].
    subst depth1. rewrite nested_call_absent by done.
    cbn [mbind option_bind Usage Data Capacity].
    replace (Usage s - 1) with (Z.of_nat (n - 1)) at 1 by lia.
    rewrite store_nat by (rewrite shifted_length by done; lia).
    cbn [mbind option_bind]. by rewrite shifted_insert.
Qed.

Lemma removed_members : members (removed k s) = delete k (members s).
Proof using Hp Hk.
  destruct found_index_bounds as (Hkn & Hlen & Hun & Hmax & d & Hd).
  unfold removed. unfold members at 1. cbn [Usage Data cells].
  rewrite take_app_length'; [done|].
  rewrite length_delete by eauto. unfold members. rewrite length_take. lia.
Qed.

Lemma removed_filler : filler (removed k s) = INT32_MIN :: filler s.
Proof using Hp Hk.
  destruct found_index_bounds as (Hkn & Hlen & Hun & Hmax & d & Hd).
  unfold removed. unfold filler at 1. cbn [Usage Data cells].
  rewrite drop_app_length'; [done|].
  rewrite length_delete by eauto. unfold members. rewrite length_take. lia.
Qed.

Lemma removed_proper : proper (removed k s).
Proof using Hp Hk.
  destruct found_index_bounds as (Hkn & Hlen & Hun & Hmax & d & Hd).
  pose proof Hp as ((Hu & Hc) & Hnull & Hl & Hs & Hf).
  unfold proper. rewrite removed_members, removed_filler.
  unfold removed. cbn [Usage Data Capacity cells].
  split; [lia|]. split; [split; [lia|done]|]. split; [|split].
  - rewrite length_app, length_delete by eauto. cbn [length].
    unfold members, filler. rewrite length_take, length_drop. lia.
  - apply StronglySorted_ascending, ascending_delete. by apply proper_ascending.
  - by constructor.
Qed.

Lemma removed_not_elem : v ∉ members (removed k s).
Proof using Hp Hk.
  rewrite removed_members. apply ascending_not_elem_delete; [|done].
  by apply proper_ascending.
Qed.
End Remove_proper.

Lemma proper_lengths s :
  proper s → 0 ≤ Usage s ≤ UINT32_MAX ∧ (Z.to_nat (Usage s) ≤ length (cells (Data s)))%nat.
Proof. intros ((Hu & Hc) & _ & Hl & _). lia. Qed.

Lemma CSet_Remove_absent s v :
  proper s → v ∉ members s → CSet_Remove s v = Some (false, s).
Proof.
  intros Hp Hv. destruct (proper_lengths s Hp). by apply CSet_Remove_rec_absent.
Qed.

Lemma CSet_Remove_found s v k :
  proper s → members s !! k = Some v → CSet_Remove s v = Some (true, removed k s).
Proof.
  intros Hp Hk. unfold CSet_Remove.
  destruct (found_index_bounds s v k Hp Hk) as (Hkn & _).
  destruct (Z.to_nat (Usage s)) as [|n]; [lia|]. by apply CSet_Remove_rec_found.
Qed.

(** X9. [CSet_Remove] on sets of at most 2^30 + 1 values, the range in which
    the index arithmetic of the later [CSet_Contains] stays within
    [int32_t]: an absent value leaves the set as it is; a present one is
    taken out, the values after it move one cell to the left, the vacated
    cell becomes filler, and [CSet_Contains] no longer finds it. *)
Theorem CSet_Remove_exact s v :
  proper s → Usage s ≤ 1073741825 →
  (v ∉ members s → CSet_Remove s v = Some (false, s)) ∧
  (v ∈ members s →
   ∃ (k : nat) s',
     members s !! k = Some v ∧
     CSet_Remove s v = Some (true, s') ∧
     Usage s' = Usage s - 1 ∧
     Capacity s' = Capacity s ∧
     CSet_Contains s' v = Some false ∧
     members s' = delete k (members s) ∧
     filler s' = INT32_MIN :: filler s ∧
     proper s').
Proof.
  intros Hp Hbound. split; [by apply CSet_Remove_absent|].
  intros [k Hk]%list_elem_of_lookup_1. exists k, (removed k s).
  pose proof (removed_proper s v k Hp Hk) as Hp'.
  split_and!; try done.
  - by apply CSet_Remove_found.
  - rewrite CSet_Contains_spec; [|done|simpl; lia].
    f_equal. apply bool_decide_eq_false. by apply removed_not_elem.
  - by eapply removed_members.
  - by eapply removed_filler.
Qed.

(** C10. For every proper set [CSet_Remove] terminates, and the call it makes
    to itself after the left shift happens at most once: two levels of
    calls always produce the result ([CSet_Remove_rec] with depth 2 returns,
    and every larger depth returns the same); the nested call, made on the
    set after the shift and the decrement of [Usage], no longer finds the
    value among the stored ones, returns false without recursing (depth 1
    is enough) and leaves that set as it found it. *)
Theorem CSet_Remove_recursion s v :
  proper s →
  (∃ r, CSet_Remove s v = Some r ∧
        ∀ depth, CSet_Remove_rec (S (S depth)) s v = Some r) ∧
  (∀ i data1,
     Remove_scan (S (Z.to_nat (Usage s))) (Data s) (Usage s) v 0 = Some (true, i) →
     i ≠ u32 (Usage s - 1) →
     Remove_shift (S (Z.to_nat (Usage s))) (Data s) (Usage s) i = Some data1 →
     let pSet1 := mkCSet (Capacity s) (u32 (Usage s - 1)) data1 in
     (v ∉ members pSet1) ∧
     (∀ depth, CSet_Remove_rec (S depth) pSet1 v = Some (false, pSet1))).
Proof.
  intros Hp. destruct (proper_lengths s Hp) as [Hu Hlen].
  destruct (decide (v ∈ members s)) as [[k Hk]%list_elem_of_lookup_1|Hv].
  - destruct (found_index_bounds s v k Hp Hk) as (Hkn & _ & Hun & _).
    split.
    + exists (true, removed k s). split; [by apply CSet_Remove_found|].
      intros depth. by apply CSet_Remove_rec_found.
    + intros i data1 Hscan Hi Hshift pSet1. subst pSet1.
      rewrite (Remove_scan_proper s v k) in Hscan by done. simplify_eq.
      rewrite (u32_id (Usage s - 1)) in * by lia.
      assert (Hne : k ≠ (Z.to_nat (Usage s) - 1)%nat) by lia.
      rewrite (Remove_shift_proper s v k) in Hshift by done. simplify_eq.
      split; [|intros depth; by apply nested_call_absent].
      unfold members. cbn [Usage Data cells].
      replace (Z.to_nat (Usage s - 1)) with (Z.to_nat (Usage s) - 1)%nat by lia.
      rewrite (shifted_take s v k) by done.
      apply ascending_not_elem_delete; [|done]. by apply proper_ascending.
  - split.
    + exists (false, s). split; [by apply CSet_Remove_absent|].
      intros depth. by apply CSet_Remove_rec_absent.
    + intros i data1 Hscan. rewrite Remove_scan_absent_all in Hscan by done. done.
Qed.

(** * CSet_Insert, growth path *)

Lemma fill_loop_spec (limit : nat) :
  Z.of_nat limit ≤ UINT32_MAX →
  ∀ fuel (i : nat) d, (limit ≤ length d)%nat → (i ≤ limit)%nat → (limit - i < fuel)%nat →
    fill_loop fuel (Block d) (Z.of_nat i) (Z.of_nat limit)
    = Some (Block (take i d ++ replicate (limit - i) INT32_MIN ++ drop limit d)).
Proof.
  intros Hmax. induction fuel as [|fuel IH]; intros i d Hlen Hi Hfuel; [lia|].
  cbn [fill_loop]. destruct (decide (Z.of_nat i < Z.of_nat limit)) as [Hlt|Hge].
  - rewrite store_nat by lia. cbn [mbind option_bind]. rewrite u32_succ by lia.
    rewrite IH by (rewrite ?length_insert; lia).
    do 2 f_equal.
    rewrite (take_S_r _ i INT32_MIN) by (apply list_lookup_insert_eq; lia).
    rewrite take_insert_ge by lia. rewrite drop_insert_lt by lia.
    rewrite <- app_assoc. f_equal.
    replace (limit - i)%nat with (S (limit - S i)) by lia. done.
  - assert (i = limit) as -> by lia. rewrite Nat.sub_diag. cbn [replicate app].
    by rewrite take_drop.
Qed.

Lemma Insert_merge_append d (n : nat) v :
  (n ≤ length d)%nat → Z.of_nat n < UINT32_MAX → Forall (λ x, x < v) (take n d) →
  ∀ fuel (i : nat) new, (n < length new)%nat → (i ≤ n)%nat → (S n - i < fuel)%nat →
    Insert_merge fuel (Block d) (Z.of_nat n) v (Block new) (Z.of_nat (S n))
                 (Z.of_nat i) (Z.of_nat i)
    = Some (Block (take i new ++ drop i (take n d) ++ v :: drop (S n) new),
            Z.of_nat (S n)).
Proof.
  intros Hlen Hmax Hless.
  induction fuel as [|fuel IH]; intros i new Hnew Hi Hfuel; [lia|].
  cbn [Insert_merge]. rewrite decide_True by lia.
  destruct (decide (Z.of_nat i < Z.of_nat n)) as [Hlt|Hge].
  - assert (is_Some (d !! i)) as [x Hx] by (apply lookup_lt_is_Some; lia).
    assert (Hxv : x < v).
    { rewrite Forall_forall in Hless. apply Hless.
      apply elem_of_take. exists i. split; [done|lia]. }
    rewrite load_nat, Hx. cbn [mbind option_bind].
    rewrite bool_decide_eq_true_2 by done.
    rewrite store_nat by lia. cbn [mbind option_bind].
    rewrite u32_succ by lia. rewrite IH by (rewrite ?length_insert; lia).
    do 3 f_equal.
    rewrite (take_S_r _ i x) by (apply list_lookup_insert_eq; lia).
    rewrite take_insert_ge by lia. rewrite drop_insert_lt by lia.
    rewrite <- app_assoc. f_equal.
    rewrite (drop_S (take n d) x i) by (rewrite lookup_take_lt by lia; done).
    done.
  - assert (i = n) as -> by lia. cbn [mbind option_bind].
    rewrite store_nat by lia. cbn [mbind option_bind]. rewrite u32_succ by lia.
    destruct fuel as [|fuel]; [lia|]. cbn [Insert_merge].
    rewrite decide_False by lia.
    rewrite (drop_ge (take n d)) by (rewrite length_take; lia).
    by rewrite insert_take_drop by lia.
Qed.

Lemma ascending_snoc l v :
  ascending l → Forall (λ x, x < v) l → ascending (l ++ [v]).
Proof.
  intros Ha Hv i j x y Hi Hj Hij.
  pose proof (lookup_lt_Some _ _ _ Hj) as Hjl. rewrite length_app in Hjl. simpl in Hjl.
  rewrite lookup_app_l in Hi by lia.
  destruct (decide (j < length l)%nat).
  - rewrite lookup_app_l in Hj by lia. eauto.
  - rewrite lookup_app_r in Hj by lia.
    replace (j - length l)%nat with 0%nat in Hj by lia. simpl in Hj. simplify_eq.
    rewrite Forall_forall in Hv. apply Hv. by eapply list_elem_of_lookup_2.
Qed.

Lemma proper_members_length s : proper s → length (members s) = Z.to_nat (Usage s).
Proof.
  intros ((Hu & Hc) & _ & Hl & _). unfold members. rewrite length_take. lia.
Qed.

Lemma appended_members s v :
  proper s → members (appended s v) = members s ++ [v].
Proof.
  intros Hp. pose proof (proper_members_length s Hp) as Hl.
  pose proof Hp as ((Hu & Hc) & _).
  unfold appended. unfold members at 1. cbn [Usage Data cells].
  rewrite (cons_middle v), app_assoc.
  rewrite take_app_length'; [done|]. rewrite length_app. simpl. lia.
Qed.

Lemma appended_filler s v :
  proper s →
  filler (appended s v) = replicate (Z.to_nat (2 * Capacity s - Usage s - 1)) INT32_MIN.
Proof.
  intros Hp. pose proof (proper_members_length s Hp) as Hl.
  pose proof Hp as ((Hu & Hc) & _).
  unfold appended. unfold filler at 1. cbn [Usage Data cells].
  rewrite (cons_middle v), app_assoc.
  rewrite drop_app_length'; [done|]. rewrite length_app. simpl. lia.
Qed.

Lemma appended_proper s v :
  proper s → 0 < Capacity s → 2 * Capacity s ≤ UINT32_MAX →
  Forall (λ x, x < v) (members s) → proper (appended s v).
Proof.
  intros Hp Hpos Hmax Hv. pose proof (proper_members_length s Hp) as Hl.
  pose proof (proper_ascending s Hp) as Hasc.
  pose proof Hp as ((Hu & Hc) & _).
  unfold proper. rewrite appended_members, appended_filler by done.
  unfold appended. cbn [Usage Data Capacity cells].
  split; [lia|]. split; [split; [lia|done]|]. split; [|split].
  - rewrite length_app. cbn [length]. rewrite length_replicate. lia.
  - by apply StronglySorted_ascending, ascending_snoc.
  - by apply Forall_replicate.
Qed.

Lemma CSet_Insert_growth_append s v :
  proper s → 0 < Capacity s → 2 * Capacity s ≤ UINT32_MAX →
  Capacity s ≤ Usage s + 1 →
  Forall (λ x, x < v) (members s) →
  CSet_Insert true s v = Some (true, appended s v).
Proof.
  intros Hp Hpos Hmax Hfull Hv. pose proof (proper_members_length s Hp) as Hl.
  pose proof Hp as ((Hu & Hc) & _ & Hlen & _).
  destruct (proper_Block s Hp Hpos) as (d & Hd & Hdl).
  unfold CSet_Insert. rewrite Hd.
  rewrite (u32_id (Usage s + 1)) by lia.
  rewrite decide_False by lia. rewrite decide_False by lia.
  rewrite (u32_id (Capacity s * 2)) by lia.
  unfold malloc.
  set (n := Z.to_nat (Usage s)) in *.
  set (c := Z.to_nat (Capacity s * 2)).
  assert (Hc2 : Capacity s * 2 = Z.of_nat c) by lia.
  rewrite Hc2. rewrite ?Nat2Z.id.
  replace (Usage s + 1) with (Z.of_nat (S n)) by lia.
  replace (Usage s) with (Z.of_nat n) at 1 by lia.
  unfold members in Hv. rewrite Hd in Hv. cbn [cells] in Hv. fold n in Hv.
  rewrite (Insert_merge_append d n v) with (i := 0%nat);
    [|lia|lia|done|rewrite length_replicate; lia|lia|lia].
  cbn [mbind option_bind]. rewrite take_0, drop_0. cbn [app].
  assert (Hpre : length (take n d ++ [v]) = S n).
  { rewrite length_app, length_take. simpl. lia. }
  rewrite fill_loop_spec;
    [|lia|rewrite (cons_middle v), app_assoc, length_app, Hpre, length_drop,
          length_replicate; lia|lia|lia].
  cbn [mbind option_bind]. unfold appended, members. rewrite Hd. cbn [cells]. fold n.
  assert (Hcap : 2 * Capacity s = Z.of_nat c) by lia. rewrite Hcap.
  do 4 f_equal; [lia|].
  rewrite (cons_middle v (take n d) (drop _ _)), (app_assoc (take n d) [v]).
  rewrite take_app_length' by (by rewrite Hpre).
  rewrite <- app_assoc. f_equal. cbn [app]. f_equal.
  rewrite drop_ge.
  - rewrite app_nil_r. f_equal. lia.
  - rewrite length_app, Hpre, length_drop, length_replicate. lia.
Qed.

(** * Allocation failure *)

Ltac case_bind :=
  match goal with
  | |- context [mbind _ ?m] => destruct m as [?|] eqn:?; cbn [mbind option_bind]
  end.

Ltac failure_cases :=
  repeat first
    [ case_bind
    | match goal with
      | |- context [match ?x with _ => _ end] => destruct x eqn:?
      end ];
  intros; simplify_eq; done.

Lemma CSet_Init_failure ok pSet Sz r :
  CSet_Init ok pSet Sz = Some (false, r) →
  r = (λ _, mkCSet 0 0 NULL) <$> pSet.
Proof. unfold CSet_Init. failure_cases. Qed.

Lemma CSet_Insert_failure ok s v s' :
  CSet_Insert ok s v = Some (false, s') → s' = s.
Proof. unfold CSet_Insert. failure_cases. Qed.

Lemma CSet_Intersection_failure ok h pI pA pB h' :
  CSet_Intersection ok h pI pA pB = Some (false, h') → h' = h.
Proof. unfold CSet_Intersection. failure_cases. Qed.

Lemma CSet_SymDifference_failure ok h pS pA pB h' :
  CSet_SymDifference ok h pS pA pB = Some (false, h') → h' = h.
Proof. unfold CSet_SymDifference. failure_cases. Qed.

Lemma set_Data_restore (h : gmap nat CSet) p T d :
  h !! p = Some T →
  set_Data (set_Data h p d) p (Data T) = h.
Proof.
  intros HT. unfold set_Data. apply map_eq. intros i.
  rewrite !lookup_alter. case_decide; [|done]. subst i.
  rewrite HT. simpl. rewrite decide_True by done. simpl. by destruct T.
Qed.

Lemma lookup_set_Data (h : gmap nat CSet) p d T :
  h !! p = Some T → set_Data h p d !! p = Some (mkCSet (Capacity T) (Usage T) d).
Proof. intros HT. unfold set_Data. by rewrite lookup_alter_eq, HT. Qed.

Lemma initialData_eq p : match p with NULL => NULL | Block c => Block c end = p.
Proof. by destruct p. Qed.

Lemma CSet_Copy_failure ok h pT pS h' :
  CSet_Copy ok h pT pS = Some (false, h') → h' = h.
Proof.
  unfold CSet_Copy. case_decide; [by intros [= <-]|].
  destruct (h !! pT) as [T|] eqn:HT; cbn [mbind option_bind]; [|done].
  destruct (h !! pS) as [S|] eqn:HS; cbn [mbind option_bind]; [|done].
  rewrite initialData_eq, (lookup_set_Data h pT _ T) by done.
  cbn [mbind option_bind Data].
  destruct (malloc ok (Capacity S)) eqn:Hm.
  - intros [= <-]. by apply set_Data_restore.
  - case_bind; intros; simplify_eq.
Qed.

(** C9. Atomicity on allocation failure.  When [malloc] returns [NULL],
    [CSet_Init] (for a positive size), [CSet_Insert] (on its growth path),
    [CSet_Intersection], [CSet_SymDifference] and [CSet_Copy] return false;
    and whenever one of them returns false the receiving object is exactly
    as before the call (fields and block contents), except for [CSet_Init],
    which leaves [Capacity = 0], [Usage = 0] and [Data = NULL]. *)
Theorem allocation_failure_is_atomic :
  (∀ raw Sz, Sz > 0 →
     CSet_Init false (Some raw) Sz = Some (false, Some (mkCSet 0 0 NULL))) ∧
  (∀ ok raw Sz r,
     CSet_Init ok (Some raw) Sz = Some (false, r) → r = Some (mkCSet 0 0 NULL)) ∧
  (∀ s v, Data s ≠ NULL → ¬ u32 (Usage s + 1) < Capacity s →
     CSet_Insert false s v = Some (false, s)) ∧
  (∀ ok s v s', CSet_Insert ok s v = Some (false, s') → s' = s) ∧
  (∀ (h : gmap nat CSet) pI pA pB,
     is_Some (h !! pA) → is_Some (h !! pB) →
     CSet_Intersection false h pI pA pB = Some (false, h) ∧
     CSet_SymDifference false h pI pA pB = Some (false, h)) ∧
  (∀ ok (h : gmap nat CSet) pI pA pB h',
     (CSet_Intersection ok h pI pA pB = Some (false, h') → h' = h) ∧
     (CSet_SymDifference ok h pI pA pB = Some (false, h') → h' = h)) ∧
  (∀ (h : gmap nat CSet) pT pS,
     pT ≠ pS → is_Some (h !! pT) → is_Some (h !! pS) →
     CSet_Copy false h pT pS = Some (false, h)) ∧
  (∀ ok (h : gmap nat CSet) pT pS h',
     CSet_Copy ok h pT pS = Some (false, h') → h' = h).
Proof.
  split_and!.
  - intros raw Sz HSz. unfold CSet_Init. by rewrite decide_True.
  - intros ok raw Sz r H. by apply CSet_Init_failure in H.
  - intros s v Hd Hfull. unfold CSet_Insert.
    destruct (Data s); [done|]. by rewrite decide_False.
  - apply CSet_Insert_failure.
  - intros h pI pA pB [A HA] [B HB].
    unfold CSet_Intersection, CSet_SymDifference. by rewrite HA, HB.
  - intros ok h pI pA pB h'.
    split; [apply CSet_Intersection_failure|apply CSet_SymDifference_failure].
  - intros h pT pS Hne [T HT] [S HS]. unfold CSet_Copy.
    rewrite decide_False by done. rewrite HT, HS. cbn [mbind option_bind].
    rewrite initialData_eq, (lookup_set_Data h pT _ T) by done.
    cbn [mbind option_bind Data malloc].
    by rewrite (set_Data_restore h pT T).
  - apply CSet_Copy_failure.
Qed.

(** * Sets beyond 2^30 values *)

Lemma ascending_seqZ first count : ascending (seqZ first count).
Proof.
  intros i j x y [-> ?]%lookup_seqZ [-> ?]%lookup_seqZ Hij. lia.
Qed.

Lemma range_set_members first count capacity :
  0 ≤ count → members (range_set first count capacity) = seqZ first count.
Proof.
  intros. unfold members, range_set. cbn [Usage Data cells].
  rewrite take_app_length'; [done|]. by rewrite length_seqZ.
Qed.

Lemma range_set_filler first count capacity :
  0 ≤ count →
  filler (range_set first count capacity)
  = replicate (Z.to_nat (capacity - count)) INT32_MIN.
Proof.
  intros. unfold filler, range_set. cbn [Usage Data cells].
  rewrite drop_app_length'; [done|]. by rewrite length_seqZ.
Qed.

Lemma range_set_proper first count capacity :
  0 ≤ count ≤ capacity → capacity ≤ UINT32_MAX → 0 < capacity →
  proper (range_set first count capacity).
Proof.
  intros Hc Hmax Hpos. unfold proper.
  rewrite range_set_members, range_set_filler by lia.
  unfold range_set. cbn [Usage Data Capacity cells].
  split; [lia|]. split; [split; [lia|done]|]. split; [|split].
  - rewrite length_app, length_seqZ, length_replicate. lia.
  - apply StronglySorted_ascending, ascending_seqZ.
  - by apply Forall_replicate.
Qed.

Lemma Contains_loop_exit fuel p v lo hi mid :
  hi < lo → Contains_loop (S fuel) p v lo hi mid = Some false.
Proof. intros. cbn [Contains_loop]. by rewrite decide_False by lia. Qed.

Lemma large_set_proper : proper large_set.
Proof. apply range_set_proper; unfold UINT32_MAX; lia. Qed.

Lemma large_set_member : 0 ∈ members large_set.
Proof.
  unfold large_set. rewrite range_set_members by lia.
  apply list_elem_of_lookup_2 with (Z.to_nat 2147483647).
  apply lookup_seqZ. lia.
Qed.

Lemma large_set_Contains : CSet_Contains large_set 0 = Some false.
Proof.
  unfold CSet_Contains, large_set, range_set. cbn [Usage Data].
  rewrite decide_False by lia.
  apply Contains_loop_exit. unfold i32, u32. 
  change ((2147483649 - 1) mod 4294967296) with 2147483648.
  change ((2147483648 + 2147483648) mod 4294967296) with 0. lia.
Qed.

Lemma Contains_index_overflow s v x :
  Usage s = 2147483647 ∨ Usage s = 2147483648 →
  load (Data s) 1073741823 = Some x → x < v →
  CSet_Contains s v = None.
Proof.
  intros Hu Hx Hxv. unfold CSet_Contains.
  rewrite decide_False by lia.
  assert (Z.to_nat (Usage s) = S (Z.to_nat (Usage s - 1))) as -> by lia.
  set (hi := i32 (u32 (Usage s - 1))).
  assert (Hhi : hi = Usage s - 1).
  { unfold hi. rewrite u32_id by (unfold UINT32_MAX; lia).
    apply i32_id. unfold INT32_MIN, INT32_MAX. lia. }
  assert (Hmid : Z.quot (i32 (0 + hi)) 2 = 1073741823).
  { rewrite i32_id by (unfold INT32_MIN, INT32_MAX; lia).
    rewrite Hhi. destruct Hu as [-> | ->]; reflexivity. }
  cbn [Contains_loop]. rewrite Hmid.
  rewrite decide_True by lia. rewrite Hx. cbn [mbind option_bind].
  destruct (decide (x = v)) as [?|_]; [lia|].
  destruct (decide (x > v)) as [?|_]; [lia|].
  destruct (decide (x < v)) as [_|?]; [|lia].
  assert (Hlo : i32 (1073741823 + 1) = 1073741824) by reflexivity.
  rewrite Hlo.
  assert (Z.to_nat (Usage s - 1) = S (Z.to_nat (Usage s - 2))) as -> by lia.
  cbn [Contains_loop]. rewrite decide_True by lia.
  assert (Hneg : Z.quot (i32 (1073741824 + hi)) 2 < 0).
  { rewrite Hhi. destruct Hu as [-> | ->]; reflexivity. }
  unfold load. destruct (Data s); [done|].
  by rewrite decide_False by lia.
Qed.

Lemma full_range_set_proper : proper full_range_set.
Proof. apply range_set_proper; unfold UINT32_MAX; lia. Qed.

Lemma full_range_set_last :
  members full_range_set !! Z.to_nat 2147483647 = Some INT32_MAX.
Proof.
  unfold full_range_set. rewrite range_set_members by lia.
  apply lookup_seqZ. unfold INT32_MAX. lia.
Qed.

Lemma removed_last_Contains :
  CSet_Contains (removed (Z.to_nat 2147483647) full_range_set) INT32_MAX = None.
Proof.
  apply (Contains_index_overflow _ _ 1073741823).
  - left. reflexivity.
  - pose proof full_range_set_last as Hlast.
    unfold removed. cbn [Data]. apply load_Block. split; [lia|].
    assert (Hlen : length (members full_range_set) = Z.to_nat 2147483648).
    { unfold full_range_set. rewrite range_set_members by lia. apply length_seqZ. }
    rewrite lookup_app_l by (rewrite length_delete by eauto; lia).
    rewrite list_lookup_delete_lt by lia.
    unfold full_range_set. rewrite range_set_members by lia.
    apply lookup_seqZ. lia.
  - unfold INT32_MAX. lia.
Qed.


(** * CSet_Insert, in-place path *)

Section Insert_in_place.
Context (d : list Z) (n : nat) (v : Z).
Hypothesis Hlen : (n + 1 < length d)%nat.
Hypothesis Hmax : Z.of_nat (length d) ≤ UINT32_MAX.
Hypothesis Hasc : ascending (take n d).

Lemma Insert_scan_spec :
  ∀ fuel (i0 : nat),
    (i0 ≤ n)%nat → (n - i0 < fuel)%nat →
    (∀ (k : nat) x, (k < i0)%nat → d !! k = Some x → x < v) →
    (v ∈ take n d →
     Insert_scan fuel (Block d) (Z.of_nat n) v (Z.of_nat i0) = Some Duplicate) ∧
    (v ∉ take n d →
     ∃ i : nat,
       Insert_scan fuel (Block d) (Z.of_nat n) v (Z.of_nat i0) = Some (Position (Z.of_nat i)) ∧
       (i ≤ n)%nat ∧
       (∀ (k : nat) x, (k < i)%nat → d !! k = Some x → x < v) ∧
       (∀ (k : nat) x, (i ≤ k < n)%nat → d !! k = Some x → v < x)).
Proof using All.
  induction fuel as [|fuel IH]; intros i0 Hi0 Hfuel Hbelow; [lia|].
  cbn [Insert_scan].
  destruct (decide (Z.of_nat i0 < Z.of_nat n)) as [Hlt|Hge].
  - assert (is_Some (d !! i0)) as [x Hx] by (apply lookup_lt_is_Some; lia).
    rewrite load_nat, Hx. cbn [mbind option_bind].
    destruct (decide (x = v)) as [->|Hne]; [|destruct (decide (x < v)) as [Hxv|Hvx]].
    + split; [done|]. intros Hv. exfalso. apply Hv.
      apply elem_of_take. exists i0. split; [done|lia].
    + rewrite u32_succ by lia. apply IH; [lia|lia|].
      intros k y Hk Hy. destruct (decide (k = i0)) as [->|]; [congruence|].
      apply (Hbelow k); [lia|done].
    + split.
      * intros (k & Hk & Hkn)%elem_of_take. exfalso.
        destruct (decide (k < i0)%nat).
        -- pose proof (Hbelow k v ltac:(lia) Hk). lia.
        -- destruct (decide (k = i0)) as [->|]; [congruence|].
           assert (x < v); [|lia].
           apply (Hasc i0 k); [by rewrite lookup_take_lt by lia
                              |by rewrite lookup_take_lt by lia|lia].
      * intros _. exists i0. split_and!; [done|lia|done|].
        intros k y Hk Hy. destruct (decide (k = i0)) as [->|]; [simplify_eq; lia|].
        assert (x < y); [|lia].
        apply (Hasc i0 k); [by rewrite lookup_take_lt by lia
                           |by rewrite lookup_take_lt by lia|lia].
  - assert (i0 = n) as -> by lia. split.
    + intros (k & Hk & Hkn)%elem_of_take. exfalso.
      pose proof (Hbelow k v ltac:(lia) Hk). lia.
    + intros _. exists n. split_and!; [done|lia|done|]. intros; lia.
Qed.

Lemma Insert_shift_spec (i : nat) :
  (i ≤ n)%nat →
  ∀ fuel (j : nat) d0,
    (i ≤ j ≤ S n)%nat → (j - i < fuel)%nat →
    d0 = take (S j) d ++ drop j (take (S n) d) ++ drop (S (S n)) d →
    Insert_shift fuel (Block d0) (Z.of_nat i) (Z.of_nat j)
    = Some (Block (take (S i) d ++ drop i (take (S n) d) ++ drop (S (S n)) d)).
Proof using Hlen Hmax.
  intros Hi. induction fuel as [|fuel IH]; intros j d0 Hj Hfuel ->; [lia|].
  cbn [Insert_shift].
  destruct (decide (Z.of_nat i < Z.of_nat j)) as [Hlt|Hge].
  - assert (Hj1 : u32 (Z.of_nat j - 1) = Z.of_nat (j - 1)) by (rewrite u32_id; lia).
    rewrite Hj1.
    assert (is_Some (d !! (j - 1)%nat)) as [x Hx] by (apply lookup_lt_is_Some; lia).
    set (d0 := take (S j) d ++ drop j (take (S n) d) ++ drop (S (S n)) d).
    assert (Hl0 : length d0 = length d).
    { unfold d0. rewrite !length_app, !length_drop, !length_take. lia. }
    assert (Hx0 : d0 !! (j - 1)%nat = Some x).
    { unfold d0. rewrite lookup_app_l by (rewrite length_take; lia).
      by rewrite lookup_take_lt by lia. }
    rewrite load_nat, Hx0. cbn [mbind option_bind].
    rewrite store_nat by lia. cbn [mbind option_bind].
    apply IH; [lia|lia|].
    replace (S (j - 1)) with j by lia.
    unfold d0.
    assert (Hsplit : take (S j) d = take j d ++ drop j (take (S j) d)).
    { rewrite <- (take_drop j (take (S j) d)) at 1. by rewrite take_take, Nat.min_l by lia. }
    rewrite Hsplit, <- app_assoc.
    rewrite insert_app_r_alt by (rewrite length_take; lia).
    rewrite length_take, Nat.min_l, Nat.sub_diag by lia. f_equal.
    assert (is_Some (d !! j)) as [y Hy] by (apply lookup_lt_is_Some; lia).
    rewrite (drop_S (take (S j) d) y j) by (by rewrite lookup_take_lt by lia).
    rewrite (drop_ge (take (S j) d) (S j)) by (rewrite length_take; lia).
    cbn [app insert list_insert].
    rewrite (drop_S (take (S n) d) x (j - 1)) by (by rewrite lookup_take_lt by lia).
    by replace (S (j - 1)) with j by lia.
  - assert (j = i) as -> by lia. done.
Qed.
End Insert_in_place.

Lemma ascending_insert_middle l (i : nat) v :
  ascending l →
  (∀ (k : nat) x, (k < i)%nat → l !! k = Some x → x < v) →
  (∀ (k : nat) x, (i ≤ k)%nat → l !! k = Some x → v < x) →
  (i ≤ length l)%nat →
  ascending (take i l ++ v :: drop i l).
Proof.
  intros Ha Hlo Hhi Hi p q x y Hp Hq Hpq.
  assert (Hlt : length (take i l) = i) by (rewrite length_take; lia).
  assert (Hget : ∀ (k : nat) z, (take i l ++ v :: drop i l) !! k = Some z →
            ((k < i)%nat ∧ l !! k = Some z) ∨ (k = i ∧ z = v) ∨
            ((i < k)%nat ∧ l !! (k - 1)%nat = Some z)).
  { intros k z Hk. destruct (decide (k < i)%nat).
    - left. rewrite lookup_app_l, lookup_take_lt in Hk by lia. done.
    - rewrite lookup_app_r in Hk by lia. rewrite Hlt in Hk.
      destruct (decide (k = i)) as [->|].
      + rewrite Nat.sub_diag in Hk. simpl in Hk. right. left. by simplify_eq.
      + right. right. split; [lia|].
        replace (k - i)%nat with (S (k - i - 1)) in Hk by lia. simpl in Hk.
        rewrite lookup_drop in Hk. rewrite <- Hk. f_equal. lia. }
  destruct (Hget p x Hp) as [[? Hx]|[[-> ->]|[? Hx]]];
    destruct (Hget q y Hq) as [[? Hy]|[[-> ->]|[? Hy]]]; try lia.
  - by apply (Ha p q).
  - by apply (Hlo p).
  - assert (x < v) by (by apply (Hlo p)).
    assert (v < y) by (apply (Hhi (q - 1)%nat); [lia|done]). lia.
  - apply (Hhi (q - 1)%nat); [lia|done].
  - apply (Ha (p - 1)%nat (q - 1)%nat); [done|done|lia].
Qed.

(** The in-place path of [CSet_Insert], with the index at which the
    value is written. *)
Lemma CSet_Insert_in_place_run s v :
  proper s → Usage s + 1 < Capacity s →
  (v ∈ members s → ∀ ok, CSet_Insert ok s v = Some (false, s)) ∧
  (v ∉ members s →
   ∃ (i : nat),
     (∀ ok, CSet_Insert ok s v = Some (true, inserted i s v)) ∧
     members (inserted i s v) = take i (members s) ++ v :: drop i (members s) ∧
     proper (inserted i s v)).
Proof.
  intros Hp Hroom. pose proof (proper_ascending s Hp) as Hasc.
  pose proof Hp as ((Hu & Hc) & Hnull & Hlen & _ & Hfill).
  destruct (proper_Block s Hp) as (d & Hd & Hdl); [lia|].
  unfold members, filler in *. rewrite Hd in *. cbn [cells] in *.
  set (n := Z.to_nat (Usage s)) in *.
  assert (Hun : Usage s = Z.of_nat n) by lia.
  assert (Hl : (n + 1 < length d)%nat) by lia.
  assert (Hm : Z.of_nat (length d) ≤ UINT32_MAX) by lia.
  destruct (Insert_scan_spec d n v Hl Hm Hasc (S n) 0%nat) as [Hdup Hnew];
    [lia|lia|intros; lia|].
  assert (Hpath : ∀ ok, CSet_Insert ok s v =
            r ← Insert_scan (S n) (Block d) (Z.of_nat n) v 0;
            match r with
            | Duplicate => Some (false, s)
            | Position i =>
                data1 ← Insert_shift (S (n + 1)) (Block d) i (Z.of_nat (S n));
                data2 ← store data1 i v;
                Some (true, mkCSet (Capacity s) (Z.of_nat (S n)) data2)
            end).
  { intros ok. unfold CSet_Insert. rewrite Hd, (u32_id (Usage s + 1)) by lia.
    rewrite decide_True by lia. fold n. rewrite Hun.
    by replace (Z.of_nat n + 1) with (Z.of_nat (S n)) by lia. }
  split.
  - intros Hv ok. rewrite Hpath. change (Z.of_nat 0) with 0 in Hdup. by rewrite (Hdup Hv).
  - intros Hv. destruct (Hnew Hv) as (i & Hscan & Hin & Hlo & Hhi).
    change (Z.of_nat 0) with 0 in Hscan.
    assert (Hfinal : <[i := v]> (take (S i) d ++ drop i (take (S n) d) ++ drop (S (S n)) d)
                     = take i d ++ v :: drop i (take (S n) d) ++ drop (S (S n)) d).
    { assert (is_Some (d !! i)) as [y Hy] by (apply lookup_lt_is_Some; lia).
      rewrite (take_S_r d i y) by done. rewrite <- app_assoc.
      rewrite insert_app_r_alt by (rewrite length_take; lia).
      rewrite length_take, Nat.min_l, Nat.sub_diag by lia. done. }
    assert (Hdn : d !! n = Some INT32_MIN).
    { rewrite Forall_forall in Hfill.
      assert (is_Some (d !! n)) as [y Hy] by (apply lookup_lt_is_Some; lia).
      rewrite Hy. f_equal. apply Hfill.
      apply list_elem_of_lookup_2 with 0%nat. rewrite lookup_drop.
      by rewrite Nat.add_0_r. }
    assert (Hmid : drop i (take (S n) d) = drop i (take n d) ++ [INT32_MIN]).
    { rewrite (take_S_r d n INT32_MIN) by done.
      rewrite drop_app_le by (rewrite length_take; lia). done. }
    assert (Hwhole : take i d ++ v :: drop i (take (S n) d) ++ drop (S (S n)) d
                     = (take i (take n d) ++ v :: drop i (take n d)) ++
                       INT32_MIN :: drop (S (S n)) d).
    { rewrite Hmid, take_take, Nat.min_l by lia.
      rewrite <- !app_assoc. cbn [app]. done. }
    assert (Hprel : length (take i (take n d) ++ v :: drop i (take n d)) = S n).
    { rewrite length_app. cbn [length]. rewrite length_drop, !length_take. lia. }
    assert (Hmem : take (Z.to_nat (Usage s + 1))
                     (take i d ++ v :: drop i (take (S n) d) ++ drop (S (S n)) d)
                   = take i (take n d) ++ v :: drop i (take n d)).
    { rewrite Hwhole. apply take_app_length'. lia. }
    assert (Hfil : drop (Z.to_nat (Usage s + 1))
                     (take i d ++ v :: drop i (take (S n) d) ++ drop (S (S n)) d)
                   = INT32_MIN :: drop (S (S n)) d).
    { rewrite Hwhole. apply drop_app_length'. lia. }
    exists i. split_and!.
    + intros ok. rewrite Hpath, Hscan. cbn [mbind option_bind].
      rewrite (Insert_shift_spec d n Hl Hm i Hin (S (n + 1)) (S n));
        [|lia|lia|].
      * cbn [mbind option_bind]. rewrite store_nat.
        -- cbn [mbind option_bind]. rewrite Hfinal. unfold inserted. rewrite Hd.
           cbn [cells]. fold n. do 3 f_equal. lia.
        -- rewrite !length_app, !length_drop, !length_take. lia.
      * rewrite (drop_ge (take (S n) d)) by (rewrite length_take; lia).
        cbn [app]. by rewrite take_drop.
    + unfold inserted. cbn [Usage Data cells]. rewrite Hd. cbn [cells]. fold n.
      exact Hmem.
    + unfold proper, members, filler, inserted. cbn [Usage Data Capacity cells].
      rewrite Hd. cbn [cells]. fold n. rewrite Hmem, Hfil.
      split; [lia|]. split; [split; [lia|done]|]. split; [|split].
      * rewrite Hwhole, length_app, Hprel. cbn [length]. rewrite length_drop. lia.
      * apply StronglySorted_ascending, ascending_insert_middle; [done| | |].
        -- intros k x Hk Hx. apply (Hlo k); [done|].
           by rewrite lookup_take_lt in Hx by lia.
        -- intros k x Hk Hx. apply lookup_take_Some in Hx as [Hx Hkn].
           apply (Hhi k); [lia|done].
        -- rewrite length_take. lia.
      * constructor; [done|]. apply Forall_forall. intros x Hx.
        rewrite Forall_forall in Hfill. apply Hfill.
        apply list_elem_of_lookup_1 in Hx as [k Hk]. rewrite lookup_drop in Hk.
        apply list_elem_of_lookup_2 with (S (S k)). rewrite lookup_drop.
        rewrite <- Hk. f_equal. lia.
Qed.

(** X4. [CSet_Insert] on a proper set with spare capacity
    ([Usage + 1 < Capacity], the in-place path, which never allocates): a
    value already stored is refused and the set stays as it is; any other
    value is written at its place in the order, the set stays proper and
    its capacity is unchanged. *)
Theorem CSet_Insert_in_place s v :
  proper s → Usage s + 1 < Capacity s →
  (v ∈ members s → ∀ ok, CSet_Insert ok s v = Some (false, s)) ∧
  (v ∉ members s →
   ∃ (i : nat),
     (∀ ok, CSet_Insert ok s v = Some (true, inserted i s v)) ∧
     members (inserted i s v) = take i (members s) ++ v :: drop i (members s) ∧
     proper (inserted i s v)).
Proof. intros Hp Hroom. by apply CSet_Insert_in_place_run. Qed.


(** * CSet_Intersection *)

Lemma filter_nothing {X} (Q : X → Prop) `{∀ x, Decision (Q x)} (l : list X) :
  (∀ x, x ∈ l → ¬ Q x) → filter Q l = [].
Proof.
  induction l as [|x l IH]; intros Hl; [done|].
  rewrite filter_cons_False by (apply Hl; left).
  apply IH. intros y Hy. apply Hl. by right.
Qed.

Section Intersection_loop.
Context (A B : CSet) (dA dB : list Z) (nA nB : nat).
Hypothesis HdA : Data A = Block dA.
Hypothesis HdB : Data B = Block dB.
Hypothesis HuA : Usage A = Z.of_nat nA.
Hypothesis HuB : Usage B = Z.of_nat nB.
Hypothesis HlA : (nA ≤ length dA)%nat.
Hypothesis HlB : (nB ≤ length dB)%nat.
Hypothesis HmA : Z.of_nat nA ≤ UINT32_MAX.
Hypothesis HmB : Z.of_nat nB ≤ UINT32_MAX.
Hypothesis HascA : ascending (take nA dA).
Hypothesis HascB : ascending (take nB dB).

Let P : Z → Prop := λ x, x ∈ take nB dB.

Lemma ascending_take_lt (l : list Z) (n i j : nat) x y :
  ascending (take n l) → l !! i = Some x → l !! j = Some y →
  (i < j)%nat → (j < n)%nat → x < y.
Proof.
  intros Ha Hi Hj Hij Hjn. apply (Ha i j); [| |done]; by rewrite lookup_take_lt by lia.
Qed.

Lemma Intersection_loop_spec :
  ∀ fuel (a b i : nat) data,
    (a ≤ nA)%nat → (b ≤ nB)%nat →
    (nA - a + (nB - b) < fuel)%nat →
    (nA `min` nB ≤ length data)%nat →
    i = length (filter P (take a dA)) →
    take i data = filter P (take a dA) →
    (∀ (ka kb : nat) xa xb,
       (a ≤ ka < nA)%nat → (kb < b)%nat →
       dA !! ka = Some xa → dB !! kb = Some xb → xb < xa) →
    ((i ≤ b)%nat ∨
     ((i ≤ S b)%nat ∧ ∃ x, (0 < a)%nat ∧ dA !! (a - 1)%nat = Some x ∧ dB !! b = Some x)) →
    ∃ data',
      Intersection_loop fuel A B (Block data) (Z.of_nat i) (Z.of_nat a) (Z.of_nat b)
      = Some (Block data', Z.of_nat (length (filter P (take nA dA)))) ∧
      length data' = length data ∧
      take (length (filter P (take nA dA))) data' = filter P (take nA dA).
Proof using All.
  induction fuel as [|fuel IH]; intros a b i data Ha Hb Hfuel Hlen Hi Htake Hcons Hpend; [lia|].
  cbn [Intersection_loop]. rewrite HuA, HuB, HdA, HdB.
  assert (Hia : (i ≤ a)%nat).
  { rewrite Hi. etrans; [apply length_filter|]. rewrite length_take. lia. }
  destruct (decide (Z.of_nat a < Z.of_nat nA ∧ Z.of_nat b < Z.of_nat nB)) as [[Han Hbn]|Hexit].
  - rewrite !load_nat.
    assert (is_Some (dA !! a)) as [x Hx] by (apply lookup_lt_is_Some; lia).
    assert (is_Some (dB !! b)) as [y Hy] by (apply lookup_lt_is_Some; lia).
    rewrite Hx, Hy. cbn [mbind option_bind].
    assert (Htake_S : take (S a) dA = take a dA ++ [x]) by (by apply take_S_r).
    destruct (decide (x < y)) as [Hlt|Hnlt]; [|destruct (decide (x > y)) as [Hgt|Hngt]].
    + (* a++ *)
      rewrite u32_succ by lia.
      assert (HnP : ¬ P x).
      { intros (kb & Hkb & Hkbn)%elem_of_take.
        destruct (decide (kb < b)%nat).
        - pose proof (Hcons a kb x x ltac:(lia) ltac:(lia) Hx Hkb). lia.
        - destruct (decide (kb = b)) as [->|]; [simplify_eq; lia|].
          pose proof (ascending_take_lt dB nB b kb y x HascB Hy Hkb ltac:(lia) ltac:(lia)).
          lia. }
      apply IH; try lia.
      * rewrite Htake_S, filter_app, filter_cons_False, filter_nil, app_nil_r by done. done.
      * rewrite Htake_S, filter_app, filter_cons_False, filter_nil, app_nil_r by done. done.
      * intros ka kb xa xb ? ? Hka Hkb. apply (Hcons ka kb); auto; lia.
      * left. destruct Hpend as [?|(_ & z & Hpos & Hz1 & Hz2)]; [done|].
        assert (z = y) as -> by congruence.
        pose proof (ascending_take_lt dA nA (a - 1) a y x HascA Hz1 Hx ltac:(lia) ltac:(lia)).
        lia.
    + (* b++ *)
      rewrite u32_succ by lia.
      apply IH; try lia; try done.
      * intros ka kb xa xb ? ? Hka Hkb.
        destruct (decide (kb = b)) as [->|]; [|apply (Hcons ka kb); auto; lia].
        simplify_eq. destruct (decide (ka = a)) as [->|]; [simplify_eq; lia|].
        pose proof (ascending_take_lt dA nA a ka x xa HascA Hx Hka ltac:(lia) ltac:(lia)).
        lia.
    + (* match *)
      assert (y = x) as -> by lia.
      assert (Hib : (i ≤ b)%nat).
      { destruct Hpend as [?|(_ & z & Hpos & Hz1 & Hz2)]; [done|].
        assert (z = x) as -> by congruence.
        pose proof (ascending_take_lt dA nA (a - 1) a x x HascA Hz1 Hx ltac:(lia) ltac:(lia)).
        lia. }
      assert (HP : P x).
      { apply elem_of_take. exists b. split; [done|lia]. }
      rewrite store_nat by lia. cbn [mbind option_bind].
      rewrite !u32_succ by lia.
      destruct (IH (S a) b (S i) (<[i := x]> data)) as (data' & Hrun & Hlen' & Htake');
        try lia.
      * by rewrite length_insert.
      * rewrite Htake_S, filter_app, filter_cons_True, filter_nil, length_app by done.
        simpl. lia.
      * rewrite Htake_S, filter_app, filter_cons_True, filter_nil by done.
        rewrite (take_S_r _ i x) by (apply list_lookup_insert_eq; lia).
        rewrite take_insert_ge by lia. by rewrite Htake.
      * intros ka kb xa xb ? ? Hka Hkb. apply (Hcons ka kb); auto; lia.
      * right. split; [lia|]. exists x. split; [lia|].
        replace (S a - 1)%nat with a by lia. done.
      * exists data'. rewrite Hrun. rewrite length_insert in Hlen'. done.
  - assert (Hrest : filter P (take nA dA) = filter P (take a dA)).
    { rewrite <- (take_drop a (take nA dA)), filter_app.
      rewrite take_take, Nat.min_l by lia.
      assert (filter P (drop a (take nA dA)) = []) as ->; [|by rewrite app_nil_r].
      destruct (decide (a = nA)) as [->|Hne].
      - by rewrite drop_ge by (rewrite length_take; lia).
      - assert (b = nB) as -> by lia.
        apply filter_nothing.
        intros z [k Hk]%list_elem_of_lookup_1 (kb & Hkb & Hkbn)%elem_of_take.
        rewrite lookup_drop in Hk. apply lookup_take_Some in Hk as [Hk Hkn].
        pose proof (Hcons (a + k)%nat kb z z ltac:(lia) ltac:(lia) Hk Hkb). lia. }
    exists data. rewrite Hrest, <- Hi. done.
Qed.
End Intersection_loop.

Lemma set_fields (h : gmap nat CSet) p O c u d :
  h !! p = Some O →
  set_Capacity (set_Data (set_Usage h p u) p d) p c = <[p := mkCSet c u d]> h.
Proof.
  intros HO. unfold set_Capacity, set_Data, set_Usage. apply map_eq. intros i.
  rewrite !lookup_alter, lookup_insert. destruct (decide (p = i)) as [->|]; [|done].
  rewrite !decide_True by done. by rewrite HO.
Qed.

Lemma StronglySorted_filter (Q : Z → Prop) `{∀ x, Decision (Q x)} l :
  StronglySorted Z.lt l → StronglySorted Z.lt (filter Q l).
Proof.
  induction 1 as [|x l Hs IH Hx]; [constructor|].
  rewrite filter_cons. destruct (decide (Q x)); [|done].
  constructor; [done|]. rewrite Forall_forall in *.
  intros y [_ Hy]%list_elem_of_filter. by apply Hx.
Qed.

Lemma CSet_Intersection_run (h : gmap nat CSet) pI pA pB O A B :
  h !! pI = Some O → h !! pA = Some A → h !! pB = Some B →
  proper A → proper B → 0 < Capacity A → 0 < Capacity B →
  CSet_Intersection true h pI pA pB = Some (true, <[pI := intersection_of A B]> h) ∧
  Z.of_nat (length (common A B)) ≤ Z.min (Capacity A) (Capacity B).
Proof.
  intros HO HA HB HpA HpB HcA HcB.
  destruct (proper_Block A HpA HcA) as (dA & HdA & HlA).
  destruct (proper_Block B HpB HcB) as (dB & HdB & HlB).
  pose proof (proper_ascending A HpA) as HascA.
  pose proof (proper_ascending B HpB) as HascB.
  destruct HpA as ((HuA & HmA) & _). destruct HpB as ((HuB & HmB) & _).
  unfold members in HascA, HascB. rewrite HdA in HascA. rewrite HdB in HascB.
  cbn [cells] in *.
  set (nA := Z.to_nat (Usage A)) in *. set (nB := Z.to_nat (Usage B)) in *.
  set (c := Z.to_nat (Z.min (Capacity A) (Capacity B))).
  assert (Hcap : (if decide (Capacity A > Capacity B) then Capacity B else Capacity A)
                 = Z.of_nat c).
  { unfold c. case_decide; lia. }
  destruct (Intersection_loop_spec A B dA dB nA nB) with
    (fuel := S (nA + nB)) (a := 0%nat) (b := 0%nat) (i := 0%nat) (data := replicate c 0)
    as (data' & Hrun & Hlen & Htake); try done; try lia.
  { rewrite length_replicate. unfold c, nA, nB. lia. }
  assert (Hcommon : common A B = filter (λ x, x ∈ take nB dB) (take nA dA)).
  { unfold common, members. rewrite HdA, HdB. done. }
  rewrite <- Hcommon in *.
  rewrite length_replicate in Hlen.
  assert (Hbound : (length (common A B) ≤ c)%nat).
  { rewrite <- Htake. rewrite length_take. lia. }
  split; [|lia].
  unfold CSet_Intersection. rewrite HA, HB. cbn [mbind option_bind].
  rewrite Hcap. unfold malloc. rewrite Nat2Z.id.
  fold nA nB. change (Z.of_nat 0) with 0 in Hrun. rewrite Hrun. cbn [mbind option_bind].
  rewrite HO. cbn [mbind option_bind].
  rewrite fill_loop_spec; [|lia..].
  cbn [mbind option_bind]. rewrite (set_fields h pI O) by done.
  do 3 f_equal. unfold intersection_of. fold c.
  f_equal; [lia|]. f_equal. rewrite Htake.
  rewrite (drop_ge data') by lia. by rewrite app_nil_r.
Qed.

(** X15. [CSet_Intersection] on operands of positive capacity, whatever the
    output pointer is (a separate object, [pA] or [pB]): the call returns
    true and the object behind the output pointer becomes
    [intersection_of A B], which is proper, has the smaller capacity, and
    stores exactly the values common to [A] and [B]. *)
Theorem CSet_Intersection_correct (h : gmap nat CSet) pI pA pB O A B :
  h !! pI = Some O → h !! pA = Some A → h !! pB = Some B →
  proper A → proper B → 0 < Capacity A → 0 < Capacity B →
  CSet_Intersection true h pI pA pB = Some (true, <[pI := intersection_of A B]> h) ∧
  proper (intersection_of A B) ∧
  Capacity (intersection_of A B) = Z.min (Capacity A) (Capacity B) ∧
  Usage (intersection_of A B) = Z.of_nat (length (common A B)) ∧
  members (intersection_of A B) = common A B ∧
  (∀ x, x ∈ members (intersection_of A B) ↔ x ∈ members A ∧ x ∈ members B).
Proof.
  intros HO HA HB HpA HpB HcA HcB.
  destruct (CSet_Intersection_run h pI pA pB O A B) as [Hrun Hbound]; try done.
  assert (Hm : members (intersection_of A B) = common A B).
  { unfold members at 1, intersection_of. cbn [Usage Data cells].
    rewrite Nat2Z.id. by rewrite take_app_length. }
  split_and!; try done.
  - unfold proper. rewrite Hm. unfold filler, intersection_of.
    cbn [Usage Data Capacity cells]. rewrite Nat2Z.id, drop_app_length.
    destruct HpA as ((? & ?) & _ & _ & HsA & _). destruct HpB as ((? & ?) & _).
    split; [lia|]. split; [split; [lia|done]|]. split; [|split].
    + rewrite length_app, length_replicate. lia.
    + by apply StronglySorted_filter.
    + by apply Forall_replicate.
  - intros x. rewrite Hm. unfold common. rewrite list_elem_of_filter. tauto.
Qed.

(** * CSet_SymDifference *)

Lemma merge_inv_sym la lb a b out : merge_inv la lb a b out → merge_inv lb la b a out.
Proof.
  intros (Hlen & Hasc & Hmem & H4 & H5). split_and!.
  - lia.
  - done.
  - intros x. rewrite Hmem. tauto.
  - intros ka kb xa xb ? ? Hka Hkb. by apply (H5 kb ka).
  - intros ka kb xa xb ? ? Hka Hkb. by apply (H4 kb ka).
Qed.

Lemma merge_inv_start la lb : merge_inv la lb 0 0 [].
Proof.
  split_and!.
  - done.
  - intros i j x y Hi. by rewrite lookup_nil in Hi.
  - intros x. rewrite !take_0. split; [by intros ?%elem_of_nil|].
    intros [[?%elem_of_nil _]|[?%elem_of_nil _]]; done.
  - intros; lia.
  - intros; lia.
Qed.

Lemma merge_inv_both la lb a b out x :
  ascending la → ascending lb →
  merge_inv la lb a b out → la !! a = Some x → lb !! b = Some x →
  merge_inv la lb (S a) (S b) out.
Proof.
  intros HascA HascB (Hlen & Hasc & Hmem & H4 & H5) Ha Hb.
  assert (HxA : x ∈ la) by (by eapply list_elem_of_lookup_2).
  assert (HxB : x ∈ lb) by (by eapply list_elem_of_lookup_2).
  unfold merge_inv. rewrite (take_S_r la a x), (take_S_r lb b x) by done.
  split_and!.
  - unfold only_in in *. rewrite !filter_app, !filter_cons_False, !filter_nil, !app_nil_r; tauto.
  - done.
  - intros z. rewrite Hmem, !elem_of_app, !list_elem_of_singleton.
    split; [tauto|]. intros [[[?| ->] ?]|[[?| ->] ?]]; tauto.
  - intros ka kb xa xb ? ? Hka Hkb.
    destruct (decide (kb = b)) as [->|]; [|apply (H4 ka kb); auto; lia].
    assert (xb = x) as -> by congruence. apply (HascA a ka); auto; lia.
  - intros ka kb xa xb ? ? Hka Hkb.
    destruct (decide (ka = a)) as [->|]; [|apply (H5 ka kb); auto; lia].
    assert (xa = x) as -> by congruence. apply (HascB b kb); auto; lia.
Qed.

Lemma merge_inv_left la lb a b out x :
  ascending la → ascending lb →
  merge_inv la lb a b out → la !! a = Some x →
  (∀ y, lb !! b = Some y → x < y) →
  merge_inv la lb (S a) b (out ++ [x]).
Proof.
  intros HascA HascB (Hlen & Hasc & Hmem & H4 & H5) Ha Hb.
  assert (HxB : x ∉ lb).
  { intros [kb Hkb]%list_elem_of_lookup_1.
    destruct (decide (kb < b)%nat).
    - pose proof (H4 a kb x x ltac:(lia) ltac:(lia) Ha Hkb). lia.
    - assert (is_Some (lb !! b)) as [y Hy].
      { apply lookup_lt_is_Some. apply lookup_lt_Some in Hkb. lia. }
      specialize (Hb y Hy).
      destruct (decide (kb = b)) as [->|]; [assert (y = x) by congruence; lia|].
      pose proof (HascB b kb y x Hy Hkb ltac:(lia)). lia. }
  assert (Hbelow : Forall (λ z, z < x) out).
  { apply Forall_forall. intros z Hz. apply Hmem in Hz as [[Hz _]|[Hz _]].
    - apply elem_of_take in Hz as (k & Hk & Hka). by apply (HascA k a).
    - apply elem_of_take in Hz as (k & Hk & Hkb). by apply (H4 a k). }
  unfold merge_inv. rewrite (take_S_r la a x) by done.
  split_and!.
  - unfold only_in in *. rewrite filter_app, filter_cons_True, filter_nil, !length_app by done.
    simpl. lia.
  - by apply ascending_snoc.
  - intros z. rewrite !elem_of_app, !list_elem_of_singleton, Hmem.
    split; [|tauto]. intros [?| ->]; tauto.
  - intros ka kb xa xb ? ? Hka Hkb. apply (H4 ka kb); auto; lia.
  - intros ka kb xa xb ? ? Hka Hkb.
    destruct (decide (ka = a)) as [->|]; [|apply (H5 ka kb); auto; lia].
    assert (xa = x) as -> by congruence.
    assert (is_Some (lb !! b)) as [y Hy].
    { apply lookup_lt_is_Some. apply lookup_lt_Some in Hkb. lia. }
    specialize (Hb y Hy).
    destruct (decide (kb = b)) as [->|]; [assert (y = xb) by congruence; lia|].
    pose proof (HascB b kb y xb Hy Hkb ltac:(lia)). lia.
Qed.

Lemma merge_inv_right la lb a b out y :
  ascending la → ascending lb →
  merge_inv la lb a b out → lb !! b = Some y →
  (∀ x, la !! a = Some x → y < x) →
  merge_inv la lb a (S b) (out ++ [y]).
Proof.
  intros HascA HascB Hinv Hb Ha.
  apply merge_inv_sym, merge_inv_left; auto. by apply merge_inv_sym.
Qed.

Lemma merge_inv_length la lb a b out :
  merge_inv la lb a b out → (a ≤ length la)%nat → (b ≤ length lb)%nat →
  (length out ≤ a + b)%nat.
Proof.
  intros (Hlen & _) Ha Hb. rewrite Hlen. unfold only_in.
  pose proof (length_filter (λ x, x ∉ lb) (take a la)).
  pose proof (length_filter (λ x, x ∉ la) (take b lb)).
  rewrite length_take in *. lia.
Qed.

Lemma load_cells p (k : nat) x : cells p !! k = Some x → load p (Z.of_nat k) = Some x.
Proof. destruct p as [|d]; [done|]. cbn [cells]. by rewrite load_nat. Qed.

Section SymDifference_loop.
Context (A B : CSet) (nA nB : nat).
Hypothesis HuA : Usage A = Z.of_nat nA.
Hypothesis HuB : Usage B = Z.of_nat nB.
Hypothesis HlA : (nA ≤ length (cells (Data A)))%nat.
Hypothesis HlB : (nB ≤ length (cells (Data B)))%nat.
Hypothesis Hmax : Z.of_nat (nA + nB) ≤ UINT32_MAX.
Hypothesis HascA : ascending (members A).
Hypothesis HascB : ascending (members B).

Lemma members_lookup_lt s (n k : nat) :
  Usage s = Z.of_nat n → (k < n)%nat → members s !! k = cells (Data s) !! k.
Proof. intros Hu Hk. unfold members. rewrite Hu, Nat2Z.id. by apply lookup_take_lt. Qed.

Lemma members_length_eq s (n : nat) :
  Usage s = Z.of_nat n → (n ≤ length (cells (Data s)))%nat → length (members s) = n.
Proof. intros Hu Hl. unfold members. rewrite Hu, Nat2Z.id, length_take. lia. Qed.

Lemma SymDifference_loop_spec :
  ∀ fuel (a b : nat) data out,
    (a ≤ nA)%nat → (b ≤ nB)%nat → (nA - a + (nB - b) < fuel)%nat →
    (nA + nB ≤ length data)%nat →
    take (length out) data = out →
    merge_inv (members A) (members B) a b out →
    ∃ data' out',
      SymDifference_loop fuel A B (Block data)
        (Z.of_nat (length out)) (Z.of_nat a) (Z.of_nat b)
      = Some (Block data', Z.of_nat (length out')) ∧
      length data' = length data ∧
      take (length out') data' = out' ∧
      merge_inv (members A) (members B) nA nB out'.
Proof using All.
  pose proof (members_length_eq A nA HuA HlA) as HlenA.
  pose proof (members_length_eq B nB HuB HlB) as HlenB.
  induction fuel as [|fuel IH]; intros a b data out Ha Hb Hfuel Hlen Htake Hinv; [lia|].
  pose proof (merge_inv_length _ _ _ _ _ Hinv ltac:(lia) ltac:(lia)) as Hout.
  cbn [SymDifference_loop]. rewrite HuA, HuB.
  assert (Hstep : ∀ x a' b',
            merge_inv (members A) (members B) a' b' (out ++ [x]) →
            (a' ≤ nA)%nat → (b' ≤ nB)%nat → (nA - a' + (nB - b') < fuel)%nat →
            (length out < nA + nB)%nat →
            ∃ data' out',
              (store (Block data) (Z.of_nat (length out)) x ≫= λ data1,
               SymDifference_loop fuel A B data1 (u32 (Z.of_nat (length out) + 1))
                 (Z.of_nat a') (Z.of_nat b'))
              = Some (Block data', Z.of_nat (length out')) ∧
              length data' = length data ∧
              take (length out') data' = out' ∧
              merge_inv (members A) (members B) nA nB out').
  { intros x a' b' Hinv' Ha' Hb' Hfuel' Hroom.
    rewrite store_nat by lia. cbn [mbind option_bind]. rewrite u32_succ by lia.
    replace (S (length out)) with (length (out ++ [x])) by (rewrite length_app; simpl; lia).
    destruct (IH a' b' (<[length out := x]> data) (out ++ [x])) as (data' & out' & Hrun & Hl & Ht & Hi);
      try done.
    - by rewrite length_insert.
    - rewrite length_app. simpl. rewrite Nat.add_1_r.
      rewrite (take_S_r _ _ x) by (apply list_lookup_insert_eq; lia).
      rewrite take_insert_ge by lia. by rewrite Htake.
    - exists data', out'. rewrite length_insert in Hl. done. }
  destruct (decide (Z.of_nat a < Z.of_nat nA ∨ Z.of_nat b < Z.of_nat nB)) as [Hcont|Hexit].
  - destruct (decide (Z.of_nat a < Z.of_nat nA ∧ Z.of_nat b < Z.of_nat nB)) as [[Han Hbn]|Hone].
    + assert (is_Some (members A !! a)) as [x Hx] by (apply lookup_lt_is_Some; lia).
      assert (is_Some (members B !! b)) as [y Hy] by (apply lookup_lt_is_Some; lia).
      rewrite (load_cells (Data A) a x)
        by (by rewrite <- (members_lookup_lt A nA a HuA) by lia).
      rewrite (load_cells (Data B) b y)
        by (by rewrite <- (members_lookup_lt B nB b HuB) by lia).
      cbn [mbind option_bind].
      destruct (decide (x = y)) as [->|Hne]; [|destruct (decide (x < y)) as [Hlt|Hge]].
      * rewrite !u32_succ by lia.
        apply IH; try done; try lia. by eapply merge_inv_both.
      * rewrite (u32_succ a) by lia. apply Hstep; try lia.
        apply merge_inv_left; auto. intros y' Hy'. assert (y' = y) by congruence. lia.
      * rewrite (u32_succ b) by lia. apply Hstep; try lia.
        apply merge_inv_right; auto. intros x' Hx'. assert (x' = x) by congruence. lia.
    + destruct (decide (Z.of_nat a < Z.of_nat nA)) as [Han|Hna].
      * assert (is_Some (members A !! a)) as [x Hx] by (apply lookup_lt_is_Some; lia).
        rewrite (load_cells (Data A) a x)
          by (by rewrite <- (members_lookup_lt A nA a HuA) by lia).
        cbn [mbind option_bind].
        rewrite (u32_succ a) by lia. apply Hstep; try lia.
        apply merge_inv_left; auto. intros y' Hy'.
        apply lookup_lt_Some in Hy'. lia.
      * assert (is_Some (members B !! b)) as [y Hy] by (apply lookup_lt_is_Some; lia).
        rewrite (load_cells (Data B) b y)
          by (by rewrite <- (members_lookup_lt B nB b HuB) by lia).
        cbn [mbind option_bind].
        rewrite (u32_succ b) by lia. apply Hstep; try lia.
        apply merge_inv_right; auto. intros x' Hx'.
        apply lookup_lt_Some in Hx'. lia.
  - exists data, out. assert (a = nA) as -> by lia. assert (b = nB) as -> by lia. done.
Qed.
End SymDifference_loop.

Lemma proper_members_take s : proper s → take (Z.to_nat (Usage s)) (members s) = members s.
Proof.
  intros Hp. apply take_ge. rewrite (proper_members_length s Hp). lia.
Qed.

(** The object that [CSet_SymDifference] leaves behind the output
    pointer. *)
Lemma CSet_SymDifference_run (h : gmap nat CSet) pS pA pB O A B :
  h !! pS = Some O → h !! pA = Some A → h !! pB = Some B →
  proper A → proper B →
  0 < Capacity A + Capacity B → Capacity A + Capacity B ≤ UINT32_MAX →
  ∃ S,
    CSet_SymDifference true h pS pA pB = Some (true, <[pS := S]> h) ∧
    proper S ∧
    Capacity S = Capacity A + Capacity B ∧
    (∀ x, x ∈ members S ↔
          (x ∈ members A ∧ x ∉ members B) ∨ (x ∈ members B ∧ x ∉ members A)) ∧
    Usage S = Z.of_nat (length (only_in (members A) (members B)) +
                        length (only_in (members B) (members A))) ∧
    filler S = replicate (Z.to_nat (Capacity S - Usage S)) INT32_MIN.
Proof.
  intros HO HA HB HpA HpB Hpos Hmax.
  pose proof (proper_ascending A HpA) as HascA.
  pose proof (proper_ascending B HpB) as HascB.
  pose proof (proper_members_take A HpA) as HtA.
  pose proof (proper_members_take B HpB) as HtB.
  pose proof HpA as ((HuA & HmA) & _ & HlA & _).
  pose proof HpB as ((HuB & HmB) & _ & HlB & _).
  set (nA := Z.to_nat (Usage A)) in *. set (nB := Z.to_nat (Usage B)) in *.
  set (c := Z.to_nat (Capacity A + Capacity B)).
  destruct (SymDifference_loop_spec A B nA nB) with
    (fuel := S (nA + nB)) (a := 0%nat) (b := 0%nat) (data := replicate c 0) (out := @nil Z)
    as (data' & out & Hrun & Hlen & Htake & Hinv); try done; try lia.
  { rewrite length_replicate. unfold c, nA, nB. lia. }
  { apply merge_inv_start. }
  unfold merge_inv in Hinv. rewrite HtA, HtB in Hinv. destruct Hinv as (Hcount & Hasc & Hmem & _ & _).
  rewrite length_replicate in Hlen.
  assert (Hbound : (length out ≤ c)%nat).
  { rewrite <- Htake. rewrite length_take. lia. }
  exists (difference_with A B out).
  assert (Hm : members (difference_with A B out) = out).
  { unfold members, difference_with. cbn [Usage Data cells].
    rewrite Nat2Z.id. by rewrite take_app_length. }
  assert (Hf : filler (difference_with A B out) = replicate (c - length out) INT32_MIN).
  { unfold filler, difference_with. cbn [Usage Data cells].
    rewrite Nat2Z.id. by rewrite drop_app_length. }
  split_and!.
  - unfold CSet_SymDifference. rewrite HA, HB. cbn [mbind option_bind].
    rewrite (u32_id (Capacity A + Capacity B)) by lia.
    assert (Hc2 : Capacity A + Capacity B = Z.of_nat c) by lia.
    rewrite Hc2. unfold malloc. rewrite Nat2Z.id. fold nA nB.
    cbn [length] in Hrun. change (Z.of_nat 0) with 0 in Hrun.
    rewrite Hrun. cbn [mbind option_bind]. rewrite HO. cbn [mbind option_bind].
    rewrite fill_loop_spec; [|lia..].
    cbn [mbind option_bind]. rewrite (set_fields h pS O) by done.
    do 3 f_equal. unfold difference_with. fold c.
    f_equal; [lia|]. f_equal. rewrite Htake.
    rewrite (drop_ge data') by lia. by rewrite app_nil_r.
  - unfold proper. rewrite Hm, Hf. unfold difference_with. cbn [Usage Data Capacity cells].
    split; [lia|]. split; [split; [lia|done]|]. split; [|split].
    + rewrite length_app, length_replicate. lia.
    + by apply StronglySorted_ascending.
    + by apply Forall_replicate.
  - done.
  - intros x. rewrite Hm. apply Hmem.
  - cbn [difference_with Usage]. by rewrite Hcount.
  - rewrite Hf. cbn [difference_with Usage Capacity]. f_equal. lia.
Qed.

(** X19. [CSet_SymDifference] on operands whose capacities have a positive
    sum that fits in [uint32_t], whatever the output pointer is: the call
    returns true and the object behind the output pointer becomes a proper
    set of capacity [Capacity A + Capacity B] that stores exactly the
    values found in one operand and not in the other. *)
Theorem CSet_SymDifference_correct (h : gmap nat CSet) pS pA pB O A B :
  h !! pS = Some O → h !! pA = Some A → h !! pB = Some B →
  proper A → proper B →
  0 < Capacity A + Capacity B → Capacity A + Capacity B ≤ UINT32_MAX →
  ∃ S,
    CSet_SymDifference true h pS pA pB = Some (true, <[pS := S]> h) ∧
    proper S ∧
    Capacity S = Capacity A + Capacity B ∧
    (∀ x, x ∈ members S ↔
          (x ∈ members A ∧ x ∉ members B) ∨ (x ∈ members B ∧ x ∉ members A)) ∧
    Usage S = Z.of_nat (length (only_in (members A) (members B)) +
                        length (only_in (members B) (members A))) ∧
    filler S = replicate (Z.to_nat (Capacity S - Usage S)) INT32_MIN.
Proof. intros HO HA HB HpA HpB Hpos Hmax. by apply (CSet_SymDifference_run h pS pA pB O A B). Qed.


(** * Evaluation on particular inputs *)

Ltac by_evaluation :=
  first [ apply (bool_decide_unpack _); vm_compute; exact I
        | apply (bool_decide_eq_false_1 _); vm_compute; reflexivity ].

Lemma empty_set_proper : proper empty_set.
Proof. by_evaluation. Qed.

Lemma set_3_proper : proper set_3.
Proof. by_evaluation. Qed.

Lemma set_1_2_proper : proper set_1_2.
Proof. by_evaluation. Qed.

Lemma set_5_proper : proper set_5.
Proof. by_evaluation. Defined.

Lemma set_1_3_5_proper : proper set_1_3_5.
Proof. by_evaluation. Defined.

Lemma zero_block_set_improper : ¬ proper zero_block_set.
Proof. by_evaluation. Qed.

(** C1. [CSet_isSubsetOf(a, b)] is meant to return true exactly when every
    value stored in [a] is stored in [b].  On [a = {3}] and [b = {1, 2}],
    both built by [CSet_Init] and [CSet_Insert] and both proper, it returns
    true although 3 is not in [b]: when [a]'s current value is the greater
    one the loop advances the index into [a], not the one into [b]. *)
Theorem CSet_isSubsetOf_accepts_missing_value :
  (s ← initialized 2; run_calls [call_Insert 3] s) = Some ([true], set_3) ∧
  (s ← initialized 3; run_calls [call_Insert 1; call_Insert 2] s)
    = Some ([true; true], set_1_2) ∧
  proper set_3 ∧ proper set_1_2 ∧
  3 ∈ members set_3 ∧ (3 ∉ members set_1_2) ∧
  CSet_isSubsetOf set_3 set_1_2 = Some true.
Proof.
  split_and!; [by vm_compute | by vm_compute | apply set_3_proper
              | apply set_1_2_proper | by_evaluation | by_evaluation | by vm_compute].
Qed.

(** C2. After a sequence of insertions the stored values are meant to be
    strictly ascending and the set proper.  Starting from [CSet_Init] with
    capacity 2, the successful insertions of 1, 5 and 3 give the proper set
    {1, 3, 5} in four cells; the insertion of 4, which takes the growth
    path, returns true and leaves 1, 3, 4, 4 in the first four cells: 4 is
    stored twice, 5 is lost, and the set is no longer proper. *)
Theorem CSet_Insert_growth_breaks_order :
  (s ← initialized 2; run_calls [call_Insert 1; call_Insert 5; call_Insert 3] s)
    = Some ([true; true; true], set_1_3_5) ∧
  proper set_1_3_5 ∧
  (4 ∉ members set_1_3_5) ∧
  CSet_Insert true set_1_3_5 4 = Some (true, set_1_3_4_4) ∧
  members set_1_3_4_4 = [1; 3; 4; 4] ∧
  Usage set_1_3_4_4 = Usage set_1_3_5 + 1 ∧
  ¬ StronglySorted Z.lt (members set_1_3_4_4) ∧
  ¬ proper set_1_3_4_4.
Proof.
  split_and!; [by vm_compute | apply set_1_3_5_proper | by_evaluation | by vm_compute
              | by vm_compute | by vm_compute | by_evaluation | by_evaluation].
Qed.

(** C3. Inserting a value that is already present is meant to return false
    and to change nothing, on both paths of [CSet_Insert].  The set {5}
    obtained from [CSet_Init] with capacity 1 and one insertion has
    [Usage + 1 = Capacity], so a second insertion of 5 takes the growth
    path: it returns true, stores 5 a second time and raises the
    cardinality from 1 to 2. *)
Theorem CSet_Insert_growth_accepts_duplicate :
  (s ← initialized 1; run_calls [call_Insert 5] s) = Some ([true], set_5) ∧
  proper set_5 ∧
  5 ∈ members set_5 ∧
  ¬ u32 (Usage set_5 + 1) < Capacity set_5 ∧
  CSet_Insert true set_5 5 = Some (true, set_5_5) ∧
  (s ← initialized 1; run_calls [call_Insert 5; call_Insert 5] s)
    = Some ([true; true], set_5_5) ∧
  CSet_Usage set_5 = 1 ∧ CSet_Usage set_5_5 = 2 ∧
  members set_5_5 = [5; 5].
Proof.
  split_and!; [by vm_compute | apply set_5_proper | by_evaluation | by_evaluation
              | by vm_compute | by vm_compute | done | done | by vm_compute].
Qed.

(** C4, as stated, fails: the set that [CSet_Init] builds for capacity 0 is
    proper, has no spare capacity and does not contain 5, yet
    [CSet_Insert] returns false and leaves it empty, because it returns
    early when [Data] is [NULL]. *)
Lemma CSet_Insert_refused_at_capacity_0 :
  initialized 0 = Some empty_set ∧
  proper empty_set ∧
  (5 ∉ members empty_set) ∧
  ¬ u32 (Usage empty_set + 1) < Capacity empty_set ∧
  CSet_Insert true empty_set 5 = Some (false, empty_set).
Proof.
  split_and!; [by vm_compute | apply empty_set_proper | by_evaluation
              | by_evaluation | by vm_compute].
Qed.

(** C4, amended.  A proper set of capacity 0 refuses every insertion and
    stays as it is.  On a proper set of positive capacity at most half of
    [UINT32_MAX] on which [CSet_Insert] takes the growth path
    ([Usage + 1 >= Capacity]), the insertion of a value [v] greater than
    every stored one returns true (allocation succeeding): the new capacity
    is twice the old one, the stored values are the old ones followed by
    [v], every remaining cell holds the filler, and the set is proper.  In
    particular two ascending values inserted into a set initialized with
    capacity 1 are both stored, in order. *)
Theorem CSet_Insert_growth_appends :
  (∀ s v ok, proper s → Capacity s = 0 → CSet_Insert ok s v = Some (false, s)) ∧
  (∀ s v,
     proper s → Capacity s ≤ Usage s + 1 →
     0 < Capacity s → 2 * Capacity s ≤ UINT32_MAX →
     Forall (λ x, x < v) (members s) →
     ∃ s', CSet_Insert true s v = Some (true, s') ∧
           Capacity s' = 2 * Capacity s ∧
           Usage s' = Usage s + 1 ∧
           members s' = members s ++ [v] ∧
           filler s' = replicate (Z.to_nat (Capacity s' - Usage s')) INT32_MIN ∧
           proper s') ∧
  (∀ s0 v1 v2,
     initialized 1 = Some s0 → v1 < v2 →
     ∃ s2, run_calls [call_Insert v1; call_Insert v2] s0 = Some ([true; true], s2) ∧
           members s2 = [v1; v2] ∧ Capacity s2 = 4 ∧ proper s2).
Proof.
  split_and!.
  - intros s v ok (_ & Hnull & _) Hz.
    unfold CSet_Insert. by rewrite (proj1 Hnull Hz).
  - intros s v Hp Hfull Hpos Hmax Hv. exists (appended s v). split_and!.
    + by apply CSet_Insert_growth_append.
    + done.
    + done.
    + by apply appended_members.
    + rewrite appended_filler by done. cbn [appended Capacity Usage]. f_equal. lia.
    + by apply appended_proper.
  - intros s0 v1 v2 [= <-] Hlt.
    set (s0 := mkCSet 1 0 (Block [INT32_MIN])).
    assert (Hp0 : proper s0) by by_evaluation.
    assert (Hp1 : proper (appended s0 v1)) by (by apply appended_proper).
    exists (appended (appended s0 v1) v2). split_and!.
    + cbn [run_calls run_call].
      rewrite (CSet_Insert_growth_append s0 v1); [|done..].
      cbn [mbind option_bind].
      rewrite (CSet_Insert_growth_append (appended s0 v1) v2); [done|done..|].
      rewrite appended_members by done. by repeat constructor.
    + by rewrite !appended_members.
    + done.
    + apply appended_proper; [done..|].
      rewrite appended_members by done. by repeat constructor.
Qed.

Lemma CSet_Insert_growth_appends_witness :
  proper set_5 ∧ Capacity set_5 ≤ Usage set_5 + 1 ∧
  ∃ s', CSet_Insert true set_5 7 = Some (true, s') ∧
        Capacity s' = 2 * Capacity set_5 ∧
        Usage s' = Usage set_5 + 1 ∧
        members s' = members set_5 ++ [7] ∧
        filler s' = replicate (Z.to_nat (Capacity s' - Usage s')) INT32_MIN ∧
        proper s'.
Proof.
  split; [exact set_5_proper|]. split; [vm_compute; discriminate|].
  apply (proj1 (proj2 CSet_Insert_growth_appends) set_5 7 set_5_proper).
  - vm_compute. discriminate.
  - reflexivity.
  - vm_compute. discriminate.
  - apply (bool_decide_unpack _). vm_compute. exact I.
Defined.

(** C5. After [CSet_Remove] has taken [v] out, [CSet_Contains] is meant to
    return false for [v].  On the proper set of the 2^31 values
    0 .. INT32_MAX, removing INT32_MAX returns true and leaves a proper set
    without it, but the following [CSet_Contains] does not return: after its
    first probe [min + max] exceeds [INT32_MAX], the midpoint wraps to a
    negative index and the read of [Data[mid]] falls outside the block. *)
Theorem CSet_Contains_after_Remove_overflows :
  proper full_range_set ∧
  INT32_MAX ∈ members full_range_set ∧
  ∃ s', CSet_Remove full_range_set INT32_MAX = Some (true, s') ∧
        proper s' ∧
        (INT32_MAX ∉ members s') ∧
        CSet_Contains s' INT32_MAX = None.
Proof.
  pose proof full_range_set_proper as Hp. pose proof full_range_set_last as Hk.
  split; [done|]. split; [by eapply list_elem_of_lookup_2|].
  exists (removed (Z.to_nat 2147483647) full_range_set). split_and!.
  - by apply CSet_Remove_found.
  - by eapply removed_proper.
  - by eapply removed_not_elem.
  - apply removed_last_Contains.
Qed.

(** C6. [CSet_Contains] is meant to return true exactly for the stored
    values.  On the proper set of the 2^31 + 1 values -2147483647 .. 1 it
    returns false for 0, which is stored: [Usage - 1] does not fit in the
    [int32_t] variable [max], which becomes negative, and the search loop
    is never entered. *)
Theorem CSet_Contains_misses_value_of_large_set :
  proper large_set ∧ 0 ∈ members large_set ∧ CSet_Contains large_set 0 = Some false.
Proof.
  split_and!; [apply large_set_proper | apply large_set_member | apply large_set_Contains].
Qed.

(** C7. [CSet_Intersection] is meant to leave the output object proper.
    With an operand of capacity 0 (here the set that [CSet_Init] builds for
    size 0) the new block has no cells; when [malloc(0)] returns a non-null
    pointer the call returns true and the output object ends with
    [Capacity = 0] and a non-null [Data], against the first condition of
    properness.  The output is the same whether it is a separate object or
    the operand itself. *)
Theorem CSet_Intersection_zero_capacity :
  proper set_5 ∧ proper empty_set ∧ proper set_1_2 ∧
  CSet_Intersection true (three_sets set_5 empty_set set_1_2) 0 1 2
    = Some (true, three_sets zero_block_set empty_set set_1_2) ∧
  CSet_Intersection true (three_sets set_5 empty_set set_1_2) 1 1 2
    = Some (true, three_sets set_5 zero_block_set set_1_2) ∧
  ¬ proper zero_block_set.
Proof.
  split_and!; [apply set_5_proper | apply empty_set_proper | apply set_1_2_proper
              | by vm_compute | by vm_compute | apply zero_block_set_improper].
Qed.

(** C8. [CSet_SymDifference] is meant to leave the output object proper.
    With two operands of capacity 0 the new block has no cells; when
    [malloc(0)] returns a non-null pointer the call returns true and the
    output object ends with [Capacity = 0] and a non-null [Data], against
    the first condition of properness. *)
Theorem CSet_SymDifference_zero_capacity :
  proper set_5 ∧ proper empty_set ∧
  CSet_SymDifference true (three_sets set_5 empty_set empty_set) 0 1 2
    = Some (true, three_sets zero_block_set empty_set empty_set) ∧
  ¬ proper zero_block_set.
Proof.
  split_and!; [apply set_5_proper | apply empty_set_proper
              | by vm_compute | apply zero_block_set_improper].
Qed.

(** The examples of the specification: {1, 3, 5, 7} and {3, 4, 5, 9} share
    exactly 3 and 5, also when the output object is the first operand;
    {1, 2, 3} and {2, 3, 4} differ in exactly 1 and 4. *)
Example CSet_Intersection_example :
  let a := mkCSet 5 4 (Block [1; 3; 5; 7; INT32_MIN]) in
  let b := mkCSet 4 4 (Block [3; 4; 5; 9]) in
  let r := mkCSet 4 2 (Block [3; 5; INT32_MIN; INT32_MIN]) in
  CSet_Intersection true (three_sets empty_set a b) 0 1 2 = Some (true, three_sets r a b) ∧
  CSet_Intersection true (three_sets empty_set a b) 1 1 2
    = Some (true, three_sets empty_set r b).
Proof. split; by vm_compute. Qed.


Example CSet_SymDifference_example :
  CSet_SymDifference true
    (three_sets empty_set (mkCSet 3 3 (Block [1; 2; 3])) (mkCSet 3 3 (Block [2; 3; 4])))
    0 1 2
  = Some (true,
          three_sets (mkCSet 6 2 (Block [1; 4; INT32_MIN; INT32_MIN; INT32_MIN; INT32_MIN]))
                     (mkCSet 3 3 (Block [1; 2; 3])) (mkCSet 3 3 (Block [2; 3; 4]))).
Proof. by vm_compute. Qed.

Lemma allocation_failure_is_atomic_witness :
  CSet_Insert false set_5 7 = Some (false, set_5) ∧
  CSet_Copy false (three_sets set_5 empty_set set_1_2) 0 2
    = Some (false, three_sets set_5 empty_set set_1_2).
Proof.
  destruct allocation_failure_is_atomic as (_ & _ & Hins & _ & _ & _ & Hcopy & _).
  split.
  - apply Hins; vm_compute; discriminate.
  - apply Hcopy; [discriminate | by eexists | by eexists].
Defined.

Lemma CSet_Remove_recursion_witness :
  proper set_1_3_5 ∧
  ∃ r, CSet_Remove set_1_3_5 1 = Some r ∧
       ∀ depth, CSet_Remove_rec (S (S depth)) set_1_3_5 1 = Some r.
Proof.
  split; [exact set_1_3_5_proper|].
  exact (proj1 (CSet_Remove_recursion set_1_3_5 1 set_1_3_5_proper)).
Defined.

(** * Further properties of the operations *)

Lemma set_1_5_proper : proper set_1_5.
Proof. by_evaluation. Defined.

Lemma half_range_set_proper : proper half_range_set.
Proof. unfold half_range_set. apply range_set_proper; unfold UINT32_MAX; lia. Qed.

(** ** The layout of a proper set *)

Lemma Forall_eq_replicate (l : list Z) x :
  Forall (λ y, y = x) l → l = replicate (length l) x.
Proof.
  induction 1 as [|y l -> _ IH]; [done|]. cbn [length replicate]. by rewrite <- IH.
Qed.

Lemma proper_filler s :
  proper s → filler s = replicate (Z.to_nat (Capacity s - Usage s)) INT32_MIN.
Proof.
  intros ((Hu & Hc) & _ & Hl & _ & Hf).
  rewrite (Forall_eq_replicate _ _ Hf). f_equal.
  unfold filler. rewrite length_drop. lia.
Qed.

Lemma proper_cells s :
  proper s →
  cells (Data s) = members s ++ replicate (Z.to_nat (Capacity s - Usage s)) INT32_MIN.
Proof.
  intros Hp. rewrite <- proper_filler by done. unfold members, filler.
  by rewrite take_drop.
Qed.

(** A proper set is determined by its capacity and the values it stores. *)
Lemma proper_ext s1 s2 :
  proper s1 → proper s2 → Capacity s1 = Capacity s2 → members s1 = members s2 → s1 = s2.
Proof.
  intros Hp1 Hp2 Hc Hm.
  pose proof (proper_members_length s1 Hp1) as Hl1.
  pose proof (proper_members_length s2 Hp2) as Hl2.
  pose proof (proper_cells s1 Hp1) as Hc1.
  pose proof (proper_cells s2 Hp2) as Hc2.
  destruct Hp1 as ((Hu1 & _) & Hn1 & _). destruct Hp2 as ((Hu2 & _) & Hn2 & _).
  assert (Hu : Usage s1 = Usage s2) by (rewrite Hm in Hl1; lia).
  destruct s1 as [c1 u1 d1], s2 as [c2 u2 d2]. cbn [Capacity Usage Data] in *.
  subst c2 u2. f_equal.
  rewrite Hm in Hc1. rewrite <- Hc2 in Hc1.
  destruct d1 as [|l1], d2 as [|l2]; cbn [cells] in Hc1.
  - done.
  - assert (c1 = 0) by (by apply Hn1). exfalso.
    assert (Block l2 = NULL) by (by apply Hn2). done.
  - assert (c1 = 0) by (by apply Hn2). exfalso.
    assert (Block l1 = NULL) by (by apply Hn1). done.
  - by rewrite Hc1.
Qed.

Lemma ascending_NoDup l : ascending l → NoDup l.
Proof.
  intros Ha. apply NoDup_alt. intros i j x Hi Hj. by eapply ascending_inj.
Qed.

Lemma ascending_cons_inv x l : ascending (x :: l) → ascending l ∧ Forall (λ y, x < y) l.
Proof.
  intros Ha. apply StronglySorted_ascending in Ha. inversion Ha; subst.
  split; [by apply StronglySorted_ascending|done].
Qed.

(** Two ascending lists with the same values are the same list. *)
Lemma ascending_ext l1 l2 :
  ascending l1 → ascending l2 → (∀ x, x ∈ l1 ↔ x ∈ l2) → l1 = l2.
Proof.
  revert l2. induction l1 as [|x l1 IH]; intros l2 H1 H2 Hx.
  - destruct l2 as [|y l2]; [done|].
    assert (y ∈ @nil Z) by (apply Hx; left). by apply elem_of_nil in H.
  - destruct l2 as [|y l2].
    { assert (x ∈ @nil Z) by (apply Hx; left). by apply elem_of_nil in H. }
    apply ascending_cons_inv in H1 as [H1 Hlt1].
    apply ascending_cons_inv in H2 as [H2 Hlt2].
    rewrite Forall_forall in Hlt1, Hlt2.
    assert (x = y) as ->.
    { assert (Hxin : x ∈ y :: l2) by (apply Hx; left).
      assert (Hyin : y ∈ x :: l1) by (apply Hx; left).
      apply elem_of_cons in Hxin as [?|Hxin]; [done|].
      apply elem_of_cons in Hyin as [?|Hyin]; [done|].
      apply Hlt2 in Hxin. apply Hlt1 in Hyin. lia. }
    f_equal. apply IH; [done..|].
    intros z. split; intros Hz.
    + assert (z ∈ y :: l2) as [?|?]%elem_of_cons by (apply Hx; by right); [|done].
      subst z. apply Hlt1 in Hz. lia.
    + assert (z ∈ y :: l1) as [?|?]%elem_of_cons by (apply Hx; by right); [|done].
      subst z. apply Hlt2 in Hz. lia.
Qed.

Lemma ascending_delete_filter l (k : nat) v :
  ascending l → l !! k = Some v → delete k l = filter (λ x, x ≠ v) l.
Proof.
  intros Ha Hk. apply ascending_ext.
  - by apply ascending_delete.
  - apply StronglySorted_ascending, StronglySorted_filter.
    by apply StronglySorted_ascending.
  - intros x. rewrite list_elem_of_filter. split.
    + intros Hx. split.
      * intros ->. by eapply ascending_not_elem_delete.
      * apply list_elem_of_lookup_1 in Hx as [j Hj].
        destruct (decide (j < k)%nat).
        -- rewrite list_lookup_delete_lt in Hj by done. by eapply list_elem_of_lookup_2.
        -- rewrite list_lookup_delete_ge in Hj by lia. by eapply list_elem_of_lookup_2.
    + intros [Hne [j Hj]%list_elem_of_lookup_1].
      destruct (decide (j < k)%nat).
      * apply list_elem_of_lookup_2 with j. by rewrite list_lookup_delete_lt.
      * assert (j ≠ k) by (intros ->; congruence).
        apply list_elem_of_lookup_2 with (j - 1)%nat.
        rewrite list_lookup_delete_ge by lia. rewrite <- Hj. f_equal. lia.
Qed.

(** ** The output object of CSet_Intersection *)

Lemma intersection_of_members A B :
  proper A → proper B → 0 < Capacity A → 0 < Capacity B →
  members (intersection_of A B) = common A B.
Proof.
  intros HpA HpB HcA HcB.
  unfold members at 1, intersection_of. cbn [Usage Data cells].
  rewrite Nat2Z.id. by rewrite take_app_length.
Qed.

Lemma common_length A B :
  proper A → proper B →
  Z.of_nat (length (common A B)) ≤ Z.min (Capacity A) (Capacity B).
Proof.
  intros HpA HpB.
  pose proof (proper_members_length A HpA) as HlA.
  pose proof (proper_members_length B HpB) as HlB.
  pose proof (length_filter (λ x, x ∈ members B) (members A)) as Hle.
  assert (common A B ⊆+ members B) as Hsub%submseteq_length.
  { apply NoDup_submseteq.
    - apply NoDup_filter, NoDup_alt. intros i j x Hi Hj.
      apply (ascending_inj (members A) i j x); [by apply proper_ascending|done|done].
    - by intros x [? _]%list_elem_of_filter. }
  destruct HpA as ((? & ?) & _). destruct HpB as ((? & ?) & _).
  unfold common in *. lia.
Qed.

Lemma intersection_of_proper A B :
  proper A → proper B → 0 < Capacity A → 0 < Capacity B →
  proper (intersection_of A B).
Proof.
  intros HpA HpB HcA HcB. pose proof (common_length A B HpA HpB) as Hbound.
  unfold proper. rewrite intersection_of_members by done. unfold filler, intersection_of.
  cbn [Usage Data Capacity cells]. rewrite Nat2Z.id, drop_app_length.
  destruct HpA as ((? & ?) & _ & _ & HsA & _). destruct HpB as ((? & ?) & _).
  split; [lia|]. split; [split; [lia|done]|]. split; [|split].
  - rewrite length_app, length_replicate. lia.
  - by apply StronglySorted_filter.
  - by apply Forall_replicate.
Qed.

(** ** CSet_Init *)

Lemma Init_loop_spec (Sz : nat) :
  Z.of_nat Sz ≤ UINT32_MAX →
  ∀ fuel (i : nat) d, length d = Sz → (i ≤ Sz)%nat → (Sz - i < fuel)%nat →
    Init_loop fuel (Block d) (Z.of_nat Sz) (Z.of_nat i)
    = Some (Block (take i d ++ replicate (Sz - i) INT32_MIN)).
Proof.
  intros Hmax. induction fuel as [|fuel IH]; intros i d Hlen Hi Hfuel; [lia|].
  cbn [Init_loop].
  destruct (decide (0 < Z.of_nat Sz ∧ Z.of_nat i < Z.of_nat Sz)) as [Hlt|Hge].
  - rewrite store_nat by lia. cbn [mbind option_bind]. rewrite u32_succ by lia.
    rewrite IH by (rewrite ?length_insert; lia).
    do 2 f_equal.
    rewrite (take_S_r _ i INT32_MIN) by (apply list_lookup_insert_eq; lia).
    rewrite take_insert_ge by lia. rewrite <- app_assoc. f_equal.
    replace (Sz - i)%nat with (S (Sz - S i)) by lia. done.
  - assert (i = Sz) as -> by lia. rewrite Nat.sub_diag. cbn [replicate].
    by rewrite app_nil_r, take_ge by lia.
Qed.

(** The object that a successful [CSet_Init] leaves behind [pSet]. *)
Lemma fresh_proper Sz :
  0 ≤ Sz ≤ UINT32_MAX → proper (fresh Sz).
Proof.
  intros HSz. unfold fresh, proper, members, filler.
  destruct (decide (Sz = 0)) as [->|Hnz]; cbn [Capacity Usage Data cells].
  - split_and!; try done. constructor.
  - rewrite take_0, drop_0. split_and!; try lia.
    + split; [lia|done].
    + rewrite length_replicate. lia.
    + constructor.
    + by apply Forall_replicate.
Qed.

Lemma CSet_Init_run raw Sz :
  0 ≤ Sz ≤ UINT32_MAX → CSet_Init true (Some raw) Sz = Some (true, Some (fresh Sz)).
Proof.
  intros HSz. unfold CSet_Init, fresh. destruct (decide (Sz > 0)) as [Hpos|Hz].
  - rewrite (decide_False (P := Sz = 0)) by lia. cbn [malloc].
    set (n := Z.to_nat Sz). assert (HSn : Sz = Z.of_nat n) by lia.
    rewrite HSn at 1 2.
    rewrite (Init_loop_spec n) with (i := 0%nat);
      [|lia|by rewrite length_replicate|lia|lia].
    cbn [mbind option_bind]. rewrite take_0, Nat.sub_0_r. cbn [app].
    by rewrite <- HSn.
  - assert (Sz = 0) as -> by lia. rewrite decide_True by done. done.
Qed.

(** X1. [CSet_Init] on a non-null pointer, for any size that fits in
    [uint32_t] and with the allocation succeeding, returns true and leaves
    the object [fresh Sz], whatever the object held before (raw or proper):
    capacity [Sz], no value stored, every cell of the block holding the
    filler, [Data = NULL] exactly when [Sz] is 0; that object is proper.
    For size 0 nothing is allocated, so the outcome does not depend on the
    allocator.  A null pointer is refused with false. *)
Theorem CSet_Init_builds_empty_set raw Sz :
  0 ≤ Sz ≤ UINT32_MAX →
  CSet_Init true (Some raw) Sz = Some (true, Some (fresh Sz)) ∧
  initialized Sz = Some (fresh Sz) ∧
  proper (fresh Sz) ∧
  Capacity (fresh Sz) = Sz ∧
  Usage (fresh Sz) = 0 ∧
  members (fresh Sz) = [] ∧
  cells (Data (fresh Sz)) = replicate (Z.to_nat Sz) INT32_MIN ∧
  (Data (fresh Sz) = NULL ↔ Sz = 0) ∧
  (Sz = 0 → ∀ ok, CSet_Init ok (Some raw) Sz = Some (true, Some (fresh Sz))) ∧
  (∀ ok, CSet_Init ok None Sz = Some (false, None)).
Proof.
  intros HSz. split_and!.
  - by apply CSet_Init_run.
  - unfold initialized. by rewrite CSet_Init_run.
  - by apply fresh_proper.
  - done.
  - done.
  - unfold members, fresh. cbn [Usage]. by rewrite take_0.
  - unfold fresh. cbn [Data]. case_decide as Hz; [by rewrite Hz|done].
  - unfold fresh. cbn [Data]. case_decide; split; done.
  - intros -> ok. unfold CSet_Init. rewrite decide_False by lia. done.
  - done.
Qed.

Lemma CSet_Init_builds_empty_set_witness :
  CSet_Init true (Some set_5) 3 = Some (true, Some (fresh 3)) ∧ proper (fresh 3).
Proof.
  assert (H : 0 ≤ 3 ≤ UINT32_MAX) by (vm_compute; split; discriminate).
  split.
  - exact (proj1 (CSet_Init_builds_empty_set set_5 3 H)).
  - exact (proj1 (proj2 (proj2 (CSet_Init_builds_empty_set set_5 3 H)))).
Defined.

(** ** CSet_Equals *)

Lemma Equals_loop_spec A B (n : nat) :
  Usage A = Z.of_nat n → Z.of_nat n ≤ UINT32_MAX →
  (n ≤ length (cells (Data A)))%nat → (n ≤ length (cells (Data B)))%nat →
  ∀ fuel (i : nat), (i ≤ n)%nat → (n - i < fuel)%nat →
    take i (cells (Data A)) = take i (cells (Data B)) →
    Equals_loop fuel A B (Z.of_nat i)
    = Some (bool_decide (take n (cells (Data A)) = take n (cells (Data B)))).
Proof.
  intros Hu Hmax HlA HlB. induction fuel as [|fuel IH]; intros i Hi Hfuel Hpre; [lia|].
  cbn [Equals_loop]. rewrite Hu.
  destruct (decide (Z.of_nat i < Z.of_nat n)) as [Hlt|Hge].
  - assert (is_Some (cells (Data A) !! i)) as [x Hx] by (apply lookup_lt_is_Some; lia).
    assert (is_Some (cells (Data B) !! i)) as [y Hy] by (apply lookup_lt_is_Some; lia).
    rewrite (load_cells _ _ _ Hx), (load_cells _ _ _ Hy). cbn [mbind option_bind].
    destruct (decide (x ≠ y)) as [Hne|Heq].
    + rewrite bool_decide_eq_false_2; [done|]. intros Heq. apply Hne.
      assert (take n (cells (Data A)) !! i = Some x) as Hx'
        by (rewrite lookup_take_lt by lia; done).
      rewrite Heq, lookup_take_lt in Hx' by lia. congruence.
    + assert (x = y) as -> by (destruct (decide (x = y)); [done|by destruct Heq]).
      rewrite u32_succ by lia. apply IH; [lia|lia|].
      by rewrite (take_S_r _ _ _ Hx), (take_S_r _ _ _ Hy), Hpre.
  - assert (i = n) as -> by lia. by rewrite bool_decide_eq_true_2.
Qed.

Lemma CSet_Equals_spec A B :
  proper A → proper B →
  CSet_Equals A B = Some (bool_decide (members A = members B)).
Proof.
  intros HA HB.
  pose proof (proper_members_length A HA) as HlA.
  pose proof (proper_members_length B HB) as HlB.
  destruct (proper_lengths A HA) as [HuA HcA].
  destruct (proper_lengths B HB) as [HuB HcB].
  unfold CSet_Equals. destruct (decide (Usage A ≠ Usage B)) as [Hne|Heq].
  - rewrite bool_decide_eq_false_2; [done|]. intros Heq. rewrite Heq in HlA. lia.
  - assert (Hu : Usage A = Usage B) by lia.
    rewrite (Equals_loop_spec A B (Z.to_nat (Usage A))) with (i := 0%nat);
      [|lia|lia|lia|lia|lia|lia|by rewrite !take_0].
    unfold members. by rewrite <- Hu.
Qed.

(** X13. [CSet_Equals] on two proper sets returns without reading outside
    the blocks, and returns true exactly when the two sets store the same
    values, that is, when their stored sequences are equal; the capacities
    play no role. *)
Theorem CSet_Equals_correct A B :
  proper A → proper B →
  ∃ b, CSet_Equals A B = Some b ∧
       (b = true ↔ ∀ x, x ∈ members A ↔ x ∈ members B) ∧
       (b = true ↔ members A = members B).
Proof.
  intros HA HB. exists (bool_decide (members A = members B)).
  split; [by apply CSet_Equals_spec|].
  rewrite bool_decide_eq_true. split; [|done]. split.
  - by intros ->.
  - intros Hx. apply ascending_ext; [by apply proper_ascending..|done].
Qed.

Lemma CSet_Equals_correct_witness :
  ∃ b, CSet_Equals set_1_2 set_3 = Some b ∧
       (b = true ↔ ∀ x, x ∈ members set_1_2 ↔ x ∈ members set_3) ∧
       (b = true ↔ members set_1_2 = members set_3).
Proof. exact (CSet_Equals_correct set_1_2 set_3 set_1_2_proper set_3_proper). Defined.

(** ** CSet_isSubsetOf *)

Lemma members_load s (k : nat) x : members s !! k = Some x → load (Data s) (Z.of_nat k) = Some x.
Proof.
  unfold members. intros [Hk _]%lookup_take_Some. by apply load_cells.
Qed.

Section isSubsetOf_loop.
Context (A B : CSet) (nA nB : nat).
Hypothesis HuA : Usage A = Z.of_nat nA.
Hypothesis HuB : Usage B = Z.of_nat nB.
Hypothesis HmA : Z.of_nat nA ≤ UINT32_MAX.
Hypothesis HmB : Z.of_nat nB ≤ UINT32_MAX.
Hypothesis HlA : length (members A) = nA.
Hypothesis HlB : length (members B) = nB.
Hypothesis HascA : ascending (members A).
Hypothesis HascB : ascending (members B).

(** Every answer [false] of the scan comes with a value of [A] that [B]
    does not store. *)
Lemma isSubsetOf_loop_spec :
  ∀ fuel (a b : nat),
    (a ≤ nA)%nat → (b ≤ nB)%nat → (nA - a < fuel)%nat →
    (∀ (ka kb : nat) xa xb,
       (a ≤ ka)%nat → (kb < b)%nat →
       members A !! ka = Some xa → members B !! kb = Some xb → xb < xa) →
    ∃ r, isSubsetOf_loop fuel A B (Z.of_nat a) (Z.of_nat b) = Some r ∧
         (r = false → ∃ x, x ∈ members A ∧ x ∉ members B).
Proof.
  induction fuel as [|fuel IH]; intros a b Ha Hb Hfuel Hinv; [lia|].
  cbn [isSubsetOf_loop]. rewrite HuA, HuB.
  destruct (decide (Z.of_nat a < Z.of_nat nA ∧ Z.of_nat b < Z.of_nat nB)) as [[Hlta Hltb]|Hexit].
  - assert (is_Some (members A !! a)) as [x Hx] by (apply lookup_lt_is_Some; lia).
    assert (is_Some (members B !! b)) as [y Hy] by (apply lookup_lt_is_Some; lia).
    rewrite (members_load _ _ _ Hx), (members_load _ _ _ Hy). cbn [mbind option_bind].
    destruct (decide (x > y)) as [Hgt|Hle].
    + rewrite (u32_id (Z.of_nat nB - 1)) by lia.
      destruct (decide (Z.of_nat b = Z.of_nat nB - 1)) as [Hlast|Hnot].
      * eexists. split; [done|]. intros _. exists x. split; [by eapply list_elem_of_lookup_2|].
        intros [j Hj]%list_elem_of_lookup_1.
        assert (j < nB)%nat by (apply lookup_lt_Some in Hj; lia).
        destruct (decide (j = b)) as [->|]; [simplify_eq; lia|].
        assert (x < y) by (apply (HascB j b); [done|done|lia]). lia.
      * rewrite u32_succ by lia. apply IH; [lia|lia|lia|].
        intros ka kb xa xb Hka Hkb. apply Hinv; lia.
    + destruct (decide (x = y)) as [->|Hne].
      * rewrite !u32_succ by lia. apply IH; [lia|lia|lia|].
        intros ka kb xa xb Hka Hkb Hxa Hxb. destruct (decide (kb = b)) as [->|].
        -- assert (xb = y) as -> by congruence. apply (HascA a ka); [done|done|lia].
        -- apply (Hinv ka kb); [lia|lia|done|done].
      * eexists. split; [done|]. intros _. exists x. split; [by eapply list_elem_of_lookup_2|].
        intros [j Hj]%list_elem_of_lookup_1. destruct (decide (j < b)%nat).
        -- assert (x < x) by (apply (Hinv a j); [lia|lia|done|done]). lia.
        -- destruct (decide (j = b)) as [->|]; [simplify_eq; lia|].
           assert (y < x) by (apply (HascB b j); [done|done|lia]). lia.
  - eexists. split; [done|]. intros Hr.
    apply negb_false_iff, bool_decide_eq_true in Hr.
    assert (is_Some (members A !! a)) as [x Hx] by (apply lookup_lt_is_Some; lia).
    exists x. split; [by eapply list_elem_of_lookup_2|].
    intros [j Hj]%list_elem_of_lookup_1.
    assert (j < nB)%nat by (apply lookup_lt_Some in Hj; lia).
    assert (x < x) by (apply (Hinv a j); [lia|lia|done|done]). lia.
Qed.

End isSubsetOf_loop.

Lemma CSet_isSubsetOf_spec A B :
  proper A → proper B →
  ∃ r, CSet_isSubsetOf A B = Some r ∧
       (r = false → ∃ x, x ∈ members A ∧ x ∉ members B).
Proof.
  intros HA HB.
  pose proof (proper_members_length A HA) as HlA.
  pose proof (proper_members_length B HB) as HlB.
  destruct (proper_lengths A HA) as [HuA _].
  destruct (proper_lengths B HB) as [HuB _].
  unfold CSet_isSubsetOf. destruct (decide (Usage A > Usage B)) as [Hgt|Hle].
  - eexists. split; [done|]. intros _.
    destruct (Forall_Exists_dec (λ x, x ∈ members B) (λ x, x ∉ members B)
                (λ x, decide (x ∈ members B)) (members A)) as [Hall|Hex].
    + exfalso. rewrite Forall_forall in Hall.
      assert (members A ⊆+ members B) as Hsub%submseteq_length.
      { apply NoDup_submseteq; [|done]. by apply ascending_NoDup, proper_ascending. }
      lia.
    + apply Exists_exists in Hex as (x & Hx & Hnx). by exists x.
  - apply (isSubsetOf_loop_spec A B (Z.to_nat (Usage A)) (Z.to_nat (Usage B)))
      with (a := 0%nat) (b := 0%nat); try lia; try done.
    + by apply proper_ascending.
    + by apply proper_ascending.
Qed.

Lemma CSet_isSubsetOf_subset A B :
  proper A → proper B → (∀ x, x ∈ members A → x ∈ members B) →
  CSet_isSubsetOf A B = Some true.
Proof.
  intros HpA HpB Hsub.
  destruct (CSet_isSubsetOf_spec A B HpA HpB) as ([|] & Hrun & Hfalse); [done|].
  destruct Hfalse as (x & Hx & Hnx); [done|]. by apply Hsub in Hx.
Qed.

(** X14. [CSet_isSubsetOf] on two proper sets returns without reading
    outside the blocks, and every answer false is right: it comes with a
    value that [A] stores and [B] does not.  So a set whose values are all
    stored in [B] is never rejected; in particular every proper set is
    accepted as a subset of itself. *)
Theorem CSet_isSubsetOf_never_rejects_subset A B :
  proper A → proper B →
  (∃ r, CSet_isSubsetOf A B = Some r ∧
        (r = false → ∃ x, x ∈ members A ∧ x ∉ members B)) ∧
  ((∀ x, x ∈ members A → x ∈ members B) → CSet_isSubsetOf A B = Some true) ∧
  CSet_isSubsetOf A A = Some true.
Proof.
  intros HpA HpB. split_and!.
  - by apply CSet_isSubsetOf_spec.
  - by apply CSet_isSubsetOf_subset.
  - by apply CSet_isSubsetOf_subset.
Qed.

Lemma CSet_isSubsetOf_never_rejects_subset_witness :
  (∀ x, x ∈ members set_3 → x ∈ members set_1_3_5) ∧
  CSet_isSubsetOf set_3 set_1_3_5 = Some true.
Proof.
  assert (Hsub : ∀ x, x ∈ members set_3 → x ∈ members set_1_3_5).
  { intros x Hx. change (x ∈ [3]) in Hx. apply list_elem_of_singleton in Hx as ->.
    apply (bool_decide_unpack _). vm_compute. exact I. }
  split; [exact Hsub|].
  exact (proj1 (proj2 (CSet_isSubsetOf_never_rejects_subset
                         set_3 set_1_3_5 set_3_proper set_1_3_5_proper)) Hsub).
Defined.

(** ** CSet_Insert, growth path, any value *)

Section Insert_merge.
Context (d : list Z) (n k : nat) (v : Z).
Hypothesis Hlen : (n ≤ length d)%nat.
Hypothesis Hmax : Z.of_nat n < UINT32_MAX.
Hypothesis Hk : (k ≤ n)%nat.
Hypothesis Hbelow : ∀ (j : nat) x, (j < k)%nat → d !! j = Some x → x < v.
Hypothesis Hstop : ∀ x, (k < n)%nat → d !! k = Some x → ¬ x < v.

(** Once the old value at [j = k] is not smaller than [v] (or the old
    values are exhausted), [j] no longer moves and every remaining cell up
    to index [n] receives [v]. *)
Lemma Insert_merge_stuck :
  ∀ fuel (i : nat) new, (n < length new)%nat → (k ≤ i ≤ S n)%nat → (S n - i < fuel)%nat →
    Insert_merge fuel (Block d) (Z.of_nat n) v (Block new) (Z.of_nat (S n))
                 (Z.of_nat i) (Z.of_nat k)
    = Some (Block (take i new ++ replicate (S n - i) v ++ drop (S n) new), Z.of_nat (S n)).
Proof.
  induction fuel as [|fuel IH]; intros i new Hnew Hi Hfuel; [lia|].
  cbn [Insert_merge]. destruct (decide (Z.of_nat i < Z.of_nat (S n))) as [Hlt|Hge].
  - assert (Hold : (if decide (Z.of_nat k < Z.of_nat n)
                    then x ← load (Block d) (Z.of_nat k); Some (bool_decide (x < v))
                    else Some false) = Some false).
    { destruct (decide (Z.of_nat k < Z.of_nat n)); [|done].
      assert (is_Some (d !! k)) as [x Hx] by (apply lookup_lt_is_Some; lia).
      rewrite load_nat, Hx. cbn [mbind option_bind].
      rewrite bool_decide_eq_false_2; [done|]. apply Hstop; [lia|done]. }
    rewrite Hold. cbn [mbind option_bind].
    rewrite store_nat by lia. cbn [mbind option_bind]. rewrite u32_succ by lia.
    rewrite IH by (rewrite ?length_insert; lia).
    do 3 f_equal.
    rewrite (take_S_r _ i v) by (apply list_lookup_insert_eq; lia).
    rewrite take_insert_ge by lia. rewrite drop_insert_lt by lia.
    rewrite <- app_assoc. f_equal.
    replace (S n - i)%nat with (S (S n - S i)) by lia. done.
  - assert (i = S n) as -> by lia. rewrite Nat.sub_diag. cbn [replicate app].
    by rewrite take_drop.
Qed.

Lemma Insert_merge_spec :
  ∀ fuel (i : nat) new, (n < length new)%nat → (i ≤ k)%nat → (S n - i < fuel)%nat →
    Insert_merge fuel (Block d) (Z.of_nat n) v (Block new) (Z.of_nat (S n))
                 (Z.of_nat i) (Z.of_nat i)
    = Some (Block (take i new ++ drop i (take k d) ++ replicate (S n - k) v ++
                   drop (S n) new),
            Z.of_nat (S n)).
Proof.
  induction fuel as [|fuel IH]; intros i new Hnew Hi Hfuel; [lia|].
  destruct (decide (i = k)) as [->|Hik].
  { rewrite Insert_merge_stuck by lia.
    by rewrite (drop_ge (take k d)) by (rewrite length_take; lia). }
  cbn [Insert_merge]. rewrite decide_True by lia. rewrite decide_True by lia.
  assert (is_Some (d !! i)) as [x Hx] by (apply lookup_lt_is_Some; lia).
  assert (Hxv : x < v) by (apply (Hbelow i); [lia|done]).
  rewrite load_nat, Hx. cbn [mbind option_bind].
  rewrite bool_decide_eq_true_2 by done.
  rewrite store_nat by lia. cbn [mbind option_bind].
  rewrite u32_succ by lia. rewrite IH by (rewrite ?length_insert; lia).
  do 3 f_equal.
  rewrite (take_S_r _ i x) by (apply list_lookup_insert_eq; lia).
  rewrite take_insert_ge by lia. rewrite !drop_insert_lt by lia.
  rewrite <- app_assoc. f_equal.
  rewrite (drop_S (take k d) x i) by (rewrite lookup_take_lt by lia; done).
  done.
Qed.

End Insert_merge.

(** In an ascending list the values below [v] form a prefix. *)
Lemma ascending_filter_lt l v :
  ascending l →
  filter (λ x, x < v) l = take (length (filter (λ x, x < v) l)) l ∧
  (∀ x, l !! length (filter (λ x, x < v) l) = Some x → ¬ x < v).
Proof.
  induction l as [|y l IH]; intros Ha; [done|].
  apply ascending_cons_inv in Ha as [Ha Hy]. destruct (IH Ha) as [IH1 IH2].
  destruct (decide (y < v)) as [Hlt|Hge].
  - rewrite filter_cons_True by done. cbn [length take lookup]. split.
    + by rewrite <- IH1.
    + done.
  - rewrite filter_cons_False by done.
    assert (Hnone : filter (λ x, x < v) l = []).
    { apply filter_nothing. intros x Hx. rewrite Forall_forall in Hy.
      specialize (Hy x Hx). lia. }
    rewrite Hnone. cbn [length take lookup]. split; [done|].
    intros x [= <-]. done.
Qed.

Lemma grown_appended s v :
  proper s → Forall (λ x, x < v) (members s) → grown s v = appended s v.
Proof.
  intros Hp Hv. unfold grown, appended.
  assert (Hall : filter (λ x, x < v) (members s) = members s).
  { clear Hp. induction Hv as [|x l Hx _ IH]; [done|].
    by rewrite filter_cons_True, IH by done. }
  rewrite Hall. replace (S (length (members s)) - length (members s))%nat with 1%nat by lia.
  done.
Qed.

Lemma grown_members s v :
  proper s →
  members (grown s v)
  = filter (λ x, x < v) (members s) ++
    replicate (S (length (members s)) - length (filter (λ x, x < v) (members s))) v.
Proof.
  intros Hp. pose proof (proper_members_length s Hp) as Hl.
  pose proof Hp as ((Hu & Hc) & _).
  pose proof (length_filter (λ x, x < v) (members s)) as Hf.
  unfold grown. unfold members at 1. cbn [Usage Data cells].
  rewrite app_assoc. rewrite take_app_length'; [done|].
  rewrite length_app, length_replicate. lia.
Qed.

Lemma CSet_Insert_growth_run s v :
  proper s → 0 < Capacity s → 2 * Capacity s ≤ UINT32_MAX →
  Capacity s ≤ Usage s + 1 →
  CSet_Insert true s v = Some (true, grown s v).
Proof.
  intros Hp Hpos Hmax Hfull. pose proof (proper_members_length s Hp) as Hl.
  pose proof (proper_ascending s Hp) as Hasc.
  pose proof Hp as ((Hu & Hc) & _ & Hlen & _).
  destruct (proper_Block s Hp Hpos) as (d & Hd & Hdl).
  destruct (ascending_filter_lt (members s) v Hasc) as [Hpre Hstop].
  pose proof (length_filter (λ x, x < v) (members s)) as Hkn.
  unfold CSet_Insert. rewrite Hd.
  rewrite (u32_id (Usage s + 1)) by lia.
  rewrite decide_False by lia. rewrite decide_False by lia.
  rewrite (u32_id (Capacity s * 2)) by lia.
  unfold malloc.
  set (n := Z.to_nat (Usage s)) in *.
  set (c := Z.to_nat (Capacity s * 2)).
  assert (Hc2 : Capacity s * 2 = Z.of_nat c) by lia.
  rewrite Hc2. rewrite ?Nat2Z.id.
  replace (Usage s + 1) with (Z.of_nat (S n)) by lia.
  replace (Usage s) with (Z.of_nat n) at 1 by lia.
  unfold grown. set (below := filter (λ x, x < v) (members s)) in *.
  set (k := length below) in *.
  assert (Hm : members s = take n d) by (unfold members; by rewrite Hd).
  assert (Hbk : below = take k d).
  { rewrite Hpre, Hm, take_take. f_equal. lia. }
  rewrite (Insert_merge_spec d n k v) with (i := 0%nat);
    [|lia|lia|lia| | |rewrite length_replicate; lia|lia|lia].
  - cbn [mbind option_bind]. rewrite take_0, drop_0. cbn [app].
    assert (Hlen1 : length (take k d ++ replicate (S n - k) v) = S n).
    { rewrite length_app, length_take, length_replicate. lia. }
    rewrite fill_loop_spec;
      [|lia|rewrite app_assoc, length_app, length_drop, length_replicate; lia
       |lia|lia].
    cbn [mbind option_bind].
    assert (Hcap : 2 * Capacity s = Z.of_nat c) by lia. rewrite Hcap.
    do 4 f_equal; [lia|].
    rewrite (app_assoc (take k d)).
    rewrite take_app_length' by done.
    rewrite <- app_assoc, <- Hbk, Hl. f_equal. f_equal.
    rewrite drop_ge.
    + rewrite app_nil_r. f_equal. lia.
    + assert (length below = k) by done.
      rewrite !length_app, length_drop, !length_replicate. lia.
  - intros j x Hj Hx.
    assert (x ∈ below) as Hin.
    { rewrite Hbk. apply elem_of_take. exists j. split; [done|lia]. }
    by apply list_elem_of_filter in Hin as [? _].
  - intros x Hkn' Hx. apply Hstop. rewrite Hm. fold k.
    by rewrite lookup_take_lt by lia.
Qed.

Lemma replicate_not_ascending (l : list Z) (m : nat) v t :
  (2 ≤ m)%nat → ¬ ascending (l ++ replicate m v ++ t).
Proof.
  intros Hm Ha.
  assert (v < v); [|lia].
  apply (Ha (length l) (S (length l))); [| |lia].
  - rewrite lookup_app_r, Nat.sub_diag by lia.
    rewrite lookup_app_l by (rewrite length_replicate; lia).
    apply lookup_replicate_2. lia.
  - rewrite lookup_app_r by lia. replace (S (length l) - length l)%nat with 1%nat by lia.
    rewrite lookup_app_l by (rewrite length_replicate; lia).
    apply lookup_replicate_2. lia.
Qed.

Lemma grown_proper_iff s v :
  proper s → 0 < Capacity s → 2 * Capacity s ≤ UINT32_MAX →
  proper (grown s v) ↔ Forall (λ x, x < v) (members s).
Proof.
  intros Hp Hpos Hmax. split.
  - intros Hg. apply proper_ascending in Hg. rewrite grown_members in Hg by done.
    set (below := filter (λ x, x < v) (members s)) in *.
    pose proof (length_filter (λ x, x < v) (members s)) as Hle. fold below in Hle.
    destruct (decide (length below = length (members s))) as [Heq|Hne].
    + apply Forall_forall. intros x Hx. destruct (decide (x < v)) as [|Hge]; [done|].
      pose proof (length_filter_lt (λ x, x < v) (members s) x Hx Hge). fold below in H. lia.
    + exfalso. rewrite <- (app_nil_r (replicate _ v)) in Hg.
      apply replicate_not_ascending in Hg; [done|lia].
  - intros Hv. rewrite grown_appended by done. by apply appended_proper.
Qed.

(** X5. [CSet_Insert] on its growth path ([Usage + 1 >= Capacity]), for a
    proper set of positive capacity at most half of [UINT32_MAX] and any
    value [v], with the allocation succeeding: the call always returns
    true, the capacity doubles and [Usage] grows by one; the new block
    holds the old values smaller than [v], then [v] in every cell up to
    index [Usage], then the filler.  The old values that are not smaller
    than [v] are not copied.  The resulting set is proper exactly when [v]
    is greater than every value stored before. *)
Theorem CSet_Insert_growth_exact s v :
  proper s → 0 < Capacity s → Capacity s ≤ Usage s + 1 → 2 * Capacity s ≤ UINT32_MAX →
  CSet_Insert true s v = Some (true, grown s v) ∧
  Capacity (grown s v) = 2 * Capacity s ∧
  Usage (grown s v) = Usage s + 1 ∧
  members (grown s v)
  = filter (λ x, x < v) (members s) ++
    replicate (S (length (members s)) - length (filter (λ x, x < v) (members s))) v ∧
  filler (grown s v) = replicate (Z.to_nat (2 * Capacity s - Usage s - 1)) INT32_MIN ∧
  (proper (grown s v) ↔ Forall (λ x, x < v) (members s)).
Proof.
  intros Hp Hpos Hfull Hmax. split_and!.
  - by apply CSet_Insert_growth_run.
  - done.
  - done.
  - by apply grown_members.
  - pose proof (proper_members_length s Hp) as Hl.
    pose proof Hp as ((Hu & Hc) & _).
    pose proof (length_filter (λ x, x < v) (members s)) as Hf.
    unfold grown. unfold filler at 1. cbn [Usage Data cells].
    rewrite app_assoc. rewrite drop_app_length'; [done|].
    rewrite length_app, length_replicate. lia.
  - by apply grown_proper_iff.
Qed.

Lemma CSet_Insert_growth_exact_witness :
  CSet_Insert true set_1_3_5 4 = Some (true, grown set_1_3_5 4) ∧
  members (grown set_1_3_5 4) = [1; 3; 4; 4].
Proof.
  assert (H1 : 0 < Capacity set_1_3_5) by reflexivity.
  assert (H2 : Capacity set_1_3_5 ≤ Usage set_1_3_5 + 1) by (vm_compute; discriminate).
  assert (H3 : 2 * Capacity set_1_3_5 ≤ UINT32_MAX) by (vm_compute; discriminate).
  split.
  - exact (proj1 (CSet_Insert_growth_exact set_1_3_5 4 set_1_3_5_proper H1 H2 H3)).
  - reflexivity.
Defined.

(** ** Insert and Remove as operations on the stored values *)

Lemma filter_ne_absent (l : list Z) v : v ∉ l → filter (λ x, x ≠ v) l = l.
Proof.
  induction l as [|y l IH]; intros Hv; [done|].
  apply not_elem_of_cons in Hv as [Hne Hv].
  rewrite filter_cons_True by done. by rewrite IH.
Qed.

Lemma CSet_Remove_spec s v :
  proper s →
  ∃ s', CSet_Remove s v = Some (bool_decide (v ∈ members s), s') ∧
        proper s' ∧
        Capacity s' = Capacity s ∧
        members s' = filter (λ x, x ≠ v) (members s) ∧
        Usage s' = Usage s - (if bool_decide (v ∈ members s) then 1 else 0) ∧
        (v ∉ members s → s' = s).
Proof.
  intros Hp. destruct (decide (v ∈ members s)) as [Hin|Hout].
  - rewrite bool_decide_eq_true_2 by done.
    pose proof Hin as [k Hk]%list_elem_of_lookup_1. exists (removed k s). split_and!.
    + by apply CSet_Remove_found.
    + by eapply removed_proper.
    + done.
    + rewrite (removed_members s v k) by done.
      apply ascending_delete_filter; [by apply proper_ascending|done].
    + done.
    + done.
  - rewrite bool_decide_eq_false_2 by done. exists s. split_and!; try done.
    + by apply CSet_Remove_absent.
    + by rewrite filter_ne_absent.
    + lia.
Qed.

(** X8. [CSet_Remove] on any proper set returns, with true exactly when
    the value was stored.  The set stays proper, its capacity is unchanged,
    the stored values are the old ones without [v], in the same order;
    [Usage] drops by one if [v] was stored, and otherwise the object is
    left exactly as it was. *)
Theorem CSet_Remove_correct s v :
  proper s →
  ∃ s', CSet_Remove s v = Some (bool_decide (v ∈ members s), s') ∧
        proper s' ∧
        Capacity s' = Capacity s ∧
        members s' = filter (λ x, x ≠ v) (members s) ∧
        (∀ x, x ∈ members s' ↔ x ∈ members s ∧ x ≠ v) ∧
        Usage s' = Usage s - (if bool_decide (v ∈ members s) then 1 else 0) ∧
        (v ∉ members s → s' = s).
Proof.
  intros Hp. destruct (CSet_Remove_spec s v Hp) as (s' & Hrun & Hp' & Hc & Hm & Hu & Hid).
  exists s'. split_and!; try done.
  intros x. rewrite Hm, list_elem_of_filter. tauto.
Qed.

Lemma CSet_Remove_correct_witness :
  ∃ s', CSet_Remove set_1_3_5 3 = Some (bool_decide (3 ∈ members set_1_3_5), s') ∧
        proper s' ∧
        Capacity s' = Capacity set_1_3_5 ∧
        members s' = filter (λ x, x ≠ 3) (members set_1_3_5) ∧
        (∀ x, x ∈ members s' ↔ x ∈ members set_1_3_5 ∧ x ≠ 3) ∧
        Usage s' = Usage set_1_3_5 - (if bool_decide (3 ∈ members set_1_3_5) then 1 else 0) ∧
        (3 ∉ members set_1_3_5 → s' = set_1_3_5).
Proof. exact (CSet_Remove_correct set_1_3_5 3 set_1_3_5_proper). Defined.

Lemma CSet_Insert_spec s v :
  proper s → Usage s + 1 < Capacity s →
  ∃ s', (∀ ok, CSet_Insert ok s v = Some (bool_decide (v ∉ members s), s')) ∧
        proper s' ∧
        Capacity s' = Capacity s ∧
        (∀ x, x ∈ members s' ↔ x = v ∨ x ∈ members s) ∧
        Usage s' = Usage s + (if bool_decide (v ∈ members s) then 0 else 1) ∧
        (v ∈ members s → s' = s).
Proof.
  intros Hp Hroom. destruct (CSet_Insert_in_place_run s v Hp Hroom) as [Hdup Hnew].
  destruct (decide (v ∈ members s)) as [Hin|Hout].
  - rewrite bool_decide_eq_false_2 by (by intros ?).
    rewrite bool_decide_eq_true_2 by done.
    exists s. split_and!; try done.
    + by apply Hdup.
    + intros x. split; [by right|]. by intros [->|?].
    + lia.
  - rewrite bool_decide_eq_true_2 by done. rewrite bool_decide_eq_false_2 by done.
    destruct (Hnew Hout) as (i & Hrun & Hmem & Hprop).
    exists (inserted i s v). split_and!; try done.
    intros x. rewrite Hmem, elem_of_app, elem_of_cons.
    assert (x ∈ members s ↔ x ∈ take i (members s) ∨ x ∈ drop i (members s)) as ->
      by (by rewrite <- elem_of_app, take_drop).
    tauto.
Qed.

Lemma contents_elem_of s x : x ∈ contents s ↔ x ∈ members s.
Proof. unfold contents. apply elem_of_list_to_set. Qed.

(** A proper set is determined by its capacity and the set of its values. *)
Lemma proper_contents_ext s1 s2 :
  proper s1 → proper s2 → Capacity s1 = Capacity s2 →
  (∀ x, x ∈ members s1 ↔ x ∈ members s2) → s1 = s2.
Proof.
  intros H1 H2 Hc Hx. apply proper_ext; [done..|].
  apply ascending_ext; [by apply proper_ascending..|done].
Qed.

(** X12. While no insertion can reach the growth path, a [CSet] behaves as
    the mathematical set of its values.  For a proper set [s] and any
    sequence [cs] of insertions and removals with
    [Usage s + length cs < Capacity s], every call returns, the values the
    calls return are those of the reference semantics on finite sets
    ([abstract_calls]: an insertion answers whether the value was new, a
    removal whether it was present), the final object is proper, has the
    capacity of [s], and stores exactly the values of the final reference
    set. *)
Theorem CSet_calls_refine_abstract_set cs s :
  proper s → Usage s + Z.of_nat (length cs) < Capacity s →
  ∃ s', run_calls cs s = Some ((abstract_calls cs (contents s)).1, s') ∧
        proper s' ∧
        Capacity s' = Capacity s ∧
        Usage s' ≤ Usage s + Z.of_nat (length cs) ∧
        contents s' = (abstract_calls cs (contents s)).2.
Proof.
  revert s. induction cs as [|c cs IH]; intros s Hp Hroom.
  { exists s. cbn. split_and!; try done. lia. }
  cbn [length] in *. cbn [run_calls abstract_calls].
  assert (∃ s1, run_call s c = Some ((abstract_call (contents s) c).1, s1) ∧
                proper s1 ∧ Capacity s1 = Capacity s ∧ Usage s1 ≤ Usage s + 1 ∧
                contents s1 = (abstract_call (contents s) c).2)
    as (s1 & Hrun & Hp1 & Hc1 & Hu1 & Hm1).
  { destruct c as [v|v]; cbn [run_call abstract_call fst snd].
    - destruct (CSet_Insert_spec s v Hp) as (s1 & Hrun & Hp1 & Hc1 & Hx & Hu1 & _); [lia|].
      exists s1. split_and!; try done.
      + rewrite Hrun. do 2 f_equal. apply bool_decide_ext.
        by rewrite contents_elem_of.
      + rewrite Hu1. case_bool_decide; lia.
      + apply set_eq. intros x. rewrite contents_elem_of, Hx.
        rewrite elem_of_union, elem_of_singleton, contents_elem_of. done.
    - destruct (CSet_Remove_spec s v Hp) as (s1 & Hrun & Hp1 & Hc1 & Hx & Hu1 & _).
      exists s1. split_and!; try done.
      + rewrite Hrun. do 2 f_equal. apply bool_decide_ext.
        by rewrite contents_elem_of.
      + rewrite Hu1. case_bool_decide; lia.
      + apply set_eq. intros x. rewrite contents_elem_of, Hx.
        rewrite list_elem_of_filter.
        rewrite elem_of_difference, elem_of_singleton, contents_elem_of. tauto. }
  destruct (IH s1 Hp1) as (s2 & Hrun2 & Hp2 & Hc2 & Hu2 & Hm2); [lia|].
  rewrite Hrun. cbn [mbind option_bind].
  destruct (abstract_call (contents s) c) as [b m1] eqn:Hac. cbn [fst snd] in *.
  rewrite Hrun2. cbn [mbind option_bind]. rewrite Hm1 in *.
  destruct (abstract_calls cs m1) as [bs m2] eqn:Hacs. cbn [fst snd] in *.
  exists s2. split_and!; [done|done|lia|lia|done].
Qed.

Lemma CSet_calls_refine_abstract_set_witness :
  ∃ s', run_calls [call_Insert 3; call_Insert 1; call_Remove 3; call_Insert 1] (fresh 8)
        = Some ([true; true; true; false], s') ∧
        proper s' ∧ Capacity s' = 8.
Proof.
  assert (Hp : proper (fresh 8)) by (apply (bool_decide_unpack _); vm_compute; exact I).
  assert (Hroom : Usage (fresh 8) +
                  Z.of_nat (length [call_Insert 3; call_Insert 1; call_Remove 3; call_Insert 1])
                  < Capacity (fresh 8)) by reflexivity.
  destruct (CSet_calls_refine_abstract_set _ (fresh 8) Hp Hroom)
    as (s' & Hrun & Hp' & Hc & _).
  exists s'. split; [|split; [exact Hp'|exact Hc]].
  rewrite Hrun. vm_compute. reflexivity.
Defined.

(** ** Round trips *)

(** X11. [CSet_Insert] and [CSet_Remove] undo each other.  On a proper
    set with spare capacity, inserting a value that is not stored and then
    removing it gives back the object as it was, cell for cell; on a proper
    set that is not full, removing a stored value and inserting it again
    does the same. *)
Theorem CSet_Insert_Remove_inverse s v :
  proper s →
  (Usage s + 1 < Capacity s → v ∉ members s →
   ∃ s', (∀ ok, CSet_Insert ok s v = Some (true, s')) ∧
         v ∈ members s' ∧
         CSet_Remove s' v = Some (true, s)) ∧
  (Usage s < Capacity s → v ∈ members s →
   ∃ s', CSet_Remove s v = Some (true, s') ∧
         (v ∉ members s') ∧
         ∀ ok, CSet_Insert ok s' v = Some (true, s)).
Proof.
  intros Hp. split.
  - intros Hroom Hv.
    destruct (CSet_Insert_spec s v Hp Hroom) as (s1 & Hrun & Hp1 & Hc1 & Hx & _).
    rewrite bool_decide_eq_true_2 in Hrun by done.
    assert (Hin : v ∈ members s1) by (apply Hx; by left).
    destruct (CSet_Remove_spec s1 v Hp1) as (s2 & Hrun2 & Hp2 & Hc2 & Hm2 & _).
    rewrite bool_decide_eq_true_2 in Hrun2 by done.
    exists s1. split_and!; [done|done|].
    rewrite Hrun2. do 2 f_equal.
    apply proper_contents_ext; [done|done|congruence|].
    intros x. rewrite Hm2, list_elem_of_filter, Hx. split.
    + intros [Hne [?|?]]; done.
    + intros Hxs. split; [|by right]. by intros ->.
  - intros Hroom Hv.
    destruct (CSet_Remove_spec s v Hp) as (s1 & Hrun & Hp1 & Hc1 & Hm1 & Hu1 & _).
    rewrite bool_decide_eq_true_2 in Hrun, Hu1 by done.
    assert (Hout : v ∉ members s1).
    { rewrite Hm1. by intros [? _]%list_elem_of_filter. }
    destruct (CSet_Insert_spec s1 v Hp1) as (s2 & Hrun2 & Hp2 & Hc2 & Hx & _); [lia|].
    rewrite bool_decide_eq_true_2 in Hrun2 by done.
    exists s1. split_and!; [done|done|].
    intros ok. rewrite Hrun2. do 2 f_equal.
    apply proper_contents_ext; [done|done|congruence|].
    intros x. rewrite Hx, Hm1, list_elem_of_filter. split.
    + intros [->|[_ ?]]; done.
    + intros Hxs. destruct (decide (x = v)); [by left|by right].
Qed.

Lemma CSet_Insert_Remove_inverse_witness :
  (∃ s', (∀ ok, CSet_Insert ok set_1_5 3 = Some (true, s')) ∧
         3 ∈ members s' ∧
         CSet_Remove s' 3 = Some (true, set_1_5)) ∧
  (∃ s', CSet_Remove set_1_5 5 = Some (true, s') ∧
         (5 ∉ members s') ∧
         ∀ ok, CSet_Insert ok s' 5 = Some (true, set_1_5)).
Proof.
  pose proof set_1_5_proper as Hp.
  split.
  - apply (proj1 (CSet_Insert_Remove_inverse set_1_5 3 Hp)).
    + reflexivity.
    + apply (bool_decide_unpack _). vm_compute. exact I.
  - apply (proj2 (CSet_Insert_Remove_inverse set_1_5 5 Hp)).
    + reflexivity.
    + apply (bool_decide_unpack _). vm_compute. exact I.
Defined.

(** X10. [CSet_Insert] followed by [CSet_Contains].  On a proper set with
    spare capacity and fewer than 2^30 values, after the insertion of [v]
    (whether it was accepted, or refused because [v] was already stored),
    [CSet_Contains] finds [v], and answers for every other value what it
    answered before the insertion. *)
Theorem CSet_Insert_then_Contains s v :
  proper s → Usage s + 1 < Capacity s → Usage s < 1073741824 →
  ∃ b s', (∀ ok, CSet_Insert ok s v = Some (b, s')) ∧
          CSet_Contains s' v = Some true ∧
          ∀ w, w ≠ v → CSet_Contains s' w = CSet_Contains s w.
Proof.
  intros Hp Hroom Hsmall.
  destruct (CSet_Insert_spec s v Hp Hroom) as (s1 & Hrun & Hp1 & Hc1 & Hx & Hu1 & _).
  assert (Usage s1 ≤ 1073741824) by (rewrite Hu1; case_bool_decide; lia).
  eexists _, s1. split_and!; [done| |].
  - rewrite CSet_Contains_spec by done. rewrite bool_decide_eq_true_2; [done|].
    apply Hx. by left.
  - intros w Hw. rewrite !CSet_Contains_spec by (done || lia). f_equal.
    apply bool_decide_ext. rewrite Hx. split; [by intros [?|?]|by right].
Qed.

Lemma CSet_Insert_then_Contains_witness :
  ∃ b s', (∀ ok, CSet_Insert ok set_1_5 3 = Some (b, s')) ∧
          CSet_Contains s' 3 = Some true ∧
          ∀ w, w ≠ 3 → CSet_Contains s' w = CSet_Contains set_1_5 w.
Proof.
  pose proof set_1_5_proper as Hp.
  apply (CSet_Insert_then_Contains set_1_5 3 Hp); reflexivity.
Defined.

(** ** Algebra of CSet_Intersection *)

Lemma common_elem_of A B x : x ∈ common A B ↔ x ∈ members A ∧ x ∈ members B.
Proof. unfold common. rewrite list_elem_of_filter. tauto. Qed.

Lemma common_comm A B : proper A → proper B → common A B = common B A.
Proof.
  intros HpA HpB. apply ascending_ext.
  - apply StronglySorted_ascending, StronglySorted_filter.
    by destruct HpA as (_ & _ & _ & ? & _).
  - apply StronglySorted_ascending, StronglySorted_filter.
    by destruct HpB as (_ & _ & _ & ? & _).
  - intros x. rewrite !common_elem_of. tauto.
Qed.

Lemma intersection_of_comm A B :
  proper A → proper B → intersection_of A B = intersection_of B A.
Proof.
  intros HpA HpB. unfold intersection_of.
  by rewrite (common_comm A B), (Z.min_comm (Capacity A)) by done.
Qed.

Lemma filter_everything {X} (Q : X → Prop) `{∀ x, Decision (Q x)} (l : list X) :
  (∀ x, x ∈ l → Q x) → filter Q l = l.
Proof.
  induction l as [|y l IH]; intros HQ; [done|].
  rewrite filter_cons_True by (apply HQ; left).
  rewrite IH; [done|]. intros x Hx. apply HQ. by right.
Qed.

Lemma common_self A : common A A = members A.
Proof. unfold common. by apply filter_everything. Qed.

Lemma intersection_of_self A : proper A → 0 < Capacity A → intersection_of A A = A.
Proof.
  intros Hp Hc. apply proper_ext.
  - by apply intersection_of_proper.
  - done.
  - cbn [intersection_of Capacity]. lia.
  - rewrite intersection_of_members by done. apply common_self.
Qed.

(** X16. [CSet_Intersection] does not depend on the order of its operands,
    and the intersection of a set with itself is a copy of it: for proper
    operands of positive capacity, swapping [pA] and [pB] gives the same
    result and the same store, and with both operand pointers equal the
    output object becomes equal to the operand (same capacity, same
    cells). *)
Theorem CSet_Intersection_algebra (h : gmap nat CSet) pI pA pB O A B :
  h !! pI = Some O → h !! pA = Some A → h !! pB = Some B →
  proper A → proper B → 0 < Capacity A → 0 < Capacity B →
  CSet_Intersection true h pI pA pB = CSet_Intersection true h pI pB pA ∧
  CSet_Intersection true h pI pA pA = Some (true, <[pI := A]> h).
Proof.
  intros HO HA HB HpA HpB HcA HcB. split.
  - rewrite (proj1 (CSet_Intersection_run h pI pA pB O A B HO HA HB HpA HpB HcA HcB)).
    rewrite (proj1 (CSet_Intersection_run h pI pB pA O B A HO HB HA HpB HpA HcB HcA)).
    by rewrite intersection_of_comm.
  - rewrite (proj1 (CSet_Intersection_run h pI pA pA O A A HO HA HA HpA HpA HcA HcA)).
    by rewrite intersection_of_self.
Qed.

Lemma CSet_Intersection_algebra_witness :
  CSet_Intersection true (three_sets set_5 set_1_3_5 set_1_2) 0 1 2
  = CSet_Intersection true (three_sets set_5 set_1_3_5 set_1_2) 0 2 1 ∧
  CSet_Intersection true (three_sets set_5 set_1_3_5 set_1_2) 0 1 1
  = Some (true, <[0%nat := set_1_3_5]> (three_sets set_5 set_1_3_5 set_1_2)).
Proof.
  apply (CSet_Intersection_algebra (three_sets set_5 set_1_3_5 set_1_2) 0 1 2
           set_5 set_1_3_5 set_1_2);
    [reflexivity | reflexivity | reflexivity
    | exact set_1_3_5_proper | exact set_1_2_proper | reflexivity | reflexivity].
Defined.

(** X18. [CSet_Intersection] with an operand of capacity 0 (a proper set
    built by [CSet_Init] with size 0), when [malloc(0)] returns a non-null
    pointer: whatever the other operand and the old output object are, the
    call returns true and leaves [Capacity = 0], [Usage = 0] and a block
    without cells behind the output pointer.  That object is not proper;
    [CSet_Insert] accepts it all the same: it is the one case in which the
    test [capacity <= 0] of the growth path succeeds, and the insertion
    yields the proper set of capacity 2 that stores the value alone. *)
Theorem CSet_Intersection_empty_operand (h : gmap nat CSet) pI pA pB O A B :
  h !! pI = Some O → h !! pA = Some A → h !! pB = Some B →
  proper A → proper B → Capacity A = 0 ∨ Capacity B = 0 →
  CSet_Intersection true h pI pA pB = Some (true, <[pI := zero_block_set]> h) ∧
  ¬ proper zero_block_set ∧
  ∀ v, CSet_Insert true zero_block_set v = Some (true, mkCSet 2 1 (Block [v; INT32_MIN])) ∧
       proper (mkCSet 2 1 (Block [v; INT32_MIN])).
Proof.
  intros HO HA HB HpA HpB Hzero. split_and!.
  - destruct HpA as ((HuA & HmA) & _). destruct HpB as ((HuB & HmB) & _).
    unfold CSet_Intersection. rewrite HA, HB. cbn [mbind option_bind].
    assert (Hcap : (if decide (Capacity A > Capacity B) then Capacity B else Capacity A) = 0)
      by (case_decide; lia).
    rewrite Hcap. cbn [malloc]. change (Z.to_nat 0) with 0%nat. cbn [replicate].
    assert (Hloop : Intersection_loop (S (Z.to_nat (Usage A) + Z.to_nat (Usage B))) A B
                      (Block []) 0 0 0 = Some (Block [], 0)).
    { cbn [Intersection_loop]. by rewrite decide_False by lia. }
    rewrite Hloop. cbn [mbind option_bind]. rewrite HO. cbn [mbind option_bind].
    cbn [fill_loop]. rewrite decide_False by lia. cbn [mbind option_bind].
    by rewrite (set_fields h pI O).
  - apply zero_block_set_improper.
  - intros v. split; [by vm_compute|].
    unfold proper, members, filler. cbn [Capacity Usage Data cells].
    change (Z.to_nat 1) with 1%nat. cbn [take drop].
    split_and!; try done.
    + by repeat constructor.
    + by repeat constructor.
Qed.

Lemma CSet_Intersection_empty_operand_witness :
  CSet_Intersection true (three_sets set_5 empty_set set_1_2) 0 1 2
  = Some (true, <[0%nat := zero_block_set]> (three_sets set_5 empty_set set_1_2)).
Proof.
  apply (CSet_Intersection_empty_operand (three_sets set_5 empty_set set_1_2) 0 1 2
           set_5 empty_set set_1_2);
    [reflexivity | reflexivity | reflexivity
    | exact empty_set_proper | exact set_1_2_proper | left; reflexivity].
Defined.

(** ** Algebra of CSet_SymDifference *)

Lemma only_in_elem_of l k x : x ∈ only_in l k ↔ x ∈ l ∧ x ∉ k.
Proof. unfold only_in. by rewrite list_elem_of_filter; tauto. Qed.

(** X20. [CSet_SymDifference] does not depend on the order of its
    operands, and the symmetric difference of a set with itself is empty:
    for proper operands whose capacities have a positive sum that fits in
    [uint32_t], swapping [pA] and [pB] gives the same result and the same
    store; with both operand pointers equal the output object becomes the
    empty set of twice the capacity, every cell holding the filler. *)
Theorem CSet_SymDifference_algebra (h : gmap nat CSet) pS pA pB O A B :
  h !! pS = Some O → h !! pA = Some A → h !! pB = Some B →
  proper A → proper B →
  0 < Capacity A + Capacity B → Capacity A + Capacity B ≤ UINT32_MAX →
  CSet_SymDifference true h pS pA pB = CSet_SymDifference true h pS pB pA ∧
  (0 < Capacity A → 2 * Capacity A ≤ UINT32_MAX →
   CSet_SymDifference true h pS pA pA = Some (true, <[pS := fresh (2 * Capacity A)]> h)).
Proof.
  intros HO HA HB HpA HpB Hpos Hmax. split.
  - destruct (CSet_SymDifference_run h pS pA pB O A B)
      as (S1 & Hrun1 & Hp1 & Hc1 & Hx1 & _); try done.
    destruct (CSet_SymDifference_run h pS pB pA O B A)
      as (S2 & Hrun2 & Hp2 & Hc2 & Hx2 & _); try done; try lia.
    rewrite Hrun1, Hrun2. do 3 f_equal.
    apply proper_contents_ext; [done|done|lia|].
    intros x. rewrite Hx1, Hx2. tauto.
  - intros HposA HmaxA.
    destruct (CSet_SymDifference_run h pS pA pA O A A)
      as (S1 & Hrun1 & Hp1 & Hc1 & Hx1 & _); try done; try lia.
    rewrite Hrun1. do 3 f_equal.
    apply proper_contents_ext; [done|apply fresh_proper; lia|cbn [fresh Capacity]; lia|].
    intros x. rewrite Hx1. split; [tauto|].
    unfold fresh, members. cbn [Usage]. rewrite take_0. by intros ?%elem_of_nil.
Qed.

Lemma CSet_SymDifference_algebra_witness :
  CSet_SymDifference true (three_sets set_5 set_1_3_5 set_1_2) 0 1 2
  = CSet_SymDifference true (three_sets set_5 set_1_3_5 set_1_2) 0 2 1 ∧
  (0 < Capacity set_1_3_5 → 2 * Capacity set_1_3_5 ≤ UINT32_MAX →
   CSet_SymDifference true (three_sets set_5 set_1_3_5 set_1_2) 0 1 1
   = Some (true, <[0%nat := fresh (2 * Capacity set_1_3_5)]>
                   (three_sets set_5 set_1_3_5 set_1_2))).
Proof.
  apply (CSet_SymDifference_algebra (three_sets set_5 set_1_3_5 set_1_2) 0 1 2
           set_5 set_1_3_5 set_1_2);
    [reflexivity | reflexivity | reflexivity
    | exact set_1_3_5_proper | exact set_1_2_proper | reflexivity
    | vm_compute; discriminate].
Defined.

(** ** CSet_Copy *)

Lemma Copy_loop_spec Source (d : list Z) :
  Data Source = Block d → Capacity Source = Z.of_nat (length d) →
  Capacity Source ≤ UINT32_MAX →
  ∀ fuel (i : nat) new,
    length new = length d → (i ≤ length d)%nat → (length d - i < fuel)%nat →
    take i new = take i d →
    Copy_loop fuel Source (Block new) (Z.of_nat i) = Some (Block d).
Proof.
  intros Hd Hc Hmax. induction fuel as [|fuel IH]; intros i new Hlen Hi Hfuel Hpre; [lia|].
  cbn [Copy_loop]. rewrite Hc, Hd.
  destruct (decide (Z.of_nat i < Z.of_nat (length d))) as [Hlt|Hge].
  - assert (is_Some (d !! i)) as [x Hx] by (apply lookup_lt_is_Some; lia).
    rewrite load_nat, Hx. cbn [mbind option_bind].
    rewrite store_nat by lia. cbn [mbind option_bind]. rewrite u32_succ by lia.
    apply IH; [by rewrite length_insert|lia|lia|].
    rewrite (take_S_r d i x) by done.
    rewrite (take_S_r _ i x) by (apply list_lookup_insert_eq; lia).
    rewrite take_insert_ge by lia. by rewrite Hpre.
  - assert (i = length d) as -> by lia.
    rewrite take_ge in Hpre by lia. rewrite (take_ge d) in Hpre by lia. by rewrite Hpre.
Qed.

Lemma set_fields_Copy (h : gmap nat CSet) p T d0 d u c :
  h !! p = Some T →
  set_Capacity (set_Usage (set_Data (set_Data h p d0) p d) p u) p c
  = <[p := mkCSet c u d]> h.
Proof.
  intros HT. unfold set_Capacity, set_Data, set_Usage. apply map_eq. intros i.
  rewrite !lookup_alter, lookup_insert. destruct (decide (p = i)) as [->|]; [|done].
  rewrite !decide_True by done. by rewrite HT.
Qed.

(** X22. [CSet_Copy] from a proper source of positive capacity into a
    different object, with the allocation succeeding: the call returns
    true, the target becomes equal to the source (same capacity, same
    [Usage], a block with the same cells, filler included), whatever it
    held before and whether or not it was proper, and no other object of
    the store changes; [CSet_Equals] then answers true on the two.  When
    both pointers are equal the call returns true at once and changes
    nothing. *)
Theorem CSet_Copy_correct (h : gmap nat CSet) pT pS T S :
  pT ≠ pS → h !! pT = Some T → h !! pS = Some S →
  proper S → 0 < Capacity S →
  CSet_Copy true h pT pS = Some (true, <[pT := S]> h) ∧
  <[pT := S]> h !! pT = Some S ∧
  <[pT := S]> h !! pS = Some S ∧
  (∀ p, p ≠ pT → <[pT := S]> h !! p = h !! p) ∧
  CSet_Equals S S = Some true ∧
  (∀ ok, CSet_Copy ok h pS pS = Some (true, h)).
Proof.
  intros Hne HT HS Hp Hpos. split_and!.
  - destruct (proper_Block S Hp Hpos) as (d & Hd & Hdl).
    pose proof Hp as ((Hu & Hc) & _).
    unfold CSet_Copy. rewrite decide_False by done. rewrite HT, HS. cbn [mbind option_bind].
    rewrite (lookup_set_Data h pT _ T) by done. cbn [mbind option_bind Data malloc].
    rewrite (Copy_loop_spec S d) with (i := 0%nat);
      [|done|lia|lia|rewrite length_replicate; lia|lia|lia|by rewrite !take_0].
    cbn [mbind option_bind]. rewrite (set_fields_Copy h pT T) by done.
    do 3 f_equal. destruct S as [c u dS]. cbn [Capacity Usage Data] in *. by subst.
  - apply lookup_insert_eq.
  - by rewrite lookup_insert_ne.
  - intros p Hp'. by rewrite lookup_insert_ne.
  - rewrite CSet_Equals_spec by done. by rewrite bool_decide_eq_true_2.
  - intros ok. unfold CSet_Copy. by rewrite decide_True.
Qed.

Lemma CSet_Copy_correct_witness :
  CSet_Copy true (three_sets set_5 set_1_3_5 set_1_2) 0 1
  = Some (true, <[0%nat := set_1_3_5]> (three_sets set_5 set_1_3_5 set_1_2)).
Proof.
  apply (CSet_Copy_correct (three_sets set_5 set_1_3_5 set_1_2) 0 1 set_5 set_1_3_5);
    [discriminate | reflexivity | reflexivity | exact set_1_3_5_proper | reflexivity].
Defined.

(** X23. [CSet_Copy] from a proper source of capacity 0 into a different
    object, when [malloc(0)] returns a non-null pointer: the call returns
    true and leaves [Capacity = 0], [Usage = 0] and a block without cells
    in the target, which is then not proper (a capacity of 0 requires
    [Data = NULL]). *)
Theorem CSet_Copy_zero_capacity (h : gmap nat CSet) pT pS T S :
  pT ≠ pS → h !! pT = Some T → h !! pS = Some S →
  proper S → Capacity S = 0 →
  CSet_Copy true h pT pS = Some (true, <[pT := zero_block_set]> h) ∧
  ¬ proper zero_block_set.
Proof.
  intros Hne HT HS Hp Hzero. split; [|apply zero_block_set_improper].
  pose proof Hp as ((Hu & Hc) & _).
  unfold CSet_Copy. rewrite decide_False by done. rewrite HT, HS. cbn [mbind option_bind].
  rewrite (lookup_set_Data h pT _ T) by done. rewrite Hzero.
  change (Z.to_nat 0) with 0%nat.
  cbn [mbind option_bind Data malloc replicate Copy_loop].
  rewrite Hzero. rewrite decide_False by lia. cbn [mbind option_bind].
  rewrite (set_fields_Copy h pT T) by done.
  do 3 f_equal. unfold zero_block_set. f_equal. lia.
Qed.

Lemma CSet_Copy_zero_capacity_witness :
  CSet_Copy true (three_sets set_5 empty_set set_1_2) 0 1
  = Some (true, <[0%nat := zero_block_set]> (three_sets set_5 empty_set set_1_2)).
Proof.
  apply (CSet_Copy_zero_capacity (three_sets set_5 empty_set set_1_2) 0 1 set_5 empty_set);
    [discriminate | reflexivity | reflexivity | exact empty_set_proper | reflexivity].
Defined.

(** ** CSet_Insert, growth path, capacities from 2^31 on *)

Lemma store_overrun d (k : nat) v : (length d ≤ k)%nat → store (Block d) (Z.of_nat k) v = None.
Proof. intros. unfold store. by rewrite decide_False by lia. Qed.

(** A new block with no more cells than the old set has values cannot
    receive the [Usage + 1] cells that the copy loop writes. *)
Lemma Insert_merge_overrun d (n : nat) v :
  (n ≤ length d)%nat → Z.of_nat n < UINT32_MAX →
  ∀ fuel (i j : nat) new,
    (length new ≤ n)%nat → (j ≤ i ≤ length new)%nat →
    Insert_merge fuel (Block d) (Z.of_nat n) v (Block new) (Z.of_nat (S n))
                 (Z.of_nat i) (Z.of_nat j) = None.
Proof.
  intros Hlen Hmax. induction fuel as [|fuel IH]; intros i j new Hnew Hij; [done|].
  cbn [Insert_merge]. rewrite decide_True by lia.
  destruct (decide (Z.of_nat j < Z.of_nat n)) as [Hj|Hj].
  - assert (is_Some (d !! j)) as [x Hx] by (apply lookup_lt_is_Some; lia).
    rewrite load_nat, Hx. cbn [mbind option_bind].
    destruct (decide (i = length new)) as [->|Hne].
    + rewrite !store_overrun by lia. by destruct (bool_decide (x < v)).
    + rewrite !store_nat by lia. cbn [mbind option_bind]. rewrite !u32_succ by lia.
      destruct (bool_decide (x < v)); apply IH; rewrite ?length_insert; lia.
  - cbn [mbind option_bind]. destruct (decide (i = length new)) as [->|Hne].
    + by rewrite store_overrun by lia.
    + rewrite store_nat by lia. cbn [mbind option_bind]. rewrite u32_succ by lia.
      apply IH; rewrite ?length_insert; lia.
Qed.

(** X6. [CSet_Insert] on its growth path for a proper set whose capacity
    is 2^31 or more (and whose [Usage + 1] still fits in [uint32_t]): the
    new capacity [capacity * 2] wraps around in [uint32_t] to a value that
    is not greater than [Usage], so the new block has fewer cells than the
    copy loop writes, and the loop stores past its end.  The call has no
    defined result. *)
Theorem CSet_Insert_growth_overflow s v :
  proper s → 2147483648 ≤ Capacity s → Capacity s ≤ Usage s + 1 →
  Usage s < UINT32_MAX →
  CSet_Insert true s v = None.
Proof.
  intros Hp Hbig Hfull Hu.
  pose proof Hp as ((Hu0 & Hc) & _ & Hlen & _).
  destruct (proper_Block s Hp) as (d & Hd & Hdl); [lia|].
  unfold UINT32_MAX in *.
  assert (Hwrap : u32 (Capacity s * 2) = Capacity s * 2 - 4294967296).
  { unfold u32. symmetry. apply (Z.mod_unique _ _ 1); lia. }
  unfold CSet_Insert. rewrite Hd.
  rewrite (u32_id (Usage s + 1)) by (unfold UINT32_MAX; lia).
  rewrite decide_False by lia. rewrite decide_False by lia.
  rewrite Hwrap. unfold malloc.
  set (n := Z.to_nat (Usage s)).
  replace (Usage s + 1) with (Z.of_nat (S n)) by lia.
  replace (Usage s) with (Z.of_nat n) at 1 by lia.
  rewrite (Insert_merge_overrun d n v) with (i := 0%nat) (j := 0%nat);
    [done|lia|unfold UINT32_MAX; lia|rewrite length_replicate; lia|lia].
Qed.

Lemma CSet_Insert_growth_overflow_witness :
  proper half_range_set ∧ CSet_Insert true half_range_set 0 = None.
Proof.
  pose proof half_range_set_proper as Hp.
  assert (H1 : 2147483648 ≤ Capacity half_range_set)
    by (unfold half_range_set, range_set; cbn [Capacity]; lia).
  assert (H2 : Capacity half_range_set ≤ Usage half_range_set + 1)
    by (unfold half_range_set, range_set; cbn [Capacity Usage]; lia).
  assert (H3 : Usage half_range_set < UINT32_MAX)
    by (unfold half_range_set, range_set, UINT32_MAX; cbn [Usage]; lia).
  split; [exact Hp|].
  exact (CSet_Insert_growth_overflow half_range_set 0 Hp H1 H2 H3).
Defined.

(** ** CSet_SymDifference applied twice *)

(** X21. [CSet_SymDifference] applied twice with the same second operand
    gives back the values of the first: after the symmetric difference of
    [A] and [B] has been stored behind [pS], the symmetric difference of
    that object with [B], written over it ([pS] is both the output and the
    first operand), is a proper set that stores exactly the values of [A],
    in a block of [Capacity A + 2 * Capacity B] cells. *)
Theorem CSet_SymDifference_twice (h : gmap nat CSet) pS pA pB O A B :
  h !! pS = Some O → h !! pA = Some A → h !! pB = Some B → pS ≠ pB →
  proper A → proper B →
  0 < Capacity A + Capacity B → Capacity A + 2 * Capacity B ≤ UINT32_MAX →
  ∃ S1 S2,
    CSet_SymDifference true h pS pA pB = Some (true, <[pS := S1]> h) ∧
    CSet_SymDifference true (<[pS := S1]> h) pS pS pB = Some (true, <[pS := S2]> h) ∧
    proper S2 ∧
    members S2 = members A ∧
    Capacity S2 = Capacity A + 2 * Capacity B.
Proof.
  intros HO HA HB Hne HpA HpB Hpos Hmax.
  assert (0 ≤ Capacity B) by (destruct HpB as ((? & ?) & _); lia).
  destruct (CSet_SymDifference_run h pS pA pB O A B)
    as (S1 & Hrun1 & Hp1 & Hc1 & Hx1 & _); try done; try lia.
  destruct (CSet_SymDifference_run (<[pS := S1]> h) pS pS pB S1 S1 B)
    as (S2 & Hrun2 & Hp2 & Hc2 & Hx2 & _); try done; try lia.
  { apply lookup_insert_eq. }
  { apply lookup_insert_eq. }
  { by rewrite lookup_insert_ne. }
  rewrite insert_insert_eq in Hrun2.
  exists S1, S2. split_and!; [done|done|done| |lia].
  apply ascending_ext; [by apply proper_ascending..|].
  intros x. rewrite Hx2, Hx1.
  destruct (decide (x ∈ members A)), (decide (x ∈ members B)); tauto.
Qed.


Lemma CSet_SymDifference_twice_witness :
  ∃ S1 S2,
    CSet_SymDifference true (three_sets set_5 set_1_3_5 set_1_2) 0 1 2
    = Some (true, <[0%nat := S1]> (three_sets set_5 set_1_3_5 set_1_2)) ∧
    CSet_SymDifference true (<[0%nat := S1]> (three_sets set_5 set_1_3_5 set_1_2)) 0 0 2
    = Some (true, <[0%nat := S2]> (three_sets set_5 set_1_3_5 set_1_2)) ∧
    proper S2 ∧
    members S2 = members set_1_3_5 ∧
    Capacity S2 = Capacity set_1_3_5 + 2 * Capacity set_1_2.
Proof.
  apply (CSet_SymDifference_twice (three_sets set_5 set_1_3_5 set_1_2) 0 1 2
           set_5 set_1_3_5 set_1_2);
    [reflexivity | reflexivity | reflexivity | discriminate
    | exact set_1_3_5_proper | exact set_1_2_proper | reflexivity
    | vm_compute; discriminate].
Defined.

(** ** Insertions in ascending order, across any number of growth steps *)

Lemma CSet_Insert_above s v :
  proper s → 0 < Capacity s → Forall (λ x, x < v) (members s) →
  2 * (Usage s + 1) ≤ UINT32_MAX →
  ∃ s', CSet_Insert true s v = Some (true, s') ∧
        proper s' ∧
        members s' = members s ++ [v] ∧
        Usage s' = Usage s + 1 ∧
        (Capacity s' = Capacity s ∨ Capacity s' = 2 * Capacity s ∧ Capacity s ≤ Usage s + 1).
Proof.
  intros Hp Hpos Hv Hmax.
  assert (Hout : v ∉ members s).
  { intros Hin. rewrite Forall_forall in Hv. apply Hv in Hin. lia. }
  destruct (decide (Usage s + 1 < Capacity s)) as [Hroom|Hfull].
  - destruct (CSet_Insert_spec s v Hp Hroom) as (s1 & Hrun & Hp1 & Hc1 & Hx & Hu1 & _).
    rewrite bool_decide_eq_true_2 in Hrun by done.
    rewrite bool_decide_eq_false_2 in Hu1 by done.
    exists s1. split_and!; [done|done| |done|by left].
    apply ascending_ext.
    + by apply proper_ascending.
    + apply ascending_snoc; [by apply proper_ascending|done].
    + intros x. rewrite Hx, elem_of_app, list_elem_of_singleton. tauto.
  - exists (appended s v). split_and!.
    + apply CSet_Insert_growth_append; [done|done|lia|lia|done].
    + apply appended_proper; [done|done|lia|done].
    + by apply appended_members.
    + done.
    + right. split; [done|lia].
Qed.

(** X7. Insertions in ascending order are always right, through any
    number of growth steps.  On a proper set of positive capacity, inserting
    the values [vs] one after the other, where [vs] is strictly ascending
    and starts above every stored value, and where twice the final number
    of values fits in [uint32_t]: every call returns true (allocations
    succeeding), the final set is proper and stores the old values followed
    by [vs]; its capacity is at least the old one and at most the larger of
    the old one and twice the final number of values. *)
Theorem CSet_Insert_ascending_sequence vs s :
  proper s → 0 < Capacity s →
  StronglySorted Z.lt (members s ++ vs) →
  2 * (Usage s + Z.of_nat (length vs)) ≤ UINT32_MAX →
  ∃ s', run_calls (call_Insert <$> vs) s = Some (replicate (length vs) true, s') ∧
        proper s' ∧
        members s' = members s ++ vs ∧
        Capacity s ≤ Capacity s' ∧
        Capacity s' ≤ Z.max (Capacity s) (2 * (Usage s + Z.of_nat (length vs))).
Proof.
  revert s. induction vs as [|v vs IH]; intros s Hp Hpos Hsort Hmax.
  { exists s. cbn. rewrite app_nil_r. split_and!; try done; lia. }
  cbn [length] in Hmax.
  assert (Hv : Forall (λ x, x < v) (members s)).
  { apply StronglySorted_ascending in Hsort. apply Forall_forall.
    intros x [k Hk]%list_elem_of_lookup_1.
    apply (Hsort k (length (members s))); [by apply lookup_app_l_Some| |].
    - rewrite lookup_app_r, Nat.sub_diag by lia. done.
    - by apply lookup_lt_Some in Hk. }
  destruct (CSet_Insert_above s v Hp Hpos Hv) as (s1 & Hrun & Hp1 & Hm1 & Hu1 & Hc1); [lia|].
  destruct (IH s1 Hp1) as (s2 & Hrun2 & Hp2 & Hm2 & Hc2 & Hc2'); [lia| |lia|].
  { rewrite Hm1, <- app_assoc. done. }
  exists s2. cbn [fmap list_fmap run_calls run_call length replicate].
  rewrite Hrun. cbn [mbind option_bind].
  change (list_fmap Z call call_Insert vs) with (call_Insert <$> vs).
  rewrite Hrun2. cbn [mbind option_bind].
  split_and!; [done|done| |lia|lia].
  rewrite Hm2, Hm1, <- app_assoc. done.
Qed.

Lemma CSet_Insert_ascending_sequence_witness :
  ∃ s', run_calls (call_Insert <$> [7; 8; 9; 20; 21]) set_5
        = Some (replicate (length [7; 8; 9; 20; 21]) true, s') ∧
        proper s' ∧
        members s' = members set_5 ++ [7; 8; 9; 20; 21] ∧
        Capacity set_5 ≤ Capacity s' ∧
        Capacity s' ≤ Z.max (Capacity set_5)
                            (2 * (Usage set_5 + Z.of_nat (length [7; 8; 9; 20; 21]))).
Proof.
  apply (CSet_Insert_ascending_sequence [7; 8; 9; 20; 21] set_5 set_5_proper).
  - reflexivity.
  - apply (bool_decide_unpack _). vm_compute. exact I.
  - vm_compute. discriminate.
Defined.

(** ** Queries on the results of the set operations *)

(** X17. The queries agree with [CSet_Intersection].  For proper operands
    of positive capacity with at most 2^30 values each, the object the
    call leaves behind the output pointer is accepted by [CSet_isSubsetOf]
    as a subset of either operand, and [CSet_Contains] finds a value in it
    exactly when it finds the value in both operands. *)
Theorem CSet_Intersection_then_queries (h : gmap nat CSet) pI pA pB O A B :
  h !! pI = Some O → h !! pA = Some A → h !! pB = Some B →
  proper A → proper B → 0 < Capacity A → 0 < Capacity B →
  Usage A ≤ 1073741824 → Usage B ≤ 1073741824 →
  ∃ I, CSet_Intersection true h pI pA pB = Some (true, <[pI := I]> h) ∧
       CSet_isSubsetOf I A = Some true ∧
       CSet_isSubsetOf I B = Some true ∧
       ∀ x, CSet_Contains I x
            = b1 ← CSet_Contains A x; b2 ← CSet_Contains B x; Some (b1 && b2).
Proof.
  intros HO HA HB HpA HpB HcA HcB HuA HuB.
  pose proof (common_length A B HpA HpB) as Hlen.
  pose proof (intersection_of_proper A B HpA HpB HcA HcB) as HpI.
  pose proof (intersection_of_members A B HpA HpB HcA HcB) as HmI.
  exists (intersection_of A B). split_and!.
  - by apply (CSet_Intersection_run h pI pA pB O A B).
  - apply CSet_isSubsetOf_subset; [done|done|].
    intros x. rewrite HmI, common_elem_of. tauto.
  - apply CSet_isSubsetOf_subset; [done|done|].
    intros x. rewrite HmI, common_elem_of. tauto.
  - intros x.
    pose proof (proper_members_length A HpA) as HlA.
    pose proof (length_filter (λ x, x ∈ members B) (members A)) as Hle.
    rewrite !CSet_Contains_spec; [|done|done|done|done|done|].
    + cbn [mbind option_bind]. f_equal. rewrite HmI.
      rewrite <- bool_decide_and. apply bool_decide_ext, common_elem_of.
    + cbn [intersection_of Usage]. unfold common. destruct HpA as ((? & ?) & _). lia.
Qed.

Lemma CSet_Intersection_then_queries_witness :
  ∃ I, CSet_Intersection true (three_sets set_5 set_1_3_5 set_1_2) 0 1 2
       = Some (true, <[0%nat := I]> (three_sets set_5 set_1_3_5 set_1_2)) ∧
       CSet_isSubsetOf I set_1_3_5 = Some true ∧
       CSet_isSubsetOf I set_1_2 = Some true ∧
       ∀ x, CSet_Contains I x
            = b1 ← CSet_Contains set_1_3_5 x; b2 ← CSet_Contains set_1_2 x; Some (b1 && b2).
Proof.
  apply (CSet_Intersection_then_queries (three_sets set_5 set_1_3_5 set_1_2) 0 1 2
           set_5 set_1_3_5 set_1_2);
    [reflexivity | reflexivity | reflexivity
    | exact set_1_3_5_proper | exact set_1_2_proper | reflexivity | reflexivity
    | vm_compute; discriminate | vm_compute; discriminate].
Defined.

(** ** CSet_Contains *)

(** X3. [CSet_Contains] on a proper set of at most 2^30 values returns
    without reading outside the block, true exactly when the value is
    stored and false exactly when it is not. *)
Theorem CSet_Contains_correct s v :
  proper s → Usage s ≤ 1073741824 →
  (CSet_Contains s v = Some true ↔ v ∈ members s) ∧
  (CSet_Contains s v = Some false ↔ v ∉ members s).
Proof.
  intros Hp Hu. rewrite CSet_Contains_spec by done. split.
  - split.
    + intros [= Hb]. by apply bool_decide_eq_true in Hb.
    + intros Hv. by rewrite bool_decide_eq_true_2.
  - split.
    + intros [= Hb]. by apply bool_decide_eq_false in Hb.
    + intros Hv. by rewrite bool_decide_eq_false_2.
Qed.

Lemma CSet_Contains_correct_witness :
  (CSet_Contains set_1_3_5 3 = Some true ↔ 3 ∈ members set_1_3_5) ∧
  (CSet_Contains set_1_3_5 3 = Some false ↔ 3 ∉ members set_1_3_5).
Proof.
  apply (CSet_Contains_correct set_1_3_5 3 set_1_3_5_proper).
  vm_compute. discriminate.
Defined.

(** ** The introspection functions *)

(** X24. On a proper set [CSet_Usage] is the number of distinct values
    stored, [CSet_isEmpty] answers true exactly when no value is stored,
    [CSet_Capacity] is the number of cells of the block, and
    [0 <= CSet_Usage <= CSet_Capacity <= UINT32_MAX]. *)
Theorem CSet_introspection s :
  proper s →
  CSet_Usage s = Z.of_nat (size (contents s)) ∧
  CSet_Usage s = Z.of_nat (length (members s)) ∧
  (CSet_isEmpty s = true ↔ contents s = ∅) ∧
  (CSet_isEmpty s = true ↔ ∀ v, v ∉ members s) ∧
  CSet_Capacity s = Z.of_nat (length (cells (Data s))) ∧
  0 ≤ CSet_Usage s ≤ CSet_Capacity s ∧
  CSet_Capacity s ≤ UINT32_MAX.
Proof.
  intros Hp. pose proof (proper_members_length s Hp) as Hl.
  pose proof Hp as ((Hu & Hc) & _ & Hlen & _).
  assert (Hsize : size (contents s) = length (members s)).
  { unfold contents. apply size_list_to_set, ascending_NoDup, proper_ascending, Hp. }
  assert (Hnil : Usage s = 0 ↔ members s = []).
  { split.
    - intros Hz. apply length_zero_iff_nil. lia.
    - intros Hm. rewrite Hm in Hl. cbn [length] in Hl. lia. }
  unfold CSet_Usage, CSet_isEmpty, CSet_Capacity. split_and!.
  - rewrite Hsize. lia.
  - lia.
  - rewrite bool_decide_eq_true, Hnil. split.
    + intros Hm. unfold contents. by rewrite Hm.
    + intros He. apply length_zero_iff_nil. rewrite <- Hsize, He. apply size_empty.
  - rewrite bool_decide_eq_true, Hnil. split.
    + intros -> v. apply not_elem_of_nil.
    + intros Hv. destruct (members s) as [|x l]; [done|].
      exfalso. apply (Hv x). left.
  - lia.
  - lia.
  - lia.
  - lia.
Qed.

Lemma CSet_introspection_witness :
  CSet_Usage set_1_3_5 = Z.of_nat (size (contents set_1_3_5)) ∧
  CSet_Capacity set_1_3_5 = 4.
Proof.
  split.
  - exact (proj1 (CSet_introspection set_1_3_5 set_1_3_5_proper)).
  - reflexivity.
Defined.

(** ** A freshly initialized set *)

(** X2. The object that [CSet_Init] builds behaves as the empty set under
    every query: [CSet_isEmpty] answers true, [CSet_Usage] is 0 and
    [CSet_Capacity] the requested size; [CSet_Contains] finds no value;
    [CSet_Remove] returns false for every value and changes nothing;
    [CSet_isSubsetOf] accepts it as a subset of every proper set; and
    [CSet_Equals] declares it equal to a proper set exactly when that set
    is empty, whatever the two capacities. *)
Theorem CSet_Init_then_queries Sz v B :
  0 ≤ Sz ≤ UINT32_MAX → proper B →
  initialized Sz = Some (fresh Sz) ∧
  CSet_isEmpty (fresh Sz) = true ∧
  CSet_Usage (fresh Sz) = 0 ∧
  CSet_Capacity (fresh Sz) = Sz ∧
  CSet_Contains (fresh Sz) v = Some false ∧
  CSet_Remove (fresh Sz) v = Some (false, fresh Sz) ∧
  CSet_isSubsetOf (fresh Sz) B = Some true ∧
  CSet_Equals (fresh Sz) B = Some (CSet_isEmpty B) ∧
  CSet_Equals B (fresh Sz) = Some (CSet_isEmpty B).
Proof.
  intros HSz HpB. pose proof (fresh_proper Sz HSz) as Hp.
  assert (Hm : members (fresh Sz) = []).
  { unfold members, fresh. cbn [Usage]. by rewrite take_0. }
  pose proof (proper_members_length B HpB) as HlB.
  pose proof HpB as ((HuB & _) & _).
  assert (HeB : CSet_isEmpty B = bool_decide (members B = [])).
  { unfold CSet_isEmpty. apply bool_decide_ext. split.
    - intros Hz. apply length_zero_iff_nil. lia.
    - intros HmB. rewrite HmB in HlB. cbn [length] in HlB. lia. }
  split_and!.
  - unfold initialized. by rewrite CSet_Init_run.
  - done.
  - done.
  - done.
  - done.
  - apply CSet_Remove_absent; [done|]. rewrite Hm. apply not_elem_of_nil.
  - apply CSet_isSubsetOf_subset; [done|done|]. rewrite Hm. by intros x ?%elem_of_nil.
  - rewrite CSet_Equals_spec, Hm, HeB by done. f_equal. by apply bool_decide_ext.
  - rewrite CSet_Equals_spec, Hm, HeB by done. f_equal. by apply bool_decide_ext.
Qed.

Lemma CSet_Init_then_queries_witness :
  CSet_Remove (fresh 3) 7 = Some (false, fresh 3) ∧
  CSet_isSubsetOf (fresh 3) set_1_2 = Some true.
Proof.
  assert (H : 0 ≤ 3 ≤ UINT32_MAX) by (vm_compute; split; discriminate).
  destruct (CSet_Init_then_queries 3 7 set_1_2 H set_1_2_proper)
    as (_ & _ & _ & _ & _ & Hrem & Hsub & _).
  split; [exact Hrem|exact Hsub].
Defined.

(** ** CSet_Contains after CSet_SymDifference *)

(** X25. [CSet_Contains] agrees with [CSet_SymDifference].  For proper
    operands whose capacities have a positive sum that fits in [uint32_t]
    and that hold at most 2^30 values together, [CSet_Contains] finds a
    value in the object left behind the output pointer exactly when it
    finds the value in one operand and not in the other. *)
Theorem CSet_SymDifference_then_Contains (h : gmap nat CSet) pS pA pB O A B :
  h !! pS = Some O → h !! pA = Some A → h !! pB = Some B →
  proper A → proper B →
  0 < Capacity A + Capacity B → Capacity A + Capacity B ≤ UINT32_MAX →
  Usage A + Usage B ≤ 1073741824 →
  ∃ S, CSet_SymDifference true h pS pA pB = Some (true, <[pS := S]> h) ∧
       ∀ x, CSet_Contains S x
            = b1 ← CSet_Contains A x; b2 ← CSet_Contains B x; Some (xorb b1 b2).
Proof.
  intros HO HA HB HpA HpB Hpos Hmax Hsmall.
  destruct (CSet_SymDifference_run h pS pA pB O A B)
    as (S & Hrun & Hp & Hc & Hx & Hu & _); try done.
  pose proof (proper_members_length A HpA) as HlA.
  pose proof (proper_members_length B HpB) as HlB.
  pose proof HpA as ((HuA & _) & _). pose proof HpB as ((HuB & _) & _).
  pose proof (length_filter (λ x, x ∉ members B) (members A)) as HfA.
  pose proof (length_filter (λ x, x ∉ members A) (members B)) as HfB.
  unfold only_in in Hu.
  exists S. split; [done|]. intros x.
  rewrite !CSet_Contains_spec; [|done|lia|done|lia|done|lia].
  cbn [mbind option_bind]. f_equal.
  destruct (decide (x ∈ members A)) as [HxA|HxA], (decide (x ∈ members B)) as [HxB|HxB].
  - rewrite (bool_decide_eq_true_2 (x ∈ members A)) by done.
    rewrite (bool_decide_eq_true_2 (x ∈ members B)) by done.
    rewrite bool_decide_eq_false_2; [done|]. rewrite Hx. tauto.
  - rewrite (bool_decide_eq_true_2 (x ∈ members A)) by done.
    rewrite (bool_decide_eq_false_2 (x ∈ members B)) by done.
    rewrite bool_decide_eq_true_2; [done|]. rewrite Hx. tauto.
  - rewrite (bool_decide_eq_false_2 (x ∈ members A)) by done.
    rewrite (bool_decide_eq_true_2 (x ∈ members B)) by done.
    rewrite bool_decide_eq_true_2; [done|]. rewrite Hx. tauto.
  - rewrite (bool_decide_eq_false_2 (x ∈ members A)) by done.
    rewrite (bool_decide_eq_false_2 (x ∈ members B)) by done.
    rewrite bool_decide_eq_false_2; [done|]. rewrite Hx. tauto.
Qed.

Lemma CSet_SymDifference_then_Contains_witness :
  ∃ S, CSet_SymDifference true (three_sets set_5 set_1_3_5 set_1_2) 0 1 2
       = Some (true, <[0%nat := S]> (three_sets set_5 set_1_3_5 set_1_2)) ∧
       ∀ x, CSet_Contains S x
            = b1 ← CSet_Contains set_1_3_5 x; b2 ← CSet_Contains set_1_2 x;
              Some (xorb b1 b2).
Proof.
  apply (CSet_SymDifference_then_Contains (three_sets set_5 set_1_3_5 set_1_2) 0 1 2
           set_5 set_1_3_5 set_1_2);
    [reflexivity | reflexivity | reflexivity
    | exact set_1_3_5_proper | exact set_1_2_proper | reflexivity
    | vm_compute; discriminate | vm_compute; discriminate].
Defined.

(** ** Instances of the theorems stated before this part *)

Lemma CSet_Insert_in_place_witness :
  (3 ∈ members set_1_5 → ∀ ok, CSet_Insert ok set_1_5 3 = Some (false, set_1_5)) ∧
  (3 ∉ members set_1_5 →
   ∃ (i : nat),
     (∀ ok, CSet_Insert ok set_1_5 3 = Some (true, inserted i set_1_5 3)) ∧
     members (inserted i set_1_5 3)
     = take i (members set_1_5) ++ 3 :: drop i (members set_1_5) ∧
     proper (inserted i set_1_5 3)).
Proof. apply (CSet_Insert_in_place set_1_5 3 set_1_5_proper). reflexivity. Defined.

Lemma CSet_Remove_exact_witness :
  (3 ∉ members set_1_3_5 → CSet_Remove set_1_3_5 3 = Some (false, set_1_3_5)) ∧
  (3 ∈ members set_1_3_5 →
   ∃ (k : nat) s',
     members set_1_3_5 !! k = Some 3 ∧
     CSet_Remove set_1_3_5 3 = Some (true, s') ∧
     Usage s' = Usage set_1_3_5 - 1 ∧
     Capacity s' = Capacity set_1_3_5 ∧
     CSet_Contains s' 3 = Some false ∧
     members s' = delete k (members set_1_3_5) ∧
     filler s' = INT32_MIN :: filler set_1_3_5 ∧
     proper s').
Proof.
  apply (CSet_Remove_exact set_1_3_5 3 set_1_3_5_proper). vm_compute. discriminate.
Defined.

Lemma CSet_Intersection_correct_witness :
  CSet_Intersection true (three_sets set_5 set_1_3_5 set_1_2) 0 1 2
  = Some (true, <[0%nat := intersection_of set_1_3_5 set_1_2]>
                  (three_sets set_5 set_1_3_5 set_1_2)) ∧
  proper (intersection_of set_1_3_5 set_1_2).
Proof.
  assert (H := CSet_Intersection_correct (three_sets set_5 set_1_3_5 set_1_2) 0 1 2
                 set_5 set_1_3_5 set_1_2 eq_refl eq_refl eq_refl
                 set_1_3_5_proper set_1_2_proper eq_refl eq_refl).
  split; [exact (proj1 H)|exact (proj1 (proj2 H))].
Defined.

Lemma CSet_SymDifference_correct_witness :
  ∃ S,
    CSet_SymDifference true (three_sets set_5 set_1_3_5 set_1_2) 0 1 2
    = Some (true, <[0%nat := S]> (three_sets set_5 set_1_3_5 set_1_2)) ∧
    proper S ∧
    Capacity S = Capacity set_1_3_5 + Capacity set_1_2.
Proof.
  destruct (CSet_SymDifference_correct (three_sets set_5 set_1_3_5 set_1_2) 0 1 2
              set_5 set_1_3_5 set_1_2) as (S & Hrun & Hp & Hc & _);
    [reflexivity | reflexivity | reflexivity
    | exact set_1_3_5_proper | exact set_1_2_proper | reflexivity
    | vm_compute; discriminate |].
  exists S. split; [exact Hrun|]. split; [exact Hp|exact Hc].
Defined.
